(** * Parlay Finder: probability engine, activity filter and parlay engine

    A shallow embedding of the TypeScript sources of the repository

      - [lib/prob.ts]           (stat normalizer, probability engine),
      - [lib/correlation.ts]    (combination and correlation-penalty engine),
      - [lib/player-filter.ts]  (activity filter),
      - [lib/types.ts]          (data model),

    together with the properties of these functions.

    Conventions of the embedding.

    - A JavaScript [number] that carries a measurement or a probability is
      an exact rational ([Q]); counts, weeks, seasons and slice bounds are
      integers ([Z], [nat]).  Rounding of IEEE doubles, [NaN] and the
      infinities are outside the model, so [isNaN] is constantly false.
    - An optional field [f?: T] is an [option T]; both [undefined] and [null]
      are [None].  For strings, JavaScript truthiness additionally treats
      the empty string as absent; this is [JS.truthy].
    - [Array.prototype.sort] with a comparator is the stable sort
      [JS.sort]; a [Map] iterated in insertion order is the association
      list [JS.Map]; a [Set] that is only queried for membership or size is
      a [gset]; an object used as a bag of fields is a [gmap].
    - [Date.parse] and [Math.sqrt] are parameters of the development
      ([Date_getTime], [Math_sqrt]); the time value of a text that is not a
      date, which is [NaN], is [None]. *)

From stdpp Require Import gmap strings.
From Stdlib Require Import List ZArith QArith Qround Qpower Lqa Lia Bool.
From Stdlib Require Import String Ascii Permutation Sorted.
Import ListNotations.

Local Open Scope string_scope.
Local Open Scope list_scope.

(** ** JavaScript primitives used by the sources *)

Module JS.

(** Truthiness of an optional string: [undefined], [null] and [""] are
    falsy. *)
Definition truthy (s : option string) : bool :=
  match s with
  | Some (String _ _) => true
  | _ => false
  end.

(** [a || d] where [d] is a string literal. *)
Definition or_str (a : option string) (d : string) : string :=
  match a with
  | Some (String c s) => String c s
  | _ => d
  end.

(** [a || b] on optional strings. *)
Definition or_opt (a b : option string) : option string :=
  if truthy a then a else b.

(** [x || 0] on an optional number: [undefined], [null] and [0] give [0]. *)
Definition or_zero (x : option Q) : Q :=
  match x with
  | Some q => if Qeq_bool q 0 then 0%Q else q
  | None => 0%Q
  end.

(** [x ?? d]. *)
Definition nullish {A} (x : option A) (d : A) : A :=
  match x with Some v => v | None => d end.

(** [String.prototype.toUpperCase] on ASCII letters. *)
Definition upper_ascii (c : ascii) : ascii :=
  let n := nat_of_ascii c in
  if ((97 <=? n) && (n <=? 122))%nat then ascii_of_nat (n - 32) else c.

Fixpoint toUpperCase (s : string) : string :=
  match s with
  | EmptyString => EmptyString
  | String c r => String (upper_ascii c) (toUpperCase r)
  end.

(** [s?.toUpperCase() === lit]. *)
Definition upper_is (s : option string) (lit : string) : bool :=
  match s with
  | Some v => String.eqb (toUpperCase v) lit
  | None => false
  end.

(** The comparisons [a >= b], [a > b] and [a < b] on numbers. *)
Definition ge (a b : Q) : bool := Qle_bool b a.
Definition gt (a b : Q) : bool := negb (Qle_bool a b).
Definition lt (a b : Q) : bool := negb (Qle_bool b a).

(** [Math.max(a, b)]. *)
Definition Math_max (a b : Q) : Q := if Qle_bool a b then b else a.

(** [Math.round]: the nearest integer, halves rounded up. *)
Definition Math_round (x : Q) : Z := Qfloor (x + (1 # 2)).

(** [Math.pow(b, n)] for a non-negative integer exponent. *)
Definition Math_pow (b : Q) (n : nat) : Q := Qpower b (Z.of_nat n).

(** [arr.slice(0, e)]: a negative [e] counts from the end. *)
Definition slice0 {A} (e : Z) (l : list A) : list A :=
  if (e <? 0)%Z
  then firstn (Z.to_nat (Z.max (Z.of_nat (List.length l) + e) 0)) l
  else firstn (Z.to_nat e) l.

(** [arr.sort(cmp)]: stable; [cmp a b <= 0] keeps [a] before [b]. *)
Fixpoint insert {A} (cmp : A -> A -> Q) (x : A) (l : list A) : list A :=
  match l with
  | [] => [x]
  | y :: r => if Qle_bool (cmp x y) 0 then x :: y :: r
              else y :: insert cmp x r
  end.

Fixpoint sort {A} (cmp : A -> A -> Q) (l : list A) : list A :=
  match l with
  | [] => []
  | x :: r => insert cmp x (sort cmp r)
  end.

(** [Map<string, V>] with insertion-ordered iteration. *)
Definition Map (V : Type) : Type := list (string * V).

Fixpoint Map_get {V} (k : string) (m : Map V) : option V :=
  match m with
  | [] => None
  | (k', v) :: r => if String.eqb k' k then Some v else Map_get k r
  end.

Fixpoint Map_set {V} (k : string) (v : V) (m : Map V) : Map V :=
  match m with
  | [] => [(k, v)]
  | (k', v') :: r =>
      if String.eqb k' k then (k', v) :: r else (k', v') :: Map_set k v r
  end.

(** [(m.get(k) || 0) + 1]. *)
Definition Map_bump (k : string) (m : Map nat) : nat :=
  (nullish (Map_get k m) 0 + 1)%nat.

(** [new Set(arr)] when only membership and size are observed. *)
Definition Set_of (l : list string) : gset string := list_to_set l.

End JS.

(** ** Data model ([lib/types.ts]) *)

Module StatType.
(** The keys of [STAT_THRESHOLDS], in declaration order. *)
Inductive t : Type :=
  | pass_yards | rush_yards | rec_yards | receptions | pass_tds.

Definition eqb (a b : t) : bool :=
  match a, b with
  | pass_yards, pass_yards | rush_yards, rush_yards | rec_yards, rec_yards
  | receptions, receptions | pass_tds, pass_tds => true
  | _, _ => false
  end.
End StatType.

Inductive ConfidenceLevel : Type := Speculative | Fair | Strong | Elite.

Module GameLog.
(** A player-game observation.  [rush_attempts] and [targets] are the two
    extension fields that the probability engine reads through the index
    signature. *)
Record t : Type := mk {
  playerId : string;
  playerName : option string;
  gameDate : string;
  gameId : option string;
  week : option Z;
  season : option Z;
  team : option string;
  opponent : option string;
  position : option string;
  snaps : option Q;
  pass_yards : option Q;
  rush_yards : option Q;
  rec_yards : option Q;
  receptions : option Q;
  pass_tds : option Q;
  rush_attempts : option Q;
  targets : option Q
}.

(** [log[statType]]. *)
Definition stat (log : t) (s : StatType.t) : option Q :=
  match s with
  | StatType.pass_yards => pass_yards log
  | StatType.rush_yards => rush_yards log
  | StatType.rec_yards => rec_yards log
  | StatType.receptions => receptions log
  | StatType.pass_tds => pass_tds log
  end.
End GameLog.

Module LegReason.
(** The quantities interpolated into the justification sentence of
    [generateLegReason]; the rendering to text is not modelled. *)
Record t : Type := mk {
  hitRate : Z;
  games : nat;
  average : Z;
  avgAbove : bool;
  avgGap : Z;
  statDisplay : StatType.t;
  recentValue : Z;
  recentHit : bool
}.
End LegReason.

Module Leg.
Record t : Type := mk {
  playerId : string;
  playerName : option string;
  statType : StatType.t;
  threshold : Q;
  smoothedProb : Q;
  rawProb : Q;
  confidence : ConfidenceLevel;
  sampleSize : nat;
  lastNGameValues : list Q;
  consistency : option Q;
  reason : option LegReason.t;
  gameId : option string;
  gameDate : option string;
  team : option string;
  opponent : option string;
  position : option string
}.
End Leg.

Module PenaltyReason.
(** The quantities interpolated into a penalty's explanation string. *)
Inductive t : Type :=
  | same_game (count : nat) (gameKey : string) (penaltyAmount : Q)
  | same_team (count : nat) (team : string) (penaltyAmount : Q)
  | qb_wr_stack (team : string).
End PenaltyReason.

Module PenaltyBreakdown.
Record t : Type := mk {
  type : string;
  amount : Q;
  reason : PenaltyReason.t
}.
End PenaltyBreakdown.

Module Parlay.
Record t : Type := mk {
  legs : list Leg.t;
  estimatedProbability : Q;
  estProbability : option Q;
  penaltyBreakdown : option (list PenaltyBreakdown.t)
}.
End Parlay.

Module PlayerStatus.
Record t : Type := mk {
  playerId : string;
  team : option string;
  isActive : bool;
  isOnBye : bool;
  hasRecentSnaps : bool;
  currentWeek : option Z
}.
End PlayerStatus.

Module ParlayOptions.
Record t : Type := mk {
  minLegs : option Z;
  maxLegs : option Z;
  maxLegsPerGame : option Z;
  maxLegsPerTeam : option Z;
  allowSameTeamStack : option bool;
  legCount : option Z;
  singleGame : option bool;
  gameId : option string;
  minLegProb : option Q;
  allowSameGame : option bool
}.

(** [options = {}]. *)
Definition empty : t := mk None None None None None None None None None None.
End ParlayOptions.

(** ** Stat normalizer ([normalizeGameLog], lib/prob.ts) *)

Module Raw.
(** A field value of an untyped game-log record. *)
Inductive value : Type :=
  | undefined
  | null
  | number (q : Q)
  | str (s : string)
  | boolean (b : bool).

(** [v === null || v === undefined]. *)
Definition nullish (v : value) : bool :=
  match v with
  | undefined | null => true
  | _ => false
  end.

(** [obj[key]]: an absent key reads as [undefined]. *)
Definition get (obj : gmap string value) (key : string) : value :=
  match obj !! key with
  | Some v => v
  | None => undefined
  end.

(** [key in obj]. *)
Definition has (obj : gmap string value) (key : string) : bool :=
  match obj !! key with
  | Some _ => true
  | None => false
  end.
End Raw.

(** [statMappings], in the order [Object.entries] yields it. *)
Definition statMappings : list (string * string) :=
  [ ("passing_yards", "pass_yards");
    ("rushing_yards", "rush_yards");
    ("receiving_yards", "rec_yards");
    ("rec", "receptions");
    ("passing_tds", "pass_tds");
    ("pass_td", "pass_tds") ].

Definition expectedStatFields : list string :=
  [ "pass_yards"; "rush_yards"; "rec_yards"; "receptions"; "pass_tds" ].

(** Body of the first loop of [normalizeGameLog]. *)
Definition applyMapping (normalized : gmap string Raw.value)
    (entry : string * string) : gmap string Raw.value :=
  let '(altKey, standardKey) := entry in
  if Raw.has normalized altKey then
    if negb (Raw.has normalized standardKey)
       || Raw.nullish (Raw.get normalized standardKey)
    then <[standardKey := Raw.get normalized altKey]> normalized
    else normalized
  else normalized.

(** Body of the second loop of [normalizeGameLog]. *)
Definition fillDefault (normalized : gmap string Raw.value)
    (field : string) : gmap string Raw.value :=
  if Raw.nullish (Raw.get normalized field)
  then <[field := Raw.number 0]> normalized
  else normalized.

Definition normalizeGameLog (gameLog : gmap string Raw.value)
    : gmap string Raw.value :=
  let normalized := gameLog in
  let normalized := fold_left applyMapping statMappings normalized in
  fold_left fillDefault expectedStatFields normalized.

Definition normalizeGameLogs (gameLogs : list (gmap string Raw.value))
    : list (gmap string Raw.value) :=
  List.map normalizeGameLog gameLogs.

(** ** Probability engine ([lib/prob.ts]) *)

Definition STAT_THRESHOLDS (s : StatType.t) : list Q :=
  match s with
  | StatType.pass_yards => [150; 175; 200; 225]
  | StatType.rush_yards => [25; 40; 50; 60]
  | StatType.rec_yards => [25; 40; 50; 60]
  | StatType.receptions => [2; 3; 4; 5]
  | StatType.pass_tds => [1]
  end%Q.

(** [Object.entries(STAT_THRESHOLDS)]. *)
Definition STAT_THRESHOLDS_entries : list (StatType.t * list Q) :=
  List.map (fun s => (s, STAT_THRESHOLDS s))
    [ StatType.pass_yards; StatType.rush_yards; StatType.rec_yards;
      StatType.receptions; StatType.pass_tds ].

Definition DEFAULT_MIN_PROBABILITY : Q := 80 # 100.
Definition DEFAULT_MIN_SAMPLE_SIZE : Z := 6.
Definition DEFAULT_MIN_TOUCHES_PER_GAME : Q := 5.
Definition DEFAULT_BETA_A : Q := 4.
Definition DEFAULT_BETA_B : Q := 2.

Definition isNaN (_ : Q) : bool := false.

(** [values.reduce((sum, val) => sum + val, 0)]. *)
Definition sumQ (values : list Q) : Q :=
  fold_left (fun sum val => sum + val)%Q values 0%Q.

(** [arr.length] as a number. *)
Definition lengthQ {A} (l : list A) : Q := inject_Z (Z.of_nat (List.length l)).

(** [arr.map(f).filter(v => v !== undefined && v !== null && keep(v))]. *)
Definition definedValues (keep : Q -> bool) (l : list (option Q)) : list Q :=
  flat_map (fun o => match o with
                     | Some v => if keep v then [v] else []
                     | None => []
                     end) l.

Module ProbResult.
Record t : Type := mk {
  rawProb : Q;
  smoothedProb : Q;
  sampleSize : nat;
  lastNGameValues : list Q;
  consistency : Q
}.
End ProbResult.

Definition getConfidenceLevel (smoothedProb : Q) : ConfidenceLevel :=
  if JS.ge smoothedProb (85 # 100) then Elite
  else if JS.ge smoothedProb (75 # 100) then Strong
  else if JS.ge smoothedProb (65 # 100) then Fair
  else Speculative.

(** The touches of one game, for the (upper-cased) position of the most
    recent game: the body of the loop of [calculateAverageTouchesPerGame]. *)
Definition gameTouches (position : option string) (log : GameLog.t) : Q :=
  let touches := 0%Q in
  if JS.upper_is position "RB" then
    let touches :=
      match GameLog.rush_attempts log with
      | Some attempts => (touches + attempts)%Q
      | None =>
          match GameLog.rush_yards log with
          | Some _ =>
              (touches + inject_Z (JS.Math_round
                 (JS.or_zero (GameLog.rush_yards log) / (45 # 10))))%Q
          | None => touches
          end
      end in
    (touches + JS.or_zero (GameLog.receptions log))%Q
  else if JS.upper_is position "WR" || JS.upper_is position "TE" then
    match GameLog.targets log with
    | Some targets => targets
    | None => JS.or_zero (GameLog.receptions log)
    end
  else touches.

Definition calculateAverageTouchesPerGame (gameLogs : list GameLog.t) : Q :=
  match gameLogs with
  | [] => 0%Q
  | first :: _ =>
      let position := GameLog.position first in
      if JS.upper_is position "QB" then 100%Q
      else
        let '(totalTouches, gamesWithData) :=
          fold_left
            (fun '(totalTouches, gamesWithData) log =>
               let touches := gameTouches position log in
               if JS.gt touches 0
               then ((totalTouches + touches)%Q, S gamesWithData)
               else (totalTouches, gamesWithData))
            gameLogs (0%Q, O) in
        if (0 <? gamesWithData)%nat
        then (totalTouches / inject_Z (Z.of_nat gamesWithData))%Q
        else 0%Q
  end.

Definition hasSufficientStatData (gameLogs : list GameLog.t)
    (statType : StatType.t) (minCount : Z) : bool :=
  match gameLogs with
  | [] => false
  | _ =>
      let statValues :=
        definedValues (fun val => negb (isNaN val))
          (List.map (fun log => GameLog.stat log statType) gameLogs) in
      (minCount <=? Z.of_nat (List.length statValues))%Z
  end.

Definition generateLegReason (statType : StatType.t) (threshold : Q)
    (rawProbability : Q) (sampleSize : nat) (lastNGameValues : list Q)
    (mostRecentValue : Q) : LegReason.t :=
  let hitRate := JS.Math_round (rawProbability * 100) in
  let average := (sumQ lastNGameValues / lengthQ lastNGameValues)%Q in
  let avgDiff := (average - threshold)%Q in
  let recentHit := JS.ge mostRecentValue threshold in
  LegReason.mk hitRate sampleSize (JS.Math_round average)
    (JS.ge avgDiff 0) (Z.abs (JS.Math_round avgDiff)) statType
    (JS.Math_round mostRecentValue) recentHit.

Section ProbabilityEngine.

(** [new Date(s).getTime()], [None] when the text is not a date and the
    time value is [NaN]; and [Math.sqrt]. *)
Variable Date_getTime : string -> option Z.
Variable Math_sqrt : Q -> Q.

Definition calculateStandardDeviation (values : list Q) : Q :=
  match values with
  | [] => 0
  | [_] => 0
  | _ =>
      let mean := sumQ values / lengthQ values in
      let variance :=
        fold_left (fun sum val => sum + JS.Math_pow (val - mean) 2)
          values 0 / lengthQ values in
      Math_sqrt variance
  end%Q.

Definition calculateProbability (gameLogs : list GameLog.t)
    (statType : StatType.t) (threshold : Q) (betaA betaB : Q)
    : ProbResult.t :=
  match gameLogs with
  | [] => ProbResult.mk 0 0 0 [] 0
  | _ =>
      let statValues :=
        definedValues (fun _ => true)
          (List.map (fun log => GameLog.stat log statType) gameLogs) in
      match statValues with
      | [] => ProbResult.mk 0 0 0 [] 0
      | _ =>
          let sampleSize := List.length statValues in
          let countAboveThreshold :=
            List.length
              (List.filter (fun val => JS.ge val threshold) statValues) in
          let rawProb :=
            (inject_Z (Z.of_nat countAboveThreshold)
             / inject_Z (Z.of_nat sampleSize))%Q in
          let smoothedProb :=
            ((inject_Z (Z.of_nat countAboveThreshold) + betaA)
             / (inject_Z (Z.of_nat sampleSize) + betaA + betaB))%Q in
          let consistency := calculateStandardDeviation statValues in
          ProbResult.mk rawProb smoothedProb sampleSize statValues
            consistency
      end
  end.

(** Date comparator of the two [sort] calls: most recent first.  When one
    of the two dates does not parse the difference is [NaN], which
    [Array.prototype.sort] takes as [+0].  With some dates parsing and
    others not, the comparator is not a consistent comparison function and
    ECMAScript leaves the order to the engine; [JS.sort] then gives the
    order of a stable insertion sort. *)
Definition byDateDesc (a b : GameLog.t) : Q :=
  match Date_getTime (GameLog.gameDate b),
        Date_getTime (GameLog.gameDate a) with
  | Some timeB, Some timeA => inject_Z (timeB - timeA)
  | _, _ => 0
  end.

(** Comparator of the final [legs.sort] of [generateLegs]. *)
Definition legOrder (a b : Leg.t) : Q :=
  if negb (Qeq_bool (Leg.smoothedProb b) (Leg.smoothedProb a))
  then Leg.smoothedProb b - Leg.smoothedProb a
  else
    let consistencyA := JS.or_zero (Leg.consistency a) in
    let consistencyB := JS.or_zero (Leg.consistency b) in
    consistencyA - consistencyB.

(** The inner [for (const threshold of thresholds)] loop of
    [generateLegs], which stops at the first threshold that passes the
    filters. *)
Fixpoint firstQualifyingLeg (playerId : string)
    (playerName : option string) (sortedLogs : list GameLog.t)
    (minProbability : Q) (minSampleSize : Z) (statType : StatType.t)
    (thresholds : list Q) : option Leg.t :=
  match thresholds with
  | [] => None
  | threshold :: rest =>
      let r := calculateProbability sortedLogs statType threshold
                 DEFAULT_BETA_A DEFAULT_BETA_B in
      if (minSampleSize <=? Z.of_nat (ProbResult.sampleSize r))%Z
         && JS.ge (ProbResult.smoothedProb r) minProbability
         && (0 <? List.length (ProbResult.lastNGameValues r))%nat
      then
        match sortedLogs, ProbResult.lastNGameValues r with
        | mostRecentLog :: _, mostRecentValue :: _ =>
            let reason :=
              generateLegReason statType threshold (ProbResult.rawProb r)
                (ProbResult.sampleSize r) (ProbResult.lastNGameValues r)
                mostRecentValue in
            Some (Leg.mk playerId playerName statType threshold
                    (ProbResult.smoothedProb r) (ProbResult.rawProb r)
                    (getConfidenceLevel (ProbResult.smoothedProb r))
                    (ProbResult.sampleSize r)
                    (ProbResult.lastNGameValues r)
                    (Some (ProbResult.consistency r))
                    (Some reason)
                    (GameLog.gameId mostRecentLog)
                    (Some (GameLog.gameDate mostRecentLog))
                    (GameLog.team mostRecentLog)
                    (GameLog.opponent mostRecentLog)
                    (GameLog.position mostRecentLog))
        | _, _ => None (* not reached: the values come from the logs *)
        end
      else
        firstQualifyingLeg playerId playerName sortedLogs minProbability
          minSampleSize statType rest
  end.

(** [[...gameLogs].sort(byDate).slice(0, lastN)]. *)
Definition recentLogs (gameLogs : list GameLog.t) (lastN : Z)
    : list GameLog.t :=
  JS.slice0 lastN (JS.sort byDateDesc gameLogs).

Definition generateLegs (playerId : string) (playerName : option string)
    (gameLogs : list GameLog.t) (lastN : Z) (minProbability : Q)
    (minSampleSize : Z) (minTouchesPerGame : Q) : list Leg.t :=
  let sortedLogs := recentLogs gameLogs lastN in
  let avgTouchesPerGame := calculateAverageTouchesPerGame sortedLogs in
  if JS.lt avgTouchesPerGame minTouchesPerGame then []
  else
    let legs :=
      fold_left
        (fun legs '(statType, thresholds) =>
           if negb (hasSufficientStatData sortedLogs statType 4) then legs
           else
             match firstQualifyingLeg playerId playerName sortedLogs
                     minProbability minSampleSize statType thresholds with
             | Some leg => legs ++ [leg]
             | None => legs
             end)
        STAT_THRESHOLDS_entries [] in
    JS.sort legOrder legs.

End ProbabilityEngine.

(** ** Combination and correlation-penalty engine ([lib/correlation.ts]) *)

Definition isQBPassingYards (leg : Leg.t) : bool :=
  StatType.eqb (Leg.statType leg) StatType.pass_yards
  && JS.upper_is (Leg.position leg) "QB".

Definition isWRTEReceivingYards (leg : Leg.t) : bool :=
  let position := Leg.position leg in
  StatType.eqb (Leg.statType leg) StatType.rec_yards
  && (JS.upper_is position "WR" || JS.upper_is position "TE").

(** [a !== b] on optional strings. *)
Definition opt_str_neq (a b : option string) : bool :=
  match a, b with
  | Some x, Some y => negb (String.eqb x y)
  | None, None => false
  | _, _ => true
  end.

Definition violatesSameTeamStack (leg1 leg2 : Leg.t)
    (allowSameTeamStack : bool) : bool :=
  if allowSameTeamStack then false
  else if negb (JS.truthy (Leg.team leg1))
          || negb (JS.truthy (Leg.team leg2))
          || opt_str_neq (Leg.team leg1) (Leg.team leg2)
  then false
  else
    let leg1IsQBPass := isQBPassingYards leg1 in
    let leg2IsQBPass := isQBPassingYards leg2 in
    let leg1IsWRTERec := isWRTEReceivingYards leg1 in
    let leg2IsWRTERec := isWRTEReceivingYards leg2 in
    (leg1IsQBPass && leg2IsWRTERec) || (leg2IsQBPass && leg1IsWRTERec).

(** [leg.gameId || leg.gameDate || 'unknown']. *)
Definition gameKey (leg : Leg.t) : string :=
  JS.or_str (JS.or_opt (Leg.gameId leg) (Leg.gameDate leg)) "unknown".

(** The per-game loop of [isValidParlay]: [false] as soon as a game key is
    counted twice. *)
Fixpoint oneLegPerGame (legs : list Leg.t) (gameCounts : JS.Map nat) : bool :=
  match legs with
  | [] => true
  | leg :: rest =>
      let gameKey := gameKey leg in
      let count := JS.Map_bump gameKey gameCounts in
      if (1 <? count)%nat then false
      else oneLegPerGame rest (JS.Map_set gameKey count gameCounts)
  end.

(** The nested [i < j] loops of [isValidParlay]: [true] when no pair
    violates the stacking rule. *)
Fixpoint noStackViolation (legs : list Leg.t) (allowSameTeamStack : bool)
    : bool :=
  match legs with
  | [] => true
  | legI :: later =>
      forallb (fun legJ =>
                 negb (violatesSameTeamStack legI legJ allowSameTeamStack))
              later
      && noStackViolation later allowSameTeamStack
  end.

Definition isValidParlay (legs : list Leg.t) (legCount : Z)
    (allowSameGame allowSameTeamStack : bool) : bool :=
  if negb (Z.of_nat (List.length legs) =? legCount)%Z then false
  else
    let playerIds := List.map Leg.playerId legs in
    if negb (size (JS.Set_of playerIds) =? List.length playerIds)%nat
    then false
    else if negb allowSameGame && negb (oneLegPerGame legs []) then false
    else if negb allowSameTeamStack
            && negb (noStackViolation legs allowSameTeamStack) then false
    else true.

(** [legs.reduce((product, leg) => product * leg.smoothedProb, 1)]. *)
Definition calculateParlayProbability (legs : list Leg.t) : Q :=
  fold_left (fun product leg => product * Leg.smoothedProb leg)%Q legs 1%Q.

Module PenaltyState.
(** The two mutable locals of [calculateParlayPenalties]. *)
Record t : Type := mk {
  multiplier : Q;
  penalties : list PenaltyBreakdown.t
}.
End PenaltyState.

(** [gameCounts] after the first loop. *)
Definition countGames (legs : list Leg.t) : JS.Map nat :=
  fold_left (fun gameCounts leg =>
               let gameKey := gameKey leg in
               JS.Map_set gameKey (JS.Map_bump gameKey gameCounts) gameCounts)
            legs [].

(** The same-game penalty loop over [gameCounts.entries()]. *)
Definition sameGamePenalties (gameCounts : JS.Map nat) (st : PenaltyState.t)
    : PenaltyState.t :=
  fold_left
    (fun st '(gameKey, count) =>
       if (1 <? count)%nat then
         let extraLegs := (count - 1)%nat in
         let penaltyMultiplier := JS.Math_pow (90 # 100) extraLegs in
         let penaltyAmount := (1 - penaltyMultiplier)%Q in
         PenaltyState.mk
           (PenaltyState.multiplier st * penaltyMultiplier)%Q
           (PenaltyState.penalties st ++
              [PenaltyBreakdown.mk "same_game" penaltyAmount
                 (PenaltyReason.same_game count gameKey penaltyAmount)])
       else st)
    gameCounts st.

(** [teamLegs.find(t => t.team === team)!.legs.push(leg)], creating the
    group at the end when it is missing. *)
Fixpoint pushTeamLeg (team : string) (leg : Leg.t)
    (teamLegs : list (string * list Leg.t)) : list (string * list Leg.t) :=
  match teamLegs with
  | [] => [(team, [leg])]
  | (t, ls) :: r =>
      if String.eqb t team then (t, ls ++ [leg]) :: r
      else (t, ls) :: pushTeamLeg team leg r
  end.

(** [teamCounts] and [teamLegs] after the second counting loop. *)
Definition countTeams (legs : list Leg.t)
    : JS.Map nat * list (string * list Leg.t) :=
  fold_left
    (fun '(teamCounts, teamLegs) leg =>
       match Leg.team leg with
       | Some (String c s) =>
           let team := String c s in
           (JS.Map_set team (JS.Map_bump team teamCounts) teamCounts,
            pushTeamLeg team leg teamLegs)
       | _ => (teamCounts, teamLegs)
       end)
    legs ([], []).

(** The same-team penalty loop over [teamCounts.entries()]. *)
Definition sameTeamPenalties (teamCounts : JS.Map nat) (st : PenaltyState.t)
    : PenaltyState.t :=
  fold_left
    (fun st '(team, count) =>
       if (1 <? count)%nat then
         let extraLegs := (count - 1)%nat in
         let penaltyMultiplier := JS.Math_pow (95 # 100) extraLegs in
         let penaltyAmount := (1 - penaltyMultiplier)%Q in
         PenaltyState.mk
           (PenaltyState.multiplier st * penaltyMultiplier)%Q
           (PenaltyState.penalties st ++
              [PenaltyBreakdown.mk "same_team" penaltyAmount
                 (PenaltyReason.same_team count team penaltyAmount)])
       else st)
    teamCounts st.

(** The quarterback/receiver stack loop over [teamLegs]. *)
Definition stackPenalties (teamLegs : list (string * list Leg.t))
    (st : PenaltyState.t) : PenaltyState.t :=
  fold_left
    (fun st '(team, legs) =>
       let hasQBPass := existsb isQBPassingYards legs in
       let hasWRTERec := existsb isWRTEReceivingYards legs in
       if hasQBPass && hasWRTERec then
         PenaltyState.mk
           (PenaltyState.multiplier st * (85 # 100))%Q
           (PenaltyState.penalties st ++
              [PenaltyBreakdown.mk "qb_wr_stack" (15 # 100)
                 (PenaltyReason.qb_wr_stack team)])
       else st)
    teamLegs st.

Module PenaltyResult.
Record t : Type := mk {
  adjustedProbability : Q;
  penalties : list PenaltyBreakdown.t
}.
End PenaltyResult.

Definition calculateParlayPenalties (legs : list Leg.t) : PenaltyResult.t :=
  let baseProbability := calculateParlayProbability legs in
  let st := PenaltyState.mk 1 [] in
  let gameCounts := countGames legs in
  let st := sameGamePenalties gameCounts st in
  let '(teamCounts, teamLegs) := countTeams legs in
  let st := sameTeamPenalties teamCounts st in
  let st := stackPenalties teamLegs st in
  let adjustedProbability :=
    (baseProbability * PenaltyState.multiplier st)%Q in
  PenaltyResult.mk (JS.Math_max adjustedProbability 0)
    (PenaltyState.penalties st).

Section GenerateParlays.

Variable legCount : Z.
Variables allowSameGame allowSameTeamStack : bool.

(** What [generateCombinations] does when [current.length === size]. *)
Definition emitParlay (current : list Leg.t) : list Parlay.t :=
  if isValidParlay current legCount allowSameGame allowSameTeamStack then
    let r := calculateParlayPenalties current in
    let adjustedProbability := PenaltyResult.adjustedProbability r in
    let penalties := PenaltyResult.penalties r in
    [ Parlay.mk current adjustedProbability (Some adjustedProbability)
        (if (0 <? List.length penalties)%nat then Some penalties
         else None) ]
  else [].

(** [generateCombinations(arr, size, start, current)]: [arr] here is the
    part of the array from index [start] on, and the result is what the
    call appends to [parlays]. *)
Fixpoint generateCombinations (arr : list Leg.t) (size : Z)
    (current : list Leg.t) {struct arr} : list Parlay.t :=
  if (Z.of_nat (List.length current) =? size)%Z then emitParlay current
  else
    (fix loop (rest : list Leg.t) : list Parlay.t :=
       match rest with
       | [] => []
       | leg :: rest' =>
           generateCombinations rest' size (current ++ [leg]) ++ loop rest'
       end) arr.

End GenerateParlays.

(** Comparator of the final sort of [generateParlays]; a comparator result
    that is not a number counts as zero. *)
Definition parlayOrder (a b : Parlay.t * Q) : Q :=
  match Parlay.estProbability (fst b), Parlay.estProbability (fst a) with
  | Some pb, Some pa =>
      let probDiff := (pb - pa)%Q in
      if negb (Qeq_bool probDiff 0) then probDiff
      else (snd b - snd a)%Q
  | _, _ => 0%Q
  end.

(** The leg-count clamp of [generateParlays]. *)
Definition clampLegCount (requested : option Z) : Z :=
  Z.max 2 (Z.min 8 (JS.nullish requested 3%Z)).

(** The candidate legs after the two filters of [generateParlays]. *)
Definition filterLegs (candidateLegs : list Leg.t) (options : ParlayOptions.t)
    : list Leg.t :=
  let minLegProb := JS.nullish (ParlayOptions.minLegProb options) (80 # 100) in
  let singleGame := JS.nullish (ParlayOptions.singleGame options) false in
  let filteredLegs :=
    List.filter (fun leg => JS.ge (Leg.smoothedProb leg) minLegProb)
      candidateLegs in
  if singleGame && JS.truthy (ParlayOptions.gameId options)
  then List.filter
         (fun leg => negb (opt_str_neq (Leg.gameId leg)
                             (ParlayOptions.gameId options)))
         filteredLegs
  else filteredLegs.

Definition generateParlays (candidateLegs : list Leg.t)
    (options : ParlayOptions.t) : list Parlay.t :=
  let legCount := clampLegCount (ParlayOptions.legCount options) in
  let singleGame := JS.nullish (ParlayOptions.singleGame options) false in
  let allowSameGame :=
    if singleGame then true
    else JS.nullish (ParlayOptions.allowSameGame options) false in
  let allowSameTeamStack :=
    JS.nullish (ParlayOptions.allowSameTeamStack options) false in
  let filteredLegs := filterLegs candidateLegs options in
  let parlays :=
    generateCombinations legCount allowSameGame allowSameTeamStack
      filteredLegs legCount [] in
  let parlaysWithAvgProb :=
    List.map
      (fun parlay =>
         let avgLegProb :=
           (fold_left (fun sum leg => sum + Leg.smoothedProb leg)
              (Parlay.legs parlay) 0
            / lengthQ (Parlay.legs parlay))%Q in
         (parlay, avgLegProb))
      parlays in
  List.map fst (JS.sort parlayOrder parlaysWithAvgProb).

Definition getTopParlays (candidateLegs : list Leg.t) (topN : Z)
    (options : ParlayOptions.t) : list Parlay.t :=
  let allParlays := generateParlays candidateLegs options in
  JS.slice0 topN allParlays.

(** ** Activity filter ([lib/player-filter.ts]) *)

(** [log.week === week] for an optional field. *)
Definition opt_Z_is (o : option Z) (z : Z) : bool :=
  match o with
  | Some v => (v =? z)%Z
  | None => false
  end.

Definition getByeWeekTeams (gameLogs : list GameLog.t) (week season : Z)
    : gset string :=
  let teamsWithGames : gset string :=
    fold_left
      (fun (acc : gset string) log =>
         if opt_Z_is (GameLog.week log) week
            && opt_Z_is (GameLog.season log) season
            && JS.truthy (GameLog.team log)
         then {[ JS.or_str (GameLog.team log) "" ]} ∪ acc
         else acc)
      gameLogs ∅ in
  let allTeams : gset string :=
    fold_left
      (fun (acc : gset string) log =>
         if JS.truthy (GameLog.team log)
         then {[ JS.or_str (GameLog.team log) "" ]} ∪ acc
         else acc)
      gameLogs ∅ in
  (* the teams of [allTeams] that [teamsWithGames] does not have *)
  allTeams ∖ teamsWithGames.

(** [snaps !== undefined && snaps !== null && snaps > 0]. *)
Definition playedSnaps (log : GameLog.t) : bool :=
  match GameLog.snaps log with
  | Some snaps => JS.gt snaps 0
  | None => false
  end.

Section ActivityFilter.

Variable Date_getTime : string -> option Z.

(** The player's games, most recent first. *)
Definition playerLogsByDate (gameLogs : list GameLog.t) (playerId : string)
    : list GameLog.t :=
  JS.sort (byDateDesc Date_getTime)
    (List.filter (fun log => String.eqb (GameLog.playerId log) playerId)
       gameLogs).

Definition hasSnapsInLastNGames (gameLogs : list GameLog.t)
    (playerId : string) (n : Z) : bool :=
  let sortedLogs := JS.slice0 n (playerLogsByDate gameLogs playerId) in
  if (Z.of_nat (List.length sortedLogs) <? n)%Z then false
  else forallb playedSnaps sortedLogs.

Definition isPlayerActive (gameLogs : list GameLog.t) (playerId : string)
    (currentWeek season : Z) : PlayerStatus.t :=
  let playerLogs :=
    List.filter (fun log => String.eqb (GameLog.playerId log) playerId)
      gameLogs in
  match playerLogs with
  | [] => PlayerStatus.mk playerId None false false false (Some currentWeek)
  | first :: _ =>
      let team := GameLog.team first in
      let byeWeekTeams := getByeWeekTeams gameLogs currentWeek season in
      let isOnBye :=
        if JS.truthy team
        then bool_decide (JS.or_str team "" ∈ byeWeekTeams)
        else false in
      let hasRecentSnaps := hasSnapsInLastNGames gameLogs playerId 2 in
      let isActive := negb isOnBye && hasRecentSnaps in
      PlayerStatus.mk playerId team isActive isOnBye hasRecentSnaps
        (Some currentWeek)
  end.

End ActivityFilter.

(** ** Further functions of the probability engine and the activity filter *)

(** The property names that an ordinary object inherits from
    [Object.prototype]. *)
Definition Object_prototype_names : list string :=
  [ "constructor"; "hasOwnProperty"; "isPrototypeOf"; "propertyIsEnumerable";
    "toLocaleString"; "toString"; "valueOf"; "__proto__";
    "__defineGetter__"; "__defineSetter__"; "__lookupGetter__";
    "__lookupSetter__" ].

(** What [record[key]] finds in a record whose own entries are the map and
    whose prototype is [Object.prototype] (an object literal, or what
    [JSON.parse] builds): the own entry; else, for an inherited name, a
    member of the prototype, which is a function or, for [__proto__], the
    prototype itself; else [undefined]. *)
Inductive RecordEntry (V : Type) : Type :=
  | OwnEntry (value : V)
  | InheritedMember
  | NoEntry.
Arguments OwnEntry {V} _.
Arguments InheritedMember {V}.
Arguments NoEntry {V}.

Definition Record_get {V} (record : gmap string V) (key : string)
    : RecordEntry V :=
  match record !! key with
  | Some value => OwnEntry value
  | None =>
      if existsb (String.eqb key) Object_prototype_names
      then InheritedMember
      else NoEntry
  end.

(** How a call ends: it returns a value or throws a [TypeError]. *)
Inductive Completion (A : Type) : Type :=
  | Normal (value : A)
  | TypeError.
Arguments Normal {A} _.
Arguments TypeError {A}.

Section ProbabilityEngineBulk.

Variable Date_getTime : string -> option Z.
Variable Math_sqrt : Q -> Q.

(** The [for] loop of [generateLegsForPlayers] from the players that are
    left, with [allLegs] as collected so far.  [players] are the
    [{ id, name }] pairs.  An own entry of the record or, through [|| []],
    the empty array goes to [generateLegs], where an absent [lastN]
    defaults to the number of logs.  A member of the prototype is truthy
    and goes to [generateLegs] as it is, whose [[...gameLogs]] throws a
    [TypeError] because the value is not iterable. *)
Fixpoint collectLegs (players : list (string * option string))
    (gameLogsByPlayerId : gmap string (list GameLog.t)) (lastN : option Z)
    (minProbability : Q) (minSampleSize : Z) (minTouchesPerGame : Q)
    (allLegs : list Leg.t) : Completion (list Leg.t) :=
  match players with
  | [] => Normal allLegs
  | (id, name) :: rest =>
      let legsFrom (playerGameLogs : list GameLog.t) :=
        generateLegs Date_getTime Math_sqrt id name playerGameLogs
          (JS.nullish lastN (Z.of_nat (List.length playerGameLogs)))
          minProbability minSampleSize minTouchesPerGame in
      match Record_get gameLogsByPlayerId id with
      | OwnEntry playerGameLogs =>
          collectLegs rest gameLogsByPlayerId lastN minProbability
            minSampleSize minTouchesPerGame
            (allLegs ++ legsFrom playerGameLogs)
      | NoEntry =>
          collectLegs rest gameLogsByPlayerId lastN minProbability
            minSampleSize minTouchesPerGame (allLegs ++ legsFrom [])
      | InheritedMember => TypeError
      end
  end.

Definition generateLegsForPlayers (players : list (string * option string))
    (gameLogsByPlayerId : gmap string (list GameLog.t)) (lastN : option Z)
    (minProbability : Q) (minSampleSize : Z) (minTouchesPerGame : Q)
    : Completion (list Leg.t) :=
  match collectLegs players gameLogsByPlayerId lastN minProbability
          minSampleSize minTouchesPerGame [] with
  | Normal allLegs => Normal (JS.sort legOrder allLegs)
  | TypeError => TypeError
  end.

End ProbabilityEngineBulk.

Section ActivityFilterBulk.

Variable Date_getTime : string -> option Z.

Definition filterActivePlayers (gameLogs : list GameLog.t)
    (currentWeek season : Z) : list GameLog.t :=
  let playerIds : gset string :=
    fold_left
      (fun (acc : gset string) log =>
         if JS.truthy (Some (GameLog.playerId log))
         then {[ GameLog.playerId log ]} ∪ acc
         else acc)
      gameLogs ∅ in
  let activePlayerIds : gset string :=
    base.filter
      (fun playerId =>
         PlayerStatus.isActive
           (isPlayerActive Date_getTime gameLogs playerId currentWeek season)
         = true)
      playerIds in
  List.filter
    (fun log => bool_decide (GameLog.playerId log ∈ activePlayerIds))
    gameLogs.

Definition getPlayerStatuses (gameLogs : list GameLog.t)
    (playerIds : list string) (currentWeek season : Z)
    : list PlayerStatus.t :=
  List.map
    (fun playerId =>
       isPlayerActive Date_getTime gameLogs playerId currentWeek season)
    playerIds.

End ActivityFilterBulk.

(** ** File cache ([lib/cache.ts]) *)

Module Cache.

(** One code unit outside the class [[^a-zA-Z0-9-_]]. *)
Definition safeChar (c : ascii) : bool :=
  let n := nat_of_ascii c in
  ((97 <=? n) && (n <=? 122) || (65 <=? n) && (n <=? 90)
   || (48 <=? n) && (n <=? 57) || (n =? 45) || (n =? 95))%nat.

(** [key.replace(/[^a-zA-Z0-9-_]/g, '_')]. *)
Fixpoint sanitize (key : string) : string :=
  match key with
  | EmptyString => EmptyString
  | String c rest =>
      String (if safeChar c then c else "_"%char) (sanitize rest)
  end.

(** The name, inside [CACHE_DIR], of the file that [getCacheFilePath]
    gives the key. *)
Definition getCacheFilePath (key : string) : string :=
  let sanitizedKey := sanitize key in
  (sanitizedKey ++ ".json")%string.

(** [file.endsWith(suffix)]. *)
Definition endsWith (file suffix : string) : bool :=
  let n := String.length file in
  let k := String.length suffix in
  (k <=? n)%nat && String.eqb (substring (n - k) k file) suffix.

(** The cache directory: [None] while it does not exist, otherwise its
    files by name with their contents. *)
Definition Dir : Type := option (gmap string string).

Definition ensureCacheDir (dir : Dir) : gmap string string :=
  match dir with
  | Some files => files
  | None => ∅
  end.

Record CacheEntry (T : Type) : Type := mkEntry {
  data : T;
  expiresAt : Z
}.
Arguments mkEntry {T} _ _.
Arguments data {T} _.
Arguments expiresAt {T} _.

Section Store.

Variable T : Type.
(** [JSON.stringify(entry, null, 2)], and [JSON.parse] followed by the reads
    of [entry.expiresAt] and [entry.data]; [None] when that throws. *)
Variable JSON_stringify : CacheEntry T -> string.
Variable JSON_parse : string -> option (CacheEntry T).

(** [getCache(key)] at the time [now] of its [Date.now()]: the result
    ([None] for [null]) and the directory afterwards. *)
Definition getCache (key : string) (now : Z) (dir : Dir) : option T * Dir :=
  let files := ensureCacheDir dir in
  let filePath := getCacheFilePath key in
  match files !! filePath with
  | None => (None, Some files)
  | Some fileContent =>
      match JSON_parse fileContent with
      | Some entry =>
          if (now >? expiresAt entry)%Z
          then (None, Some (delete filePath files))
          else (Some (data entry), Some files)
      | None => (None, Some files)
      end
  end.

(** [setCache(key, data, ttlMs)] at the time [now] of its [Date.now()]. *)
Definition setCache (key : string) (data : T) (ttlMs : Z) (now : Z)
    (dir : Dir) : Dir :=
  let files := ensureCacheDir dir in
  let filePath := getCacheFilePath key in
  let entry := mkEntry data (now + ttlMs)%Z in
  Some (<[filePath := JSON_stringify entry]> files).

End Store.

Definition deleteCache (key : string) (dir : Dir) : Dir :=
  let filePath := getCacheFilePath key in
  match dir with
  | Some files =>
      match files !! filePath with
      | Some _ => Some (delete filePath files)
      | None => Some files
      end
  | None => None
  end.

Definition clearCache (dir : Dir) : Dir :=
  match dir with
  | None => None
  | Some files =>
      Some (base.filter
              (fun file : string * string => endsWith (fst file) ".json" = false)
              files)
  end.

End Cache.

(** ** Current week and season ([lib/week.ts]) *)

Module Week.

Section Calendar.

(** [getFullYear()] and [getMonth()] of the date with the given time value,
    and the time value of [new Date(year, monthIndex, day)], all in local
    time. *)
Variable getFullYear : Z -> Z.
Variable getMonth : Z -> Z.
Variable Date_local : Z -> Z -> Z -> Z.

(** [now] is the time value of the [new Date()] of the call. *)
Definition getCurrentSeason (now : Z) : Z :=
  let year := getFullYear now in
  let calculatedSeason := if (getMonth now <? 8)%Z then (year - 1)%Z else year in
  Z.min calculatedSeason 2024.

Definition calculateCurrentWeek (now : Z) : Z :=
  let seasonStart := Date_local (getFullYear now) 8 1 in
  if (now <? seasonStart)%Z then 1%Z
  else
    let daysSinceStart := ((now - seasonStart) / (1000 * 60 * 60 * 24))%Z in
    let week := (daysSinceStart / 7 + 1)%Z in
    Z.min (Z.max week 1) 18.

(** The two functions read the clock one after the other. *)
Definition getCurrentWeekData (nowWeek nowSeason : Z) : Z * Z :=
  (calculateCurrentWeek nowWeek, getCurrentSeason nowSeason).

End Calendar.

End Week.

(** ** Odds import page ([app/odds-import/page.tsx]) *)

Module OddsImport.

Definition Math_abs (x : Q) : Q := if Qle_bool 0 x then x else (- x)%Q.

Definition oddsToImpliedProb (odds : Q) : Q :=
  if JS.gt odds 0 then (100 / (odds + 100))%Q
  else (Math_abs odds / (Math_abs odds + 100))%Q.

Definition devig (overProb underProb : Q) : Q :=
  let totalProb := (overProb + underProb)%Q in
  if JS.gt totalProb 0 then (overProb / totalProb)%Q
  else overProb.

(** The result of [findClosestLine]; [diff] is [None] for [Infinity]. *)
Record LineMatch : Type := mkMatch {
  line : Q;
  diff : option Q
}.

Definition findClosestLine (target : Q) (candidates : list Q) : LineMatch :=
  match candidates with
  | [] => mkMatch target None
  | first :: _ =>
      let '(closest, minDiff) :=
        fold_left
          (fun '(closest, minDiff) candidate =>
             let diff := Math_abs (candidate - target) in
             if JS.lt diff minDiff then (candidate, diff)
             else (closest, minDiff))
          candidates (first, Math_abs (first - target)) in
      mkMatch closest (Some minDiff)
  end.

End OddsImport.

(** ** Round-robin combinations ([app/page.tsx]) *)

(** [generateCombos(arr, size, start, current)]: [arr] here is the part of
    the array from index [start] on, and the result is what the call
    appends to [combinations]. *)
Fixpoint generateCombos (arr : list Leg.t) (size : nat)
    (current : list Leg.t) {struct arr} : list (list Leg.t) :=
  if (List.length current =? size)%nat then [current]
  else
    (fix loop (rest : list Leg.t) : list (list Leg.t) :=
       match rest with
       | [] => []
       | leg :: rest' =>
           generateCombos rest' size (current ++ [leg]) ++ loop rest'
       end) arr.

Definition generateRoundRobin (legs : list Leg.t) (size : nat)
    : list (list Leg.t) :=
  generateCombos legs size [].

(** ** Concrete instances of the parameters, for evaluating the model *)

(** Milliseconds since the epoch of a calendar date written [YYYY-MM-DD],
    as [Date.parse] gives for it; this instance reads no other text. *)
Definition digitZ (c : ascii) : option Z :=
  let n := nat_of_ascii c in
  if ((48 <=? n) && (n <=? 57))%nat then Some (Z.of_nat (n - 48)) else None.

Fixpoint digitsZ (s : string) (acc : Z) : option Z :=
  match s with
  | EmptyString => Some acc
  | String c r =>
      match digitZ c with
      | Some d => digitsZ r (10 * acc + d)%Z
      | None => None
      end
  end.

Definition daysFromCivil (y m d : Z) : Z :=
  let y' := (if m <=? 2 then y - 1 else y)%Z in
  let era := (y' / 400)%Z in
  let yoe := (y' - era * 400)%Z in
  let doy := ((153 * (if 2 <? m then m - 3 else m + 9) + 2) / 5 + d - 1)%Z in
  let doe := (yoe * 365 + yoe / 4 - yoe / 100 + doy)%Z in
  (era * 146097 + doe - 719468)%Z.

Definition daysInMonth (y m : Z) : Z :=
  if (m =? 2)%Z then
    if ((y mod 4 =? 0) && negb (y mod 100 =? 0) || (y mod 400 =? 0))%Z
    then 29%Z else 28%Z
  else if ((m =? 4) || (m =? 6) || (m =? 9) || (m =? 11))%Z then 30%Z
  else 31%Z.

Definition isoDateTime (s : string) : option Z :=
  match digitsZ (substring 0 4 s) 0, digitsZ (substring 5 2 s) 0,
        digitsZ (substring 8 2 s) 0 with
  | Some y, Some m, Some d =>
      if ((String.length s =? 10)%nat
          && String.eqb (substring 4 1 s) "-"
          && String.eqb (substring 7 1 s) "-"
          && (1 <=? m)%Z && (m <=? 12)%Z
          && (1 <=? d)%Z && (d <=? daysInMonth y m)%Z)%bool
      then Some (daysFromCivil y m d * 86400000)%Z
      else None
  | _, _, _ => None
  end.

(** The square root truncated to three decimals. *)
Definition sqrtMillis (q : Q) : Q :=
  Z.sqrt (Qfloor (q * 1000000)) # 1000.

(** A text format for cache entries with string data: the expiry time in
    decimal, a colon, the data. *)
Fixpoint decimalDigits (fuel : nat) (n : Z) (acc : string) : string :=
  match fuel with
  | O => acc
  | S fuel' =>
      let acc' := String (ascii_of_nat (48 + Z.to_nat (n mod 10))) acc in
      if (n <? 10)%Z then acc' else decimalDigits fuel' (n / 10) acc'
  end.

Definition entryToText (entry : Cache.CacheEntry string) : string :=
  (decimalDigits 20 (Cache.expiresAt entry) "" ++ ":" ++ Cache.data entry)%string.

Definition entryOfText (text : string) : option (Cache.CacheEntry string) :=
  match index 0 ":" text with
  | Some i =>
      match digitsZ (substring 0 i text) 0 with
      | Some expiresAt =>
          Some (Cache.mkEntry
                  (substring (i + 1) (String.length text - (i + 1)) text)
                  expiresAt)
      | None => None
      end
  | None => None
  end.

(** ** Example data *)

(** A game of a receiver or of a kicker: team KC against BUF, thirty snaps,
    with the given receiving line. *)
Definition exampleGame (position date : string) (rec_yards receptions : Q)
    (targets : option Q) : GameLog.t :=
  GameLog.mk "p1" (Some "Pat Example") date (Some ("g-" ++ date)%string)
    (Some 10%Z) (Some 2024%Z) (Some "KC") (Some "BUF") (Some position)
    (Some 30%Q) (Some 0%Q) (Some 0%Q) (Some rec_yards) (Some receptions)
    (Some 0%Q) None targets.

(** Six games with receiving yards 80, 60, 55, 40, 30, 20. *)
Definition sixGames : list GameLog.t :=
  [ exampleGame "WR" "2024-11-10" 80 6 (Some 8%Q);
    exampleGame "WR" "2024-11-03" 60 5 (Some 7%Q);
    exampleGame "WR" "2024-10-27" 55 5 (Some 7%Q);
    exampleGame "WR" "2024-10-20" 40 4 (Some 6%Q);
    exampleGame "WR" "2024-10-13" 30 3 (Some 6%Q);
    exampleGame "WR" "2024-10-06" 20 2 (Some 5%Q) ].

(** Nine games of a receiver: five targets and five catches for fifty yards
    in eight of them, nothing at all in one. *)
Definition nineGames : list GameLog.t :=
  [ exampleGame "WR" "2024-11-10" 50 5 (Some 5%Q);
    exampleGame "WR" "2024-11-03" 50 5 (Some 5%Q);
    exampleGame "WR" "2024-10-27" 50 5 (Some 5%Q);
    exampleGame "WR" "2024-10-20" 0 0 (Some 0%Q);
    exampleGame "WR" "2024-10-13" 50 5 (Some 5%Q);
    exampleGame "WR" "2024-10-06" 50 5 (Some 5%Q);
    exampleGame "WR" "2024-09-29" 50 5 (Some 5%Q);
    exampleGame "WR" "2024-09-22" 50 5 (Some 5%Q);
    exampleGame "WR" "2024-09-15" 50 5 (Some 5%Q) ].


(** A candidate leg with the fields that the parlay engine reads. *)
Definition exampleLeg (playerId : string) (statType : StatType.t)
    (smoothedProb : Q) (gameId team position : string) : Leg.t :=
  Leg.mk playerId None statType 25 smoothedProb smoothedProb
    (getConfidenceLevel smoothedProb) 6 [] None None (Some gameId)
    (Some "2024-11-10") (Some team) None (Some position).

(** Two legs of one game, on opposite teams. *)
Definition legA : Leg.t :=
  exampleLeg "a" StatType.rec_yards (80 # 100) "KC@BUF" "KC" "WR".
Definition legB : Leg.t :=
  exampleLeg "b" StatType.rush_yards (75 # 100) "KC@BUF" "BUF" "RB".

(** Four candidate legs of four players; the first two share a game. *)
Definition fourLegs : list Leg.t :=
  [ exampleLeg "a" StatType.rec_yards (90 # 100) "KC@BUF" "KC" "WR";
    exampleLeg "b" StatType.rush_yards (85 # 100) "KC@BUF" "BUF" "RB";
    exampleLeg "c" StatType.pass_yards (88 # 100) "DAL@NYG" "DAL" "QB";
    exampleLeg "d" StatType.receptions (82 # 100) "SF@SEA" "SF" "TE" ].

Definition twoLegOptions : ParlayOptions.t :=
  ParlayOptions.mk None None None None None (Some 2%Z) None None None None.

(** Three games of one player, in array order: thirty snaps on
    2024-11-03, thirty snaps in a game whose date is the text [TBD], and no
    snap on 2024-11-10. *)
Definition snapsGame (date : string) (snaps : Q) : GameLog.t :=
  GameLog.mk "p1" (Some "Pat Example") date None (Some 10%Z) (Some 2024%Z)
    (Some "KC") (Some "BUF") (Some "WR") (Some snaps) None None None None
    None None None.

Definition undatedGames : list GameLog.t :=
  [ snapsGame "2024-11-03" 30; snapsGame "TBD" 30; snapsGame "2024-11-10" 0 ].

(** ** Reference definitions used to state the properties *)

(** The alternate keys that [maps] sends to the canonical [field], in
    mapping order. *)
Definition altKeys (maps : list (string * string)) (field : string)
    : list string :=
  List.map fst (List.filter (fun e => String.eqb (snd e) field) maps).

(** The first value among [keys] that is neither absent nor null, and zero
    when there is none. *)
Fixpoint firstDefined (obj : gmap string Raw.value) (keys : list string)
    : Raw.value :=
  match keys with
  | [] => Raw.number 0
  | k :: r =>
      if Raw.nullish (Raw.get obj k) then firstDefined obj r
      else Raw.get obj k
  end.

Definition orZero (v : Raw.value) : Raw.value :=
  if Raw.nullish v then Raw.number 0 else v.

(** The value of a canonical field after the alternates [alts] have been
    visited, starting from [cur]. *)
Fixpoint mapValue (obj : gmap string Raw.value) (cur : Raw.value)
    (alts : list string) : Raw.value :=
  match alts with
  | [] => cur
  | a :: r =>
      mapValue obj
        (if Raw.has obj a && Raw.nullish cur then Raw.get obj a else cur) r
  end.

(** The five tracked stat fields with their alternate names, as the
    specification names them; where a field has two alternates, in the
    order in which they are tried. *)
Definition namedAlternates : list (string * list string) :=
  [ ("pass_yards", ["passing_yards"]);
    ("rush_yards", ["rushing_yards"]);
    ("rec_yards", ["receiving_yards"]);
    ("receptions", ["rec"]);
    ("pass_tds", ["passing_tds"; "pass_td"]) ].

(** [cmp] keeps [x] before [y]. *)
Definition keepsBefore {A} (cmp : A -> A -> Q) (x y : A) : Prop :=
  (cmp x y <= 0)%Q.

(** A natural number as a JavaScript number. *)
Definition natQ (n : nat) : Q := inject_Z (Z.of_nat n).

(** [n]: the logs that carry a value for the statistic. *)
Definition sampleCount (logs : list GameLog.t) (statType : StatType.t) : nat :=
  List.length
    (List.filter
       (fun log => match GameLog.stat log statType with
                   | Some _ => true
                   | None => false
                   end) logs).

(** [k]: the logs whose value reaches the threshold. *)
Definition hitCount (logs : list GameLog.t) (statType : StatType.t)
    (threshold : Q) : nat :=
  List.length
    (List.filter
       (fun log => match GameLog.stat log statType with
                   | Some v => Qle_bool threshold v
                   | None => false
                   end) logs).

(** A threshold passes the two filters of [generateLegs] on the selected
    logs. *)
Definition qualifies (Math_sqrt : Q -> Q) (sortedLogs : list GameLog.t)
    (minProbability : Q) (minSampleSize : Z) (statType : StatType.t)
    (threshold : Q) : Prop :=
  let r := calculateProbability Math_sqrt sortedLogs statType threshold
             DEFAULT_BETA_A DEFAULT_BETA_B in
  (minSampleSize <= Z.of_nat (ProbResult.sampleSize r))%Z
  /\ (minProbability <= ProbResult.smoothedProb r)%Q.




(** The legs that one entry of [STAT_THRESHOLDS] contributes to the loop of
    [generateLegs]. *)
Definition legsOfStat (Math_sqrt : Q -> Q) (playerId : string)
    (playerName : option string) (sortedLogs : list GameLog.t)
    (minProbability : Q) (minSampleSize : Z)
    (entry : StatType.t * list Q) : list Leg.t :=
  if negb (hasSufficientStatData sortedLogs (fst entry) 4) then []
  else
    match firstQualifyingLeg Math_sqrt playerId playerName sortedLogs
            minProbability minSampleSize (fst entry) (snd entry) with
    | Some leg => [leg]
    | None => []
    end.

(** The distinct elements of [keys], in the order of their first
    occurrence. *)
Definition firstOccurrences (keys : list string) : list string :=
  fold_left
    (fun seen k => if existsb (String.eqb k) seen then seen else seen ++ [k])
    keys [].

(** The number of legs of a parlay whose game key is [key]. *)
Definition legsInGame (legs : list Leg.t) (key : string) : nat :=
  List.length (List.filter (fun leg => String.eqb (gameKey leg) key) legs).

(** The game keys of a parlay with their leg counts, by first occurrence,
    and those shared by more than one leg. *)
Definition gamesOf (legs : list Leg.t) : list (string * nat) :=
  List.map (fun key => (key, legsInGame legs key))
    (firstOccurrences (List.map gameKey legs)).

Definition sharedGames (legs : list Leg.t) : list (string * nat) :=
  List.filter (fun '(_, count) => (1 <? count)%nat) (gamesOf legs).

(** [0.90] raised to [count - 1]. *)
Definition sameGameFactor (count : nat) : Q :=
  JS.Math_pow (90 # 100) (count - 1).

Definition sameGameEntry (game : string * nat) : PenaltyBreakdown.t :=
  let amount := (1 - sameGameFactor (snd game))%Q in
  PenaltyBreakdown.mk "same_game" amount
    (PenaltyReason.same_game (snd game) (fst game) amount).

(** The product of the factors of a list of games, from [init]. *)
Definition factorProduct (games : list (string * nat)) (init : Q) : Q :=
  fold_left (fun m game => m * sameGameFactor (snd game))%Q games init.

(** What the same-team and the stack loops of [calculateParlayPenalties]
    contribute, from a fresh state. *)
Definition teamPenalties (legs : list Leg.t) : PenaltyState.t :=
  let '(teamCounts, teamLegs) := countTeams legs in
  stackPenalties teamLegs
    (sameTeamPenalties teamCounts (PenaltyState.mk 1 [])).

(** A team group that holds a quarterback's passing-yards leg and a
    receiver's receiving-yards leg. *)
Definition stacked (group : string * list Leg.t) : bool :=
  existsb isQBPassingYards (snd group)
  && existsb isWRTEReceivingYards (snd group).

(** The [for] loop of [generateCombinations] over the part [arr] of the
    array, with [current] on entry. *)
Fixpoint combinationsLoop (legCount : Z)
    (allowSameGame allowSameTeamStack : bool) (arr : list Leg.t) (size : Z)
    (current : list Leg.t) : list Parlay.t :=
  match arr with
  | [] => []
  | leg :: rest =>
      generateCombinations legCount allowSameGame allowSameTeamStack rest
        size (current ++ [leg])
      ++ combinationsLoop legCount allowSameGame allowSameTeamStack rest
           size current
  end.

(** The unweighted mean of the smoothed probabilities of a parlay's legs. *)
Definition avgLegProb (parlay : Parlay.t) : Q :=
  (fold_left (fun sum leg => sum + Leg.smoothedProb leg)
     (Parlay.legs parlay) 0
   / lengthQ (Parlay.legs parlay))%Q.

(** [p] may be listed before [q]: higher adjusted probability first, and
    among equal ones the higher mean leg probability first. *)
Definition ranksBefore (p q : Parlay.t) : Prop :=
  (Parlay.estimatedProbability q < Parlay.estimatedProbability p)%Q
  \/ (Parlay.estimatedProbability q == Parlay.estimatedProbability p
      /\ avgLegProb q <= avgLegProb p)%Q.

(** A parlay as [generateCombinations] builds it from its legs. *)
Definition builtFromLegs (p : Parlay.t) : Prop :=
  Parlay.estimatedProbability p
  = PenaltyResult.adjustedProbability (calculateParlayPenalties (Parlay.legs p))
  /\ Parlay.estProbability p = Some (Parlay.estimatedProbability p).

(** A parlay that passed [isValidParlay] and was scored from its legs. *)
Definition emitted (legCount : Z) (allowSameGame allowSameTeamStack : bool)
    (p : Parlay.t) : Prop :=
  isValidParlay (Parlay.legs p) legCount allowSameGame allowSameTeamStack
  = true
  /\ builtFromLegs p.

(** An element of the array that [generateParlays] sorts has a score. *)
Definition scored (x : Parlay.t * Q) : Prop :=
  exists e, Parlay.estProbability (fst x) = Some e.

(** Both games have a date, and the game of [a] is not earlier than the
    game of [b]. *)
Definition notLater (Date_getTime : string -> option Z) (a b : GameLog.t)
    : Prop :=
  exists timeA timeB,
    Date_getTime (GameLog.gameDate a) = Some timeA
    /\ Date_getTime (GameLog.gameDate b) = Some timeB
    /\ (timeB <= timeA)%Z.

(** The game date of a log parses. *)
Definition hasDate (Date_getTime : string -> option Z) (log : GameLog.t)
    : Prop :=
  exists time, Date_getTime (GameLog.gameDate log) = Some time.

(** The game dates of the logs of player [pid] all parse. *)
Definition datesParse (Date_getTime : string -> option Z)
    (logs : list GameLog.t) (pid : string) : Prop :=
  forall log, In log logs -> GameLog.playerId log = pid ->
    hasDate Date_getTime log.

(** [later] is dated after [earlier]: both dates parse. *)
Definition datedAfter (Date_getTime : string -> option Z)
    (later earlier : GameLog.t) : Prop :=
  exists timeL timeE,
    Date_getTime (GameLog.gameDate later) = Some timeL
    /\ Date_getTime (GameLog.gameDate earlier) = Some timeE
    /\ (timeE < timeL)%Z.

(** A defined, positive snap count. *)
Definition hasPositiveSnaps (log : GameLog.t) : Prop :=
  exists snaps, GameLog.snaps log = Some snaps /\ (0 < snaps)%Q.

(** The sublists of [l] with [k] elements (the size-[k] combinations of
    its positions), earlier positions first. *)
Fixpoint combinations {A} (k : nat) (l : list A) : list (list A) :=
  match k with
  | O => [[]]
  | S k' =>
      match l with
      | [] => []
      | x :: r => List.map (cons x) (combinations k' r) ++ combinations k r
      end
  end.

(** [a] may be listed before [b] by [generateLegs]: higher smoothed
    probability first, and among equal ones the lower consistency value
    first. *)
Definition legRanksBefore (a b : Leg.t) : Prop :=
  (Leg.smoothedProb b < Leg.smoothedProb a)%Q
  \/ (Leg.smoothedProb b == Leg.smoothedProb a
      /\ JS.or_zero (Leg.consistency a) <= JS.or_zero (Leg.consistency b))%Q.

(** The confidence bands in ascending order. *)
Definition confidenceRank (c : ConfidenceLevel) : nat :=
  match c with
  | Speculative => 0
  | Fair => 1
  | Strong => 2
  | Elite => 3
  end.

(** The teams of the legs that have one, in leg order. *)
Definition teamsOf (legs : list Leg.t) : list string :=
  flat_map (fun leg => match Leg.team leg with
                       | Some (String c s) => [String c s]
                       | _ => []
                       end) legs.

(** The legs of a parlay that are on [team]. *)
Definition legsOnTeam (legs : list Leg.t) (team : string) : list Leg.t :=
  List.filter (fun leg => match Leg.team leg with
                          | Some (String c s) => String.eqb (String c s) team
                          | _ => false
                          end) legs.

(** The teams of a parlay with their legs, by first occurrence; those with
    more than one leg, with their leg counts; and those that hold a stack. *)
Definition teamGroupsOf (legs : list Leg.t) : list (string * list Leg.t) :=
  List.map (fun team => (team, legsOnTeam legs team))
    (firstOccurrences (teamsOf legs)).

Definition teamCountsOf (legs : list Leg.t) : list (string * nat) :=
  List.map (fun team => (team, List.length (legsOnTeam legs team)))
    (firstOccurrences (teamsOf legs)).

Definition sharedTeams (legs : list Leg.t) : list (string * nat) :=
  List.filter (fun '(_, count) => (1 <? count)%nat) (teamCountsOf legs).

Definition stackedTeams (legs : list Leg.t) : list (string * list Leg.t) :=
  List.filter stacked (teamGroupsOf legs).

(** [0.95] raised to [count - 1], and the entries of the two later loops. *)
Definition sameTeamFactor (count : nat) : Q :=
  JS.Math_pow (95 # 100) (count - 1).

Definition sameTeamEntry (team : string * nat) : PenaltyBreakdown.t :=
  let amount := (1 - sameTeamFactor (snd team))%Q in
  PenaltyBreakdown.mk "same_team" amount
    (PenaltyReason.same_team (snd team) (fst team) amount).

Definition stackEntry (group : string * list Leg.t) : PenaltyBreakdown.t :=
  PenaltyBreakdown.mk "qb_wr_stack" (15 # 100)
    (PenaltyReason.qb_wr_stack (fst group)).

(** The product of the factors of all three loops. *)
Definition penaltyMultiplier (legs : list Leg.t) : Q :=
  (factorProduct (sharedGames legs) 1
   * fold_left (fun m team => m * sameTeamFactor (snd team))
       (sharedTeams legs) 1
   * JS.Math_pow (85 # 100) (List.length (stackedTeams legs)))%Q.

(** The [for] loop of [generateCombos] over the part [arr] of the array,
    with [current] on entry. *)
Fixpoint combosLoop (arr : list Leg.t) (size : nat) (current : list Leg.t)
    : list (list Leg.t) :=
  match arr with
  | [] => []
  | leg :: rest =>
      generateCombos rest size (current ++ [leg])
      ++ combosLoop rest size current
  end.

(** * Properties *)

(** ** Numbers, strings and arrays *)

Lemma JS_ge_iff a b : JS.ge a b = true <-> (b <= a)%Q.
Proof. unfold JS.ge. apply Qle_bool_iff. Qed.

Lemma JS_gt_iff a b : JS.gt a b = true <-> (b < a)%Q.
Proof.
  unfold JS.gt. rewrite negb_true_iff.
  destruct (Qle_bool a b) eqn:E.
  - apply Qle_bool_iff in E. split; [discriminate|]. intros H.
    exfalso. apply (Qlt_not_le _ _ H E).
  - split; [|reflexivity]. intros _. apply Qnot_le_lt. intros H.
    apply Qle_bool_iff in H. congruence.
Qed.

Lemma JS_lt_iff a b : JS.lt a b = true <-> (a < b)%Q.
Proof. apply (JS_gt_iff b a). Qed.

Lemma Math_max_nonneg a : (0 <= a)%Q -> JS.Math_max a 0 == a.
Proof.
  intros H. unfold JS.Math_max. destruct (Qle_bool a 0) eqn:E.
  - apply Qle_bool_iff in E. apply Qle_antisym; assumption.
  - reflexivity.
Qed.

Lemma slice0_nonneg {A} (e : Z) (l : list A) :
  (0 <= e)%Z -> JS.slice0 e l = firstn (Z.to_nat e) l.
Proof.
  intros H. unfold JS.slice0.
  destruct (Z.ltb_spec e 0); [lia|reflexivity].
Qed.

(** [JS.sort] permutes its argument. *)
Lemma insert_Permutation {A} (cmp : A -> A -> Q) x l :
  Permutation (JS.insert cmp x l) (x :: l).
Proof.
  induction l as [|y r IH]; simpl.
  - apply Permutation_refl.
  - destruct (Qle_bool (cmp x y) 0).
    + apply Permutation_refl.
    + eapply Permutation_trans; [apply perm_skip, IH|apply perm_swap].
Qed.

Lemma sort_Permutation {A} (cmp : A -> A -> Q) l :
  Permutation (JS.sort cmp l) l.
Proof.
  induction l as [|x r IH]; simpl.
  - apply Permutation_refl.
  - eapply Permutation_trans; [apply insert_Permutation|].
    apply perm_skip, IH.
Qed.

Lemma sort_In {A} (cmp : A -> A -> Q) l x : In x (JS.sort cmp l) <-> In x l.
Proof.
  split; apply Permutation_in;
    [apply sort_Permutation|apply Permutation_sym, sort_Permutation].
Qed.

(** For a comparator that is a total preorder on the elements of the array,
    [JS.sort] orders every pair: an earlier element never compares strictly
    after a later one. *)
Section SortOrdered.
Context {A : Type} (cmp : A -> A -> Q) (dom : A -> Prop).
Hypothesis cmp_total :
  forall x y, dom x -> dom y -> (cmp x y <= 0 \/ cmp y x <= 0)%Q.
Hypothesis cmp_trans :
  forall x y z, dom x -> dom y -> dom z ->
                (cmp x y <= 0 -> cmp y z <= 0 -> cmp x z <= 0)%Q.

Lemma insert_StronglySorted x l :
  dom x -> Forall dom l ->
  StronglySorted (keepsBefore cmp) l ->
  StronglySorted (keepsBefore cmp) (JS.insert cmp x l).
Proof.
  intros Hx Hl Hs. induction Hs as [|y r Hr IH Hy]; simpl.
  - constructor; constructor.
  - inversion Hl as [|? ? Hdy Hdr]; subst.
    destruct (Qle_bool (cmp x y) 0) eqn:E.
    + apply Qle_bool_iff in E. constructor.
      * constructor; assumption.
      * constructor; [exact E|].
        rewrite Forall_forall in Hy, Hdr |- *. intros z Hz.
        exact (cmp_trans x y z Hx Hdy (Hdr z Hz) E (Hy z Hz)).
    + constructor; [exact (IH Hdr)|].
      assert (Hyx : keepsBefore cmp y x).
      { unfold keepsBefore. destruct (cmp_total x y Hx Hdy) as [H|H];
          [|exact H].
        apply Qle_bool_iff in H. congruence. }
      eapply Permutation_Forall;
        [apply Permutation_sym, insert_Permutation|].
      constructor; assumption.
Qed.

Lemma sort_StronglySorted l :
  Forall dom l -> StronglySorted (keepsBefore cmp) (JS.sort cmp l).
Proof.
  induction l as [|x r IH]; simpl; intros Hl.
  - constructor.
  - inversion Hl; subst. apply insert_StronglySorted; auto.
    eapply Permutation_Forall;
      [apply Permutation_sym, sort_Permutation|assumption].
Qed.
End SortOrdered.

(** ** Stat normalizer *)

Lemma Raw_get_insert (m : gmap string Raw.value) k k' v :
  Raw.get (<[k := v]> m) k' = if String.eqb k k' then v else Raw.get m k'.
Proof.
  unfold Raw.get. destruct (String.eqb_spec k k') as [->|Hne].
  - by rewrite lookup_insert_eq.
  - by rewrite lookup_insert_ne.
Qed.

Lemma has_false_get (m : gmap string Raw.value) k :
  Raw.has m k = false -> Raw.get m k = Raw.undefined.
Proof. unfold Raw.get, Raw.has. by destruct (m !! k). Qed.

Lemma Raw_get_lookup (m m' : gmap string Raw.value) k :
  m !! k = m' !! k -> Raw.get m k = Raw.get m' k /\ Raw.has m k = Raw.has m' k.
Proof. unfold Raw.get, Raw.has. by intros ->. Qed.

(** One mapping step changes the canonical key only, and only when the
    alternate is present and the canonical value is absent or null. *)
Lemma applyMapping_get m alt std k :
  Raw.get (applyMapping m (alt, std)) k =
  if String.eqb std k && Raw.has m alt && Raw.nullish (Raw.get m std)
  then Raw.get m alt else Raw.get m k.
Proof.
  pose proof (has_false_get m std) as Hu.
  unfold applyMapping.
  destruct (Raw.has m alt), (Raw.has m std),
    (Raw.nullish (Raw.get m std)) eqn:Hn;
    simpl; rewrite ?Raw_get_insert, ?andb_false_r, ?andb_true_r; try done.
  rewrite Hu in Hn by done. done.
Qed.

Lemma fillDefault_get m f k :
  Raw.get (fillDefault m f) k =
  if String.eqb f k && Raw.nullish (Raw.get m f)
  then Raw.number 0 else Raw.get m k.
Proof.
  unfold fillDefault.
  destruct (Raw.nullish (Raw.get m f));
    rewrite ?Raw_get_insert, ?andb_false_r, ?andb_true_r; done.
Qed.

Lemma applyMapping_lookup_ne m alt std k :
  k <> std -> applyMapping m (alt, std) !! k = m !! k.
Proof.
  intros Hne. unfold applyMapping.
  repeat case_match; try done; by rewrite lookup_insert_ne.
Qed.

Lemma fillDefault_lookup_ne m f k :
  k <> f -> fillDefault m f !! k = m !! k.
Proof.
  intros Hne. unfold fillDefault.
  case_match; try done; by rewrite lookup_insert_ne.
Qed.

(** The mapping loop, for any table whose alternate keys are not canonical
    keys: alternates are read from the original record. *)
Lemma mapping_phase maps : forall (m0 m : gmap string Raw.value) f,
  (forall a s, In a (List.map fst maps) -> In s (List.map snd maps) -> a <> s) ->
  (forall a, In a (List.map fst maps) -> m !! a = m0 !! a) ->
  Raw.get (fold_left applyMapping maps m) f
  = mapValue m0 (Raw.get m f) (altKeys maps f).
Proof.
  induction maps as [|[alt std] maps IH]; intros m0 m f Hdisj Hsame;
    cbn [fold_left]; [done|].
  rewrite (IH m0).
  - rewrite applyMapping_get.
    destruct (Raw_get_lookup m m0 alt) as [Hg Hh]; [apply Hsame; simpl; auto|].
    unfold altKeys; simpl.
    destruct (String.eqb_spec std f) as [->|Hne]; simpl.
    + by rewrite Hg, Hh.
    + done.
  - intros a s Ha Hs. apply Hdisj; simpl; auto.
  - intros a Ha. rewrite applyMapping_lookup_ne.
    + apply Hsame. simpl; auto.
    + apply Hdisj; simpl; auto.
Qed.

Lemma orZero_mapValue m alts : forall cur,
  orZero (mapValue m cur alts)
  = if Raw.nullish cur then firstDefined m alts else cur.
Proof.
  induction alts as [|a alts IH]; intros cur; simpl.
  - unfold orZero. by destruct (Raw.nullish cur).
  - rewrite IH.
    destruct (Raw.nullish cur) eqn:Hc; rewrite ?andb_false_r, ?andb_true_r.
    + destruct (Raw.has m a) eqn:Ha.
      * done.
      * rewrite Hc. by rewrite (has_false_get _ _ Ha).
    + by rewrite Hc.
Qed.

Lemma orZero_idem v : orZero (orZero v) = orZero v.
Proof. by destruct v. Qed.

Lemma fill_phase fields : forall (m : gmap string Raw.value) f,
  Raw.get (fold_left fillDefault fields m) f
  = if existsb (String.eqb f) fields then orZero (Raw.get m f)
    else Raw.get m f.
Proof.
  induction fields as [|g fields IH]; intros m f; simpl; [done|].
  rewrite IH, fillDefault_get. rewrite (String.eqb_sym f g).
  destruct (String.eqb_spec g f) as [->|Hne]; simpl.
  - fold (orZero (Raw.get m f)). rewrite orZero_idem.
    by destruct (existsb _ _).
  - done.
Qed.

Lemma mapping_phase_other maps : forall (m : gmap string Raw.value) k,
  ~ In k (List.map snd maps) -> fold_left applyMapping maps m !! k = m !! k.
Proof.
  induction maps as [|[alt std] maps IH]; intros m k Hk; simpl; [done|].
  rewrite IH by (simpl in Hk; tauto).
  apply applyMapping_lookup_ne. simpl in Hk. intros ->. tauto.
Qed.

Lemma fill_phase_other fields : forall (m : gmap string Raw.value) k,
  ~ In k fields -> fold_left fillDefault fields m !! k = m !! k.
Proof.
  induction fields as [|g fields IH]; intros m k Hk; simpl; [done|].
  rewrite IH by (simpl in Hk; tauto).
  apply fillDefault_lookup_ne. simpl in Hk. intros ->. tauto.
Qed.

Lemma statMappings_disjoint a s :
  In a (List.map fst statMappings) -> In s (List.map snd statMappings) ->
  a <> s.
Proof.
  simpl. intros Ha Hs.
  repeat (destruct Ha as [<-|Ha];
          [repeat (destruct Hs as [<-|Hs]; [discriminate|]); destruct Hs|]).
  destruct Ha.
Qed.

Lemma firstDefined_defined m keys : Raw.nullish (firstDefined m keys) = false.
Proof.
  induction keys as [|k r IH]; simpl; [done|].
  by destruct (Raw.nullish (Raw.get m k)) eqn:E.
Qed.

Example altKeys_pass_tds :
  altKeys statMappings "pass_tds" = ["passing_tds"; "pass_td"].
Proof. reflexivity. Qed.

Example altKeys_receptions : altKeys statMappings "receptions" = ["rec"].
Proof. reflexivity. Qed.

(** C9.  For every raw record and each of the five tracked stat fields
    [pass_yards], [rush_yards], [rec_yards], [receptions] and [pass_tds]:
    a field that is present (not absent, not null) keeps its value; a field
    that is absent or null receives the value of its alternate
    ([passing_yards], [rushing_yards], [receiving_yards], [rec], and for
    [pass_tds] first [passing_tds], then [pass_td]), namely of the first
    alternate that is present and not null, and zero when there is none;
    so all five fields are defined in the result.  Every other key,
    the alternates included, is left as it was. *)
Theorem normalizeGameLog_fields (gameLog : gmap string Raw.value) :
  let normalized := normalizeGameLog gameLog in
  (forall field alternates, In (field, alternates) namedAlternates ->
     Raw.nullish (Raw.get gameLog field) = false ->
     normalized !! field = gameLog !! field)
  /\ (forall field alternates, In (field, alternates) namedAlternates ->
     Raw.nullish (Raw.get gameLog field) = true ->
     Raw.get normalized field = firstDefined gameLog alternates)
  /\ (forall field alternates, In (field, alternates) namedAlternates ->
     Raw.nullish (Raw.get normalized field) = false)
  /\ (forall key, ~ In key (List.map fst namedAlternates) ->
     normalized !! key = gameLog !! key).
Proof.
  intros normalized.
  assert (Htable : forall field alternates,
             In (field, alternates) namedAlternates ->
             In field expectedStatFields
             /\ altKeys statMappings field = alternates).
  { intros field alternates H. simpl in H.
    repeat (destruct H as [[= <- <-]|H];
            [split; [simpl; tauto|reflexivity]|]).
    destruct H. }
  assert (Hget : forall field alternates,
     In (field, alternates) namedAlternates ->
     Raw.get normalized field =
       if Raw.nullish (Raw.get gameLog field)
       then firstDefined gameLog alternates
       else Raw.get gameLog field).
  { intros field alternates Hf. apply Htable in Hf.
    destruct Hf as [Hf <-]. subst normalized. unfold normalizeGameLog.
    rewrite fill_phase.
    replace (existsb (String.eqb field) expectedStatFields) with true.
    2:{ symmetry. apply existsb_exists. exists field.
        split; [done|apply String.eqb_refl]. }
    rewrite (mapping_phase statMappings gameLog gameLog);
      auto using statMappings_disjoint.
    apply orZero_mapValue. }
  repeat split.
  - intros field alternates Hf Hd. specialize (Hget field alternates Hf).
    rewrite Hd in Hget. unfold Raw.get in Hget, Hd.
    destruct (gameLog !! field) as [v|] eqn:E; [|discriminate Hd].
    destruct (normalized !! field) as [w|]; [congruence|].
    subst v. discriminate Hd.
  - intros field alternates Hf Hn. rewrite (Hget field alternates Hf), Hn.
    reflexivity.
  - intros field alternates Hf. rewrite (Hget field alternates Hf).
    destruct (Raw.nullish (Raw.get gameLog field)) eqn:E;
      [apply firstDefined_defined|done].
  - intros key Hk. unfold normalized, normalizeGameLog.
    rewrite fill_phase_other by (intros Hin; apply Hk; simpl in *; tauto).
    apply mapping_phase_other.
    intros Hin. apply Hk. simpl in *. tauto.
Qed.

(** ** Probability engine *)

Lemma definedValues_length (logs : list GameLog.t) st :
  List.length (definedValues (fun _ => true)
                 (List.map (fun log => GameLog.stat log st) logs))
  = sampleCount logs st.
Proof.
  unfold sampleCount.
  induction logs as [|log r IH]; simpl; [reflexivity|].
  destruct (GameLog.stat log st); simpl; congruence.
Qed.

Lemma definedValues_hits (logs : list GameLog.t) st thr :
  List.length
    (List.filter (fun val => JS.ge val thr)
       (definedValues (fun _ => true)
          (List.map (fun log => GameLog.stat log st) logs)))
  = hitCount logs st thr.
Proof.
  unfold hitCount, JS.ge.
  induction logs as [|log r IH]; simpl; [reflexivity|].
  destruct (GameLog.stat log st) as [v|]; simpl; [|exact IH].
  destruct (Qle_bool thr v); simpl; congruence.
Qed.

Lemma definedValues_isNaN (l : list (option Q)) :
  definedValues (fun val => negb (isNaN val)) l = definedValues (fun _ => true) l.
Proof. reflexivity. Qed.

Lemma hasSufficientStatData_count logs st minCount :
  hasSufficientStatData logs st minCount = true ->
  (minCount <= Z.of_nat (sampleCount logs st))%Z /\ logs <> [].
Proof.
  unfold hasSufficientStatData. destruct logs as [|log r]; [discriminate|].
  rewrite definedValues_isNaN, definedValues_length.
  intros H. apply Z.leb_le in H. split; [exact H|discriminate].
Qed.

Lemma hitCount_le logs st thr : (hitCount logs st thr <= sampleCount logs st)%nat.
Proof.
  unfold hitCount, sampleCount.
  induction logs as [|log r IH]; simpl; [lia|].
  destruct (GameLog.stat log st) as [v|]; simpl; [|exact IH].
  destruct (Qle_bool thr v); simpl; lia.
Qed.

Section ProbabilityFormula.
Variable Date_getTime : string -> option Z.
Variable Math_sqrt : Q -> Q.

(** With at least one sample, [calculateProbability] takes its main
    branch. *)
Lemma calculateProbability_sampled logs st thr a b :
  (0 < sampleCount logs st)%nat ->
  let r := calculateProbability Math_sqrt logs st thr a b in
  ProbResult.sampleSize r = sampleCount logs st
  /\ ProbResult.rawProb r
     = (natQ (hitCount logs st thr) / natQ (sampleCount logs st))%Q
  /\ ProbResult.smoothedProb r
     = ((natQ (hitCount logs st thr) + a)
        / (natQ (sampleCount logs st) + a + b))%Q
  /\ List.length (ProbResult.lastNGameValues r) = sampleCount logs st.
Proof.
  intros Hn r. subst r. unfold calculateProbability.
  destruct logs as [|log rest]; [unfold sampleCount in Hn; simpl in Hn; lia|].
  pose proof (definedValues_length (log :: rest) st) as Hlen.
  pose proof (definedValues_hits (log :: rest) st thr) as Hhit.
  destruct (definedValues _ _) as [|v vs] eqn:E.
  - simpl in Hlen. lia.
  - cbn [ProbResult.sampleSize ProbResult.rawProb ProbResult.smoothedProb
         ProbResult.lastNGameValues].
    rewrite Hlen, Hhit. unfold natQ. repeat split; reflexivity.
Qed.

Lemma calculateProbability_empty logs st thr a b :
  sampleCount logs st = O ->
  let r := calculateProbability Math_sqrt logs st thr a b in
  ProbResult.sampleSize r = O /\ ProbResult.rawProb r = 0%Q
  /\ ProbResult.smoothedProb r = 0%Q.
Proof.
  intros Hn r. subst r. unfold calculateProbability.
  destruct logs as [|log rest]; [repeat split|].
  pose proof (definedValues_length (log :: rest) st) as Hlen.
  destruct (definedValues _ _) as [|v vs] eqn:E; [repeat split|].
  simpl in Hlen. lia.
Qed.

(** C1.  Whenever [generateLegs] evaluates a statistic (its guard
    [hasSufficientStatData] holds, so at least four logs carry a value),
    [calculateProbability] reports the sample size [n], the raw
    probability [k/n] and the smoothed probability [(k+4)/(n+6)], for
    every threshold, where [n] counts the logs that carry a value for the
    statistic and [k] those whose value reaches the threshold. *)
Theorem calculateProbability_formula logs st thr :
  hasSufficientStatData logs st 4 = true ->
  let r := calculateProbability Math_sqrt logs st thr
             DEFAULT_BETA_A DEFAULT_BETA_B in
  let n := sampleCount logs st in
  let k := hitCount logs st thr in
  (4 <= n)%nat
  /\ ProbResult.sampleSize r = n
  /\ ProbResult.rawProb r == natQ k / natQ n
  /\ ProbResult.smoothedProb r == (natQ k + 4) / (natQ n + 6).
Proof.
  intros Hs r n k.
  apply hasSufficientStatData_count in Hs. destruct Hs as [Hs _].
  assert (Hn : (4 <= n)%nat) by (subst n; lia).
  destruct (calculateProbability_sampled logs st thr DEFAULT_BETA_A
              DEFAULT_BETA_B) as (H1 & H2 & H3 & _); [fold n; lia|].
  fold r n k in H1, H2, H3.
  repeat split; try assumption.
  - rewrite H2. reflexivity.
  - rewrite H3. unfold DEFAULT_BETA_A, DEFAULT_BETA_B.
    assert (natQ n + 4 + 2 == natQ n + 6) as -> by ring. reflexivity.
Qed.
End ProbabilityFormula.

Lemma fold_left_app_flat_map {A B} (g : A -> list B) l : forall acc,
  fold_left (fun acc e => acc ++ g e) l acc = acc ++ flat_map g l.
Proof.
  induction l as [|e r IH]; intros acc; simpl.
  - symmetry. apply app_nil_r.
  - rewrite IH. symmetry. apply app_assoc.
Qed.

Lemma fold_left_ext {A B} (f g : B -> A -> B) l :
  (forall acc e, f acc e = g acc e) ->
  forall acc, fold_left f l acc = fold_left g l acc.
Proof.
  intros H. induction l as [|e r IH]; intros acc; simpl; [reflexivity|].
  rewrite H. apply IH.
Qed.

Lemma flat_map_NoDup {A B K} (keyA : A -> K) (keyB : B -> K)
    (g : A -> list B) l :
  NoDup (List.map keyA l) ->
  (forall a, (List.length (g a) <= 1)%nat) ->
  (forall a b, In b (g a) -> keyB b = keyA a) ->
  NoDup (List.map keyB (flat_map g l)).
Proof.
  intros Hnd Hlen Hkey.
  induction l as [|a r IH]; simpl; [constructor|].
  inversion Hnd as [|? ? Hnotin Hnd']; subst.
  specialize (IH Hnd').
  rewrite map_app.
  specialize (Hlen a). pose proof (Hkey a) as Hka.
  destruct (g a) as [|b [|b' bs]]; simpl in *; [exact IH| |lia].
  constructor; [|exact IH].
  rewrite (Hka b) by auto. intros Hin.
  apply in_map_iff in Hin. destruct Hin as (b2 & Hk2 & Hin2).
  apply in_flat_map in Hin2. destruct Hin2 as (a2 & Ha2 & Hb2).
  apply Hnotin. rewrite <- Hk2, (Hkey a2 b2 Hb2).
  apply in_map. exact Ha2.
Qed.

Lemma NoDup_map_finer {A K1 K2} (f : A -> K1) (g : A -> K2) l :
  (forall x y, g x = g y -> f x = f y) ->
  NoDup (List.map f l) -> NoDup (List.map g l).
Proof.
  intros Hfg. induction l as [|x r IH]; simpl; intros Hnd; [constructor|].
  inversion Hnd as [|? ? Hnotin Hnd']; subst.
  constructor; [|apply IH, Hnd'].
  intros Hin. apply Hnotin.
  apply in_map_iff in Hin. destruct Hin as (y & Hy & Hin).
  apply in_map_iff. exists y. split; [apply Hfg, Hy|exact Hin].
Qed.

Lemma STAT_THRESHOLDS_ascending st : StronglySorted Qlt (STAT_THRESHOLDS st).
Proof.
  destruct st; simpl;
    repeat (constructor; [|repeat constructor; reflexivity]); constructor.
Qed.

Section LegLoop.
Variable Date_getTime : string -> option Z.
Variable Math_sqrt : Q -> Q.

Lemma generateLegs_unfold pid name logs lastN minP minS minT :
  generateLegs Date_getTime Math_sqrt pid name logs lastN minP minS minT
  = let sortedLogs := recentLogs Date_getTime logs lastN in
    if JS.lt (calculateAverageTouchesPerGame sortedLogs) minT then []
    else JS.sort legOrder
           (flat_map (legsOfStat Math_sqrt pid name sortedLogs minP minS)
              STAT_THRESHOLDS_entries).
Proof.
  unfold generateLegs. cbv zeta.
  destruct (JS.lt _ _); [reflexivity|]. f_equal.
  rewrite <- (app_nil_l (flat_map _ _)).
  rewrite <- fold_left_app_flat_map.
  apply fold_left_ext. intros legs [st ths]. unfold legsOfStat. simpl.
  destruct (hasSufficientStatData _ _ _); simpl; [|symmetry; apply app_nil_r].
  destruct (firstQualifyingLeg _ _ _ _ _ _ _ _); [reflexivity|symmetry; apply app_nil_r].
Qed.

Lemma firstQualifyingLeg_Some pid name sorted minP minS st ths leg :
  (0 < sampleCount sorted st)%nat ->
  firstQualifyingLeg Math_sqrt pid name sorted minP minS st ths = Some leg ->
  exists pre t post,
    ths = pre ++ t :: post
    /\ (forall t', In t' pre -> ~ qualifies Math_sqrt sorted minP minS st t')
    /\ qualifies Math_sqrt sorted minP minS st t
    /\ let r := calculateProbability Math_sqrt sorted st t
                  DEFAULT_BETA_A DEFAULT_BETA_B in
       Leg.playerId leg = pid /\ Leg.statType leg = st
       /\ Leg.threshold leg = t
       /\ Leg.smoothedProb leg = ProbResult.smoothedProb r
       /\ Leg.rawProb leg = ProbResult.rawProb r
       /\ Leg.sampleSize leg = ProbResult.sampleSize r.
Proof.
  intros Hn. induction ths as [|t rest IH]; simpl; [discriminate|].
  destruct (calculateProbability_sampled Math_sqrt sorted st t DEFAULT_BETA_A
              DEFAULT_BETA_B Hn) as (Hsz & _ & _ & Hlen).
  set (r := calculateProbability Math_sqrt sorted st t DEFAULT_BETA_A
              DEFAULT_BETA_B) in *.
  destruct ((minS <=? Z.of_nat (ProbResult.sampleSize r))%Z) eqn:E1; simpl.
  2:{ intros H. destruct (IH H) as (pre & t0 & post & -> & Hpre & Hrest).
      exists (t :: pre), t0, post. split; [reflexivity|]. split; [|exact Hrest].
      intros t' [<-|Hin]; [|apply Hpre, Hin].
      intros [Hq _]. fold r in Hq. apply Z.leb_le in Hq. congruence. }
  destruct (JS.ge (ProbResult.smoothedProb r) minP) eqn:E2; simpl.
  2:{ intros H. destruct (IH H) as (pre & t0 & post & -> & Hpre & Hrest).
      exists (t :: pre), t0, post. split; [reflexivity|]. split; [|exact Hrest].
      intros t' [<-|Hin]; [|apply Hpre, Hin].
      intros [_ Hq]. fold r in Hq. apply JS_ge_iff in Hq. congruence. }
  destruct ((0 <? List.length (ProbResult.lastNGameValues r))%nat) eqn:E3.
  2:{ apply Nat.ltb_ge in E3. lia. }
  destruct sorted as [|mostRecentLog others];
    [unfold sampleCount in Hn; simpl in Hn; lia|].
  destruct (ProbResult.lastNGameValues r) as [|v vs] eqn:Ev;
    [simpl in Hlen; lia|].
  intros H. injection H as <-.
  exists [], t, rest. split; [reflexivity|]. split; [intros ? []|].
  split.
  - split; fold r; [apply Z.leb_le, E1|apply JS_ge_iff, E2].
  - simpl. repeat split; reflexivity.
Qed.
(** The loop does produce a leg when some threshold passes the filters. *)
Lemma firstQualifyingLeg_complete pid name sorted minP minS st ths t :
  (0 < sampleCount sorted st)%nat ->
  In t ths -> qualifies Math_sqrt sorted minP minS st t ->
  exists leg,
    firstQualifyingLeg Math_sqrt pid name sorted minP minS st ths = Some leg.
Proof.
  intros Hn. induction ths as [|t0 rest IH]; simpl; [intros []|].
  destruct (calculateProbability_sampled Math_sqrt sorted st t0 DEFAULT_BETA_A
              DEFAULT_BETA_B Hn) as (Hsz & _ & _ & Hlen).
  set (r := calculateProbability Math_sqrt sorted st t0 DEFAULT_BETA_A
              DEFAULT_BETA_B) in *.
  intros Hin Hq.
  destruct ((minS <=? Z.of_nat (ProbResult.sampleSize r))%Z
            && JS.ge (ProbResult.smoothedProb r) minP
            && (0 <? List.length (ProbResult.lastNGameValues r))%nat) eqn:E.
  - destruct sorted as [|mostRecentLog others];
      [unfold sampleCount in Hn; simpl in Hn; lia|].
    destruct (ProbResult.lastNGameValues r) as [|v vs] eqn:Ev;
      [simpl in Hlen; lia|].
    eexists. reflexivity.
  - destruct Hin as [<-|Hin]; [|exact (IH Hin Hq)].
    exfalso. destruct Hq as [Hq1 Hq2]. fold r in Hq1, Hq2.
    apply Z.leb_le in Hq1. apply JS_ge_iff in Hq2.
    assert ((0 <? List.length (ProbResult.lastNGameValues r))%nat = true)
      as Hq3 by (apply Nat.ltb_lt; lia).
    rewrite Hq1, Hq2, Hq3 in E. discriminate.
Qed.
End LegLoop.

Lemma StronglySorted_middle {A} (R : A -> A -> Prop) pre x post :
  StronglySorted R (pre ++ x :: post) -> Forall (R x) post.
Proof.
  induction pre as [|y pre IH]; simpl; intros H.
  - inversion H; assumption.
  - inversion H; subst. apply IH. assumption.
Qed.

Section LowestThreshold.
Variable Date_getTime : string -> option Z.
Variable Math_sqrt : Q -> Q.

Lemma generateLegs_In pid name logs lastN minP minS minT leg :
  In leg (generateLegs Date_getTime Math_sqrt pid name logs lastN minP minS
            minT) ->
  let sortedLogs := recentLogs Date_getTime logs lastN in
  exists st,
    hasSufficientStatData sortedLogs st 4 = true
    /\ firstQualifyingLeg Math_sqrt pid name sortedLogs minP minS st
         (STAT_THRESHOLDS st) = Some leg.
Proof.
  rewrite generateLegs_unfold. cbv zeta.
  destruct (JS.lt _ _); [intros []|].
  rewrite sort_In, in_flat_map. intros ([st ths] & He & Hl).
  assert (ths = STAT_THRESHOLDS st) as ->.
  { unfold STAT_THRESHOLDS_entries in He. apply in_map_iff in He.
    destruct He as (s' & Heq & _). congruence. }
  exists st. unfold legsOfStat in Hl. simpl in Hl.
  destruct (hasSufficientStatData _ _ _); simpl in Hl; [|destruct Hl].
  split; [reflexivity|].
  destruct (firstQualifyingLeg _ _ _ _ _ _ _ _); simpl in Hl; [|destruct Hl].
  destruct Hl as [->|[]]. reflexivity.
Qed.

(** C3.  [generateLegs] never returns two legs with the same player and
    statistic; every returned leg is for the given player, its threshold
    is one of the thresholds of its statistic, that threshold passes the
    sample-size and probability filters on the selected logs, and no lower
    threshold of the statistic passes them; the thresholds of every
    statistic are listed in ascending order; and a statistic with enough
    data and a passing threshold does get its leg, unless the touches filter
    empties the result. *)
Theorem generateLegs_lowest_threshold pid name logs lastN minP minS minT :
  let sortedLogs := recentLogs Date_getTime logs lastN in
  let legs := generateLegs Date_getTime Math_sqrt pid name logs lastN minP
                minS minT in
  NoDup (List.map (fun leg => (Leg.playerId leg, Leg.statType leg)) legs)
  /\ (forall leg, In leg legs ->
        Leg.playerId leg = pid
        /\ In (Leg.threshold leg) (STAT_THRESHOLDS (Leg.statType leg))
        /\ qualifies Math_sqrt sortedLogs minP minS (Leg.statType leg)
             (Leg.threshold leg)
        /\ forall t, In t (STAT_THRESHOLDS (Leg.statType leg)) ->
                     (t < Leg.threshold leg)%Q ->
                     ~ qualifies Math_sqrt sortedLogs minP minS
                         (Leg.statType leg) t)
  /\ (forall st, StronglySorted Qlt (STAT_THRESHOLDS st))
  /\ (forall st t,
        JS.lt (calculateAverageTouchesPerGame sortedLogs) minT = false ->
        hasSufficientStatData sortedLogs st 4 = true ->
        In t (STAT_THRESHOLDS st) ->
        qualifies Math_sqrt sortedLogs minP minS st t ->
        exists leg, In leg legs /\ Leg.statType leg = st).
Proof.
  intros sortedLogs legs. split; [|split; [|split]].
  - apply (NoDup_map_finer Leg.statType); [intros x y H; congruence|].
    subst legs. rewrite generateLegs_unfold. cbv zeta.
    destruct (JS.lt _ _); [constructor|].
    eapply Permutation_NoDup;
      [apply Permutation_map, Permutation_sym, sort_Permutation|].
    apply (flat_map_NoDup fst).
    + simpl. repeat constructor; simpl; intuition discriminate.
    + intros e. unfold legsOfStat.
      destruct (negb _); simpl; [lia|].
      destruct (firstQualifyingLeg _ _ _ _ _ _ _ _); simpl; lia.
    + intros e b. unfold legsOfStat.
      destruct (hasSufficientStatData _ _ _) eqn:Hs; simpl; [|intros []].
      destruct (firstQualifyingLeg _ _ _ _ _ _ _ _) eqn:Hq; simpl;
        [|intros []].
      intros [<-|[]].
      apply hasSufficientStatData_count in Hs. destruct Hs as [Hs _].
      apply firstQualifyingLeg_Some in Hq; [|lia].
      destruct Hq as (_ & _ & _ & _ & _ & _ & _ & H & _). exact H.
  - intros leg Hin. apply generateLegs_In in Hin.
    destruct Hin as (st & Hs & Hq). fold sortedLogs in Hs, Hq.
    apply hasSufficientStatData_count in Hs. destruct Hs as [Hs _].
    apply firstQualifyingLeg_Some in Hq; [|lia].
    destruct Hq as (pre & t & post & Hths & Hpre & Hqual & Hleg).
    cbv zeta in Hleg. destruct Hleg as (Hp & Hst & Ht & _).
    rewrite Hst, Ht. split; [exact Hp|].
    split; [rewrite Hths; apply in_or_app; right; left; reflexivity|].
    split; [exact Hqual|].
    intros t' Hin Hlt. rewrite Hths in Hin.
    apply in_app_or in Hin. destruct Hin as [Hin|[<-|Hin]].
    + apply Hpre, Hin.
    + exfalso. exact (Qlt_irrefl _ Hlt).
    + exfalso. pose proof (STAT_THRESHOLDS_ascending st) as Hsorted.
      rewrite Hths in Hsorted. apply StronglySorted_middle in Hsorted.
      rewrite Forall_forall in Hsorted. specialize (Hsorted t' Hin).
      exact (Qlt_irrefl _ (Qlt_trans _ _ _ Hsorted Hlt)).
  - apply STAT_THRESHOLDS_ascending.
  - intros st t Htouch Hs Hin Hq. pose proof Hs as Hs'.
    apply hasSufficientStatData_count in Hs'. destruct Hs' as [Hn _].
    destruct (firstQualifyingLeg_complete Math_sqrt pid name sortedLogs minP
                minS st (STAT_THRESHOLDS st) t) as [leg Hleg];
      [lia|exact Hin|exact Hq|].
    exists leg. split.
    + subst legs. rewrite generateLegs_unfold. cbv zeta.
      fold sortedLogs. rewrite Htouch. apply sort_In, in_flat_map.
      exists (st, STAT_THRESHOLDS st). split.
      * unfold STAT_THRESHOLDS_entries. apply in_map_iff. exists st.
        split; [reflexivity|]. destruct st; simpl; tauto.
      * unfold legsOfStat. simpl. rewrite Hs, Hleg. left. reflexivity.
    + apply firstQualifyingLeg_Some in Hleg; [|lia].
      destruct Hleg as (_ & _ & _ & _ & _ & _ & _ & H & _). exact H.
Qed.

(** Every leg that [generateLegs] reports carries [k/n] and
    [(k+4)/(n+6)] of the selected logs. *)
Lemma generateLegs_probabilities pid name logs lastN minP minS minT leg :
  In leg (generateLegs Date_getTime Math_sqrt pid name logs lastN minP minS
            minT) ->
  let sortedLogs := recentLogs Date_getTime logs lastN in
  let n := sampleCount sortedLogs (Leg.statType leg) in
  let k := hitCount sortedLogs (Leg.statType leg) (Leg.threshold leg) in
  (4 <= n)%nat /\ Leg.sampleSize leg = n
  /\ Leg.rawProb leg == natQ k / natQ n
  /\ Leg.smoothedProb leg == (natQ k + 4) / (natQ n + 6).
Proof.
  intros Hin sortedLogs. apply generateLegs_In in Hin.
  destruct Hin as (st & Hs & Hq). fold sortedLogs in Hs, Hq.
  pose proof Hs as Hs'.
  apply hasSufficientStatData_count in Hs. destruct Hs as [Hs _].
  apply firstQualifyingLeg_Some in Hq; [|lia].
  destruct Hq as (pre & t & post & _ & _ & _ & Hleg).
  cbv zeta in Hleg. destruct Hleg as (_ & Hst & Ht & Hsm & Hraw & Hsz).
  rewrite Hst, Ht, Hsm, Hraw, Hsz.
  destruct (calculateProbability_sampled Math_sqrt sortedLogs st t
              DEFAULT_BETA_A DEFAULT_BETA_B) as (H1 & H2 & H3 & _); [lia|].
  rewrite H1, H2, H3. unfold DEFAULT_BETA_A, DEFAULT_BETA_B.
  split; [lia|]. split; [reflexivity|]. split; [reflexivity|].
  assert (natQ (sampleCount sortedLogs st) + 4 + 2
          == natQ (sampleCount sortedLogs st) + 6) as -> by ring.
  reflexivity.
Qed.
End LowestThreshold.





Section TouchesFilter.
Variable Date_getTime : string -> option Z.
Variable Math_sqrt : Q -> Q.

End TouchesFilter.

(** ** Correlation penalties *)

Lemma Math_pow_succ b n : ~ b == 0 -> JS.Math_pow b (S n) == b * JS.Math_pow b n.
Proof.
  intros Hb. unfold JS.Math_pow.
  replace (Z.of_nat (S n)) with (1 + Z.of_nat n)%Z by lia.
  rewrite Qpower_plus by exact Hb. reflexivity.
Qed.

Lemma Math_pow_unit b n : 0 < b -> b <= 1 -> 0 < JS.Math_pow b n /\ JS.Math_pow b n <= 1.
Proof.
  intros H0 H1. induction n as [|n [IH0 IH1]].
  - unfold JS.Math_pow. simpl. lra.
  - rewrite Math_pow_succ by lra. split; nra.
Qed.

(** *** Insertion-ordered maps *)

Lemma Map_get_keys {V} (f : string -> V) k ks :
  JS.Map_get k (List.map (fun k' => (k', f k')) ks)
  = if existsb (String.eqb k) ks then Some (f k) else None.
Proof.
  induction ks as [|k' r IH]; simpl; [reflexivity|].
  rewrite (String.eqb_sym k k').
  destruct (String.eqb_spec k' k) as [->|Hne]; simpl; [reflexivity|exact IH].
Qed.

Lemma Map_set_absent {V} (f : string -> V) (g : string -> V) k v ks :
  existsb (String.eqb k) ks = false ->
  (forall k', k' <> k -> g k' = f k') -> g k = v ->
  JS.Map_set k v (List.map (fun k' => (k', f k')) ks)
  = List.map (fun k' => (k', g k')) (ks ++ [k]).
Proof.
  intros Hk Hg Hv. induction ks as [|k' r IH]; simpl.
  - rewrite Hv. reflexivity.
  - simpl in Hk. apply orb_false_elim in Hk. destruct Hk as [Hk Hr].
    rewrite String.eqb_sym, Hk. rewrite IH by exact Hr.
    rewrite Hg; [reflexivity|]. intros ->. rewrite String.eqb_refl in Hk.
    discriminate.
Qed.

Lemma Map_set_present {V} (f : string -> V) (g : string -> V) k v ks :
  NoDup ks -> In k ks ->
  (forall k', k' <> k -> g k' = f k') -> g k = v ->
  JS.Map_set k v (List.map (fun k' => (k', f k')) ks)
  = List.map (fun k' => (k', g k')) ks.
Proof.
  intros Hnd Hin Hg Hv. induction ks as [|k' r IH]; simpl; [destruct Hin|].
  inversion Hnd as [|? ? Hnotin Hnd']; subst.
  destruct (String.eqb_spec k' k) as [->|Hne].
  - f_equal. apply map_ext_in. intros a Ha. rewrite Hg; [reflexivity|].
    intros ->. contradiction.
  - rewrite (Hg k' Hne). f_equal. apply IH; [exact Hnd'|].
    destruct Hin as [->|Hin]; [contradiction|exact Hin].
Qed.

Lemma existsb_eqb_In k ks : existsb (String.eqb k) ks = true <-> In k ks.
Proof.
  rewrite existsb_exists. split.
  - intros (x & Hx & He). apply String.eqb_eq in He. subst. exact Hx.
  - intros H. exists k. split; [exact H|apply String.eqb_refl].
Qed.

Lemma firstOccurrences_snoc keys k :
  firstOccurrences (keys ++ [k])
  = if existsb (String.eqb k) (firstOccurrences keys)
    then firstOccurrences keys else firstOccurrences keys ++ [k].
Proof. unfold firstOccurrences. rewrite fold_left_app. reflexivity. Qed.

Lemma firstOccurrences_spec keys :
  NoDup (firstOccurrences keys)
  /\ forall k, In k (firstOccurrences keys) <-> In k keys.
Proof.
  induction keys as [|k keys [IHn IHi]] using rev_ind.
  - split; [constructor|reflexivity].
  - rewrite firstOccurrences_snoc.
    destruct (existsb (String.eqb k) (firstOccurrences keys)) eqn:E.
    + split; [exact IHn|]. intros k'. rewrite in_app_iff, IHi. simpl.
      apply existsb_eqb_In in E. apply IHi in E.
      split; [tauto|]. intros [H|[<-|[]]]; assumption.
    + assert (~ In k (firstOccurrences keys)) as Hk.
      { intros H. apply existsb_eqb_In in H. congruence. }
      split.
      * apply NoDup_app; [exact IHn|repeat constructor; intros []|].
        intros x Hx [<-|[]]. contradiction.
      * intros k'. rewrite !in_app_iff, IHi. reflexivity.
Qed.

Lemma legsInGame_snoc legs leg key :
  legsInGame (legs ++ [leg]) key
  = (legsInGame legs key + if String.eqb (gameKey leg) key then 1 else 0)%nat.
Proof.
  unfold legsInGame. rewrite filter_app, length_app. simpl.
  destruct (String.eqb (gameKey leg) key); reflexivity.
Qed.

Lemma legsInGame_absent legs key :
  ~ In key (List.map gameKey legs) -> legsInGame legs key = O.
Proof.
  unfold legsInGame. induction legs as [|leg r IH]; simpl; [reflexivity|].
  intros H. destruct (String.eqb_spec (gameKey leg) key) as [E|E].
  - exfalso. apply H. left. exact E.
  - apply IH. intros Hin. apply H. right. exact Hin.
Qed.

(** The counting loop yields every distinct game key once, in first
    occurrence order, with the number of legs that carry it. *)
Lemma countGames_spec legs : countGames legs = gamesOf legs.
Proof.
  unfold gamesOf.
  induction legs as [|leg legs IH] using rev_ind; [reflexivity|].
  unfold countGames in *. rewrite fold_left_app. cbn [fold_left]. rewrite IH.
  rewrite map_app. cbn [List.map]. rewrite firstOccurrences_snoc.
  set (k := gameKey leg). set (keys := List.map gameKey legs).
  destruct (firstOccurrences_spec keys) as [Hnd Hin].
  assert (Hbump : JS.Map_bump k
            (List.map (fun key => (key, legsInGame legs key))
               (firstOccurrences keys))
          = legsInGame (legs ++ [leg]) k).
  { unfold JS.Map_bump. rewrite Map_get_keys, legsInGame_snoc.
    fold k. rewrite String.eqb_refl.
    destruct (existsb (String.eqb k) (firstOccurrences keys)) eqn:E;
      simpl; [reflexivity|].
    rewrite legsInGame_absent; [reflexivity|].
    fold keys. rewrite <- Hin. intros H. apply existsb_eqb_In in H. congruence. }
  rewrite Hbump.
  assert (Hother : forall k', k' <> k ->
            legsInGame (legs ++ [leg]) k' = legsInGame legs k').
  { intros k' Hne. rewrite legsInGame_snoc. fold k.
    destruct (String.eqb_spec k k'); [congruence|lia]. }
  destruct (existsb (String.eqb k) (firstOccurrences keys)) eqn:E.
  - apply Map_set_present; auto. apply existsb_eqb_In, E.
  - apply Map_set_absent; auto.
Qed.

(** *** The penalty loops *)

(** A loop that, for the entries that pass [cond], multiplies the running
    multiplier by [f] and appends the entry [p]. *)
Lemma penalty_loop {E} (step : PenaltyState.t -> E -> PenaltyState.t)
    (cond : E -> bool) (f : E -> Q) (p : E -> PenaltyBreakdown.t) :
  (forall st e,
      step st e = if cond e
                  then PenaltyState.mk (PenaltyState.multiplier st * f e)
                         (PenaltyState.penalties st ++ [p e])
                  else st) ->
  forall es st,
    fold_left step es st
    = PenaltyState.mk
        (fold_left (fun m e => m * f e) (List.filter cond es)
           (PenaltyState.multiplier st))
        (PenaltyState.penalties st ++ List.map p (List.filter cond es)).
Proof.
  intros Hstep. induction es as [|e r IH]; intros st; simpl.
  - rewrite app_nil_r. destruct st; reflexivity.
  - rewrite IH, Hstep. destruct (cond e); simpl; [|reflexivity].
    rewrite <- app_assoc. reflexivity.
Qed.

Lemma product_from {E} (f : E -> Q) es : forall m,
  fold_left (fun m e => m * f e) es m == m * fold_left (fun m e => m * f e) es 1.
Proof.
  induction es as [|e r IH]; intros m; simpl; [ring|].
  rewrite IH, (IH (1 * f e)). ring.
Qed.

Lemma product_unit {E} (f : E -> Q) es :
  (forall e, In e es -> 0 < f e /\ f e <= 1) ->
  0 < fold_left (fun m e => m * f e) es 1
  /\ fold_left (fun m e => m * f e) es 1 <= 1.
Proof.
  induction es as [|e r IH]; intros H; simpl; [lra|].
  rewrite product_from.
  destruct (H e) as [H0 H1]; [left; reflexivity|].
  destruct IH as [I0 I1]; [intros x Hx; apply H; right; exact Hx|].
  split; nra.
Qed.

Lemma sameGamePenalties_spec games st :
  sameGamePenalties games st
  = PenaltyState.mk
      (factorProduct (List.filter (fun '(_, c) => (1 <? c)%nat) games)
         (PenaltyState.multiplier st))
      (PenaltyState.penalties st
       ++ List.map sameGameEntry
            (List.filter (fun '(_, c) => (1 <? c)%nat) games)).
Proof.
  unfold sameGamePenalties, factorProduct.
  apply (penalty_loop _ (fun '(_, c) => (1 <? c)%nat)
           (fun game => sameGameFactor (snd game)) sameGameEntry).
  intros s [k c]. reflexivity.
Qed.


Lemma sameTeamPenalties_loop teamCounts st :
  sameTeamPenalties teamCounts st
  = PenaltyState.mk
      (fold_left (fun m e => m * JS.Math_pow (95 # 100) (snd e - 1))
         (List.filter (fun '(_, c) => (1 <? c)%nat) teamCounts)
         (PenaltyState.multiplier st))
      (PenaltyState.penalties st
       ++ List.map
            (fun e =>
               PenaltyBreakdown.mk "same_team"
                 (1 - JS.Math_pow (95 # 100) (snd e - 1))
                 (PenaltyReason.same_team (snd e) (fst e)
                    (1 - JS.Math_pow (95 # 100) (snd e - 1))))
            (List.filter (fun '(_, c) => (1 <? c)%nat) teamCounts)).
Proof.
  unfold sameTeamPenalties.
  apply (penalty_loop _ (fun '(_, c) => (1 <? c)%nat)
           (fun e => JS.Math_pow (95 # 100) (snd e - 1))).
  intros s [k c]. reflexivity.
Qed.

Lemma stackPenalties_loop teamLegs st :
  stackPenalties teamLegs st
  = PenaltyState.mk
      (fold_left (fun m (_ : string * list Leg.t) => m * (85 # 100))
         (List.filter stacked teamLegs) (PenaltyState.multiplier st))
      (PenaltyState.penalties st
       ++ List.map
            (fun group =>
               PenaltyBreakdown.mk "qb_wr_stack" (15 # 100)
                 (PenaltyReason.qb_wr_stack (fst group)))
            (List.filter stacked teamLegs)).
Proof.
  unfold stackPenalties.
  apply (penalty_loop _ stacked (fun _ => 85 # 100)).
  intros s [k c]. reflexivity.
Qed.

(** The later loops extend the state left by the same-game loop: they
    append their entries and multiply by their own factors. *)
Lemma team_loops_from teamCounts teamLegs st :
  let fresh := stackPenalties teamLegs
                 (sameTeamPenalties teamCounts (PenaltyState.mk 1 [])) in
  let full := stackPenalties teamLegs (sameTeamPenalties teamCounts st) in
  PenaltyState.penalties full
  = PenaltyState.penalties st ++ PenaltyState.penalties fresh
  /\ PenaltyState.multiplier full
     == PenaltyState.multiplier st * PenaltyState.multiplier fresh.
Proof.
  cbv zeta. rewrite !stackPenalties_loop, !sameTeamPenalties_loop. simpl.
  split.
  - rewrite <- app_assoc. reflexivity.
  - rewrite product_from. symmetry. rewrite product_from.
    rewrite (product_from _ _ (PenaltyState.multiplier st)).
    rewrite (product_from _ _ 1) at 1. ring.
Qed.

Lemma teamPenalties_spec legs :
  let rest := teamPenalties legs in
  Forall (fun p => PenaltyBreakdown.type p <> "same_game")
    (PenaltyState.penalties rest)
  /\ 0 < PenaltyState.multiplier rest /\ PenaltyState.multiplier rest <= 1.
Proof.
  unfold teamPenalties. destruct (countTeams legs) as [tc tl].
  rewrite stackPenalties_loop, sameTeamPenalties_loop. simpl. split.
  - apply Forall_app. split; apply Forall_forall; intros p Hp;
      apply in_map_iff in Hp; destruct Hp as (e & <- & _); simpl; discriminate.
  - rewrite product_from.
    pose proof (product_unit (fun e : string * nat => JS.Math_pow (95 # 100) (snd e - 1))
                  (List.filter (fun '(_, c) => (1 <? c)%nat) tc)) as [A0 A1].
    { intros e _. apply Math_pow_unit; lra. }
    pose proof (product_unit (fun _ : string * list Leg.t => 85 # 100)
                  (List.filter stacked tl)) as [B0 B1].
    { intros e _. lra. }
    split; nra.
Qed.


Lemma Math_max_compat a b : a == b -> JS.Math_max a 0 == JS.Math_max b 0.
Proof.
  intros H. unfold JS.Math_max. rewrite H.
  destruct (Qle_bool b 0); [reflexivity|exact H].
Qed.

Lemma calculateParlayPenalties_parts legs :
  let r := calculateParlayPenalties legs in
  let rest := teamPenalties legs in
  PenaltyResult.penalties r
  = List.map sameGameEntry (sharedGames legs) ++ PenaltyState.penalties rest
  /\ PenaltyResult.adjustedProbability r
     == JS.Math_max
          (calculateParlayProbability legs
           * (factorProduct (sharedGames legs) 1
              * PenaltyState.multiplier rest)) 0.
Proof.
  cbv zeta. unfold calculateParlayPenalties, teamPenalties.
  rewrite countGames_spec, sameGamePenalties_spec. fold (sharedGames legs).
  destruct (countTeams legs) as [tc tl]. simpl.
  destruct (team_loops_from tc tl
              (PenaltyState.mk (factorProduct (sharedGames legs) 1)
                 (List.map sameGameEntry (sharedGames legs)))) as [Hp Hm].
  cbv zeta in Hp, Hm. simpl in Hp, Hm. split; [exact Hp|].
  apply Math_max_compat. rewrite Hm. reflexivity.
Qed.

Lemma factorProduct_unit games :
  0 < factorProduct games 1 /\ factorProduct games 1 <= 1.
Proof.
  unfold factorProduct.
  apply (product_unit (fun game : string * nat => sameGameFactor (snd game))).
  intros e _. apply Math_pow_unit; lra.
Qed.

Lemma calculateParlayProbability_bounds legs :
  (forall leg, In leg legs ->
      0 <= Leg.smoothedProb leg /\ Leg.smoothedProb leg <= 1) ->
  0 <= calculateParlayProbability legs /\ calculateParlayProbability legs <= 1.
Proof.
  unfold calculateParlayProbability.
  assert (forall l acc, (forall leg, In leg l ->
             0 <= Leg.smoothedProb leg /\ Leg.smoothedProb leg <= 1) ->
           0 <= acc -> acc <= 1 ->
           0 <= fold_left (fun product leg => product * Leg.smoothedProb leg) l acc
           /\ fold_left (fun product leg => product * Leg.smoothedProb leg) l acc <= 1)
    as H.
  { induction l as [|leg r IH]; intros acc Hl H0 H1; simpl; [split; assumption|].
    destruct (Hl leg) as [A B]; [left; reflexivity|].
    apply IH; [intros x Hx; apply Hl; right; exact Hx| |]; nra. }
  intros Hl. apply H; [exact Hl| |]; lra.
Qed.

(** C10.  The combined penalty multiplier (the product of the same-game,
    same-team and stack factors) lies in (0,1].  When every leg has a
    smoothed probability in [0,1], the adjusted probability of
    [calculateParlayPenalties] is the base probability (the product of the
    legs' smoothed probabilities) times that multiplier, and it lies between
    zero and the base probability. *)
Theorem calculateParlayPenalties_bounds legs :
  (forall leg, In leg legs ->
      0 <= Leg.smoothedProb leg /\ Leg.smoothedProb leg <= 1) ->
  let adjusted := PenaltyResult.adjustedProbability
                    (calculateParlayPenalties legs) in
  let base := calculateParlayProbability legs in
  let multiplier :=
    factorProduct (sharedGames legs) 1
    * PenaltyState.multiplier (teamPenalties legs) in
  (0 < multiplier /\ multiplier <= 1)
  /\ adjusted == base * multiplier
  /\ 0 <= adjusted /\ adjusted <= base.
Proof.
  intros Hl adjusted base multiplier. subst adjusted.
  destruct (calculateParlayPenalties_parts legs) as [_ Hadj]. cbv zeta in Hadj.
  destruct (calculateParlayProbability_bounds legs Hl) as [B0 B1].
  destruct (factorProduct_unit (sharedGames legs)) as [G0 G1].
  destruct (teamPenalties_spec legs) as (_ & T0 & T1). cbv zeta in T0, T1.
  fold base multiplier in Hadj, B0, B1.
  assert (0 < multiplier /\ multiplier <= 1) as [M0 M1].
  { subst multiplier.
    set (g := factorProduct (sharedGames legs) 1) in *.
    set (t := PenaltyState.multiplier (teamPenalties legs)) in *.
    split; nra. }
  assert (0 <= base * multiplier) as Hnn by nra.
  rewrite Hadj, (Math_max_nonneg _ Hnn).
  split; [split; assumption|]. split; [reflexivity|].
  split; [exact Hnn|nra].
Qed.







(** ** Combination engine *)

Lemma Set_of_size_le (l : list string) : (size (JS.Set_of l) <= List.length l)%nat.
Proof.
  unfold JS.Set_of. induction l as [|x r IH].
  - rewrite list_to_set_nil, size_empty. simpl. lia.
  - rewrite list_to_set_cons. cbn [List.length].
    destruct (decide (x ∈ (list_to_set r : gset string))) as [Hin|Hnin].
    + assert ({[x]} ∪ list_to_set r = (list_to_set r : gset string)) as ->
        by (apply subseteq_union_1_L, singleton_subseteq_l, Hin).
      lia.
    + rewrite size_union by (apply disjoint_singleton_l, Hnin).
      rewrite size_singleton. lia.
Qed.

(** [new Set(ids).size === ids.length] exactly when the ids are distinct. *)
Lemma Set_of_size_NoDup (l : list string) :
  size (JS.Set_of l) = List.length l -> NoDup l.
Proof.
  unfold JS.Set_of. induction l as [|x r IH]; intros H.
  - constructor.
  - rewrite list_to_set_cons in H. cbn [List.length] in H.
    pose proof (Set_of_size_le r) as Hle. unfold JS.Set_of in Hle.
    destruct (decide (x ∈ (list_to_set r : gset string))) as [Hin|Hnin].
    + assert ({[x]} ∪ list_to_set r = (list_to_set r : gset string)) as Hu
        by (apply subseteq_union_1_L, singleton_subseteq_l, Hin).
      rewrite Hu in H. lia.
    + rewrite size_union in H by (apply disjoint_singleton_l, Hnin).
      rewrite size_singleton in H.
      constructor.
      * intros Hx. apply Hnin. apply elem_of_list_to_set.
        apply list_elem_of_In. exact Hx.
      * apply IH. lia.
Qed.

Lemma Map_get_set {V} k k' (v : V) m :
  JS.Map_get k' (JS.Map_set k v m)
  = if String.eqb k k' then Some v else JS.Map_get k' m.
Proof.
  induction m as [|[k0 v0] r IH]; simpl.
  - reflexivity.
  - destruct (String.eqb_spec k0 k) as [->|Hne]; simpl.
    + destruct (String.eqb k k'); reflexivity.
    + rewrite IH. destruct (String.eqb_spec k0 k') as [->|Hne'].
      * destruct (String.eqb_spec k k'); [congruence|reflexivity].
      * reflexivity.
Qed.

(** The per-game loop accepts only legs whose game keys are pairwise
    distinct and not yet counted. *)
Lemma oneLegPerGame_NoDup legs : forall gameCounts,
  oneLegPerGame legs gameCounts = true ->
  NoDup (List.map gameKey legs)
  /\ forall leg, In leg legs ->
       JS.nullish (JS.Map_get (gameKey leg) gameCounts) O = O.
Proof.
  induction legs as [|leg rest IH]; intros m; simpl; intros H.
  - split; [constructor|intros ? []].
  - unfold JS.Map_bump in H.
    destruct (JS.nullish (JS.Map_get (gameKey leg) m) 0%nat) as [|c] eqn:E;
      simpl in H; [|destruct c; discriminate H].
    apply IH in H. destruct H as [Hnd Hrest]. split.
    + constructor; [|exact Hnd]. intros Hin.
      apply in_map_iff in Hin. destruct Hin as (l' & Hk & Hl').
      specialize (Hrest l' Hl'). rewrite Map_get_set, Hk in Hrest.
      rewrite String.eqb_refl in Hrest. discriminate.
    + intros l' [<-|Hl']; [exact E|].
      specialize (Hrest l' Hl'). rewrite Map_get_set in Hrest.
      destruct (String.eqb (gameKey leg) (gameKey l')); [discriminate|exact Hrest].
Qed.

Lemma isValidParlay_true legs legCount allowSameGame allowSameTeamStack :
  isValidParlay legs legCount allowSameGame allowSameTeamStack = true ->
  Z.of_nat (List.length legs) = legCount
  /\ NoDup (List.map Leg.playerId legs)
  /\ (allowSameGame = false -> NoDup (List.map gameKey legs))
  /\ (allowSameTeamStack = false ->
      noStackViolation legs allowSameTeamStack = true).
Proof.
  unfold isValidParlay.
  destruct (Z.eqb_spec (Z.of_nat (List.length legs)) legCount) as [Hlen|];
    simpl; [|discriminate].
  destruct (Nat.eqb_spec (size (JS.Set_of (List.map Leg.playerId legs)))
              (List.length (List.map Leg.playerId legs))) as [Hsz|];
    simpl; [|discriminate].
  intros H. split; [exact Hlen|]. split; [apply Set_of_size_NoDup, Hsz|].
  split.
  - intros ->. simpl in H.
    destruct (oneLegPerGame legs []) eqn:E; simpl in H; [|discriminate].
    apply (oneLegPerGame_NoDup legs [] E).
  - intros ->. simpl in H.
    destruct (negb allowSameGame && negb (oneLegPerGame legs [])); [discriminate|].
    destruct (noStackViolation legs false); [reflexivity|discriminate].
Qed.

Lemma generateCombinations_eq legCount allowSameGame allowSameTeamStack arr
    size current :
  generateCombinations legCount allowSameGame allowSameTeamStack arr size
    current
  = if (Z.of_nat (List.length current) =? size)%Z
    then emitParlay legCount allowSameGame allowSameTeamStack current
    else combinationsLoop legCount allowSameGame allowSameTeamStack arr size
           current.
Proof.
  destruct arr as [|leg rest]; simpl.
  - reflexivity.
  - destruct (Z.of_nat (List.length current) =? size)%Z; [reflexivity|].
    f_equal. induction rest as [|leg' rest' IH]; simpl; [reflexivity|].
    f_equal. exact IH.
Qed.

Lemma emitParlay_emitted legCount allowSameGame allowSameTeamStack current p :
  In p (emitParlay legCount allowSameGame allowSameTeamStack current) ->
  emitted legCount allowSameGame allowSameTeamStack p.
Proof.
  unfold emitParlay.
  destruct (isValidParlay current legCount allowSameGame allowSameTeamStack)
    eqn:E; [|intros []].
  intros [<-|[]]. split; [exact E|]. split; reflexivity.
Qed.

(** Every parlay that the enumeration emits passed [isValidParlay] and was
    scored by [calculateParlayPenalties]. *)
Lemma generateCombinations_emitted legCount allowSameGame allowSameTeamStack
    size : forall n arr current p,
  (List.length arr <= n)%nat ->
  In p (generateCombinations legCount allowSameGame allowSameTeamStack arr
          size current) ->
  emitted legCount allowSameGame allowSameTeamStack p.
Proof.
  induction n as [|n IH]; intros arr current p Hn;
    rewrite generateCombinations_eq;
    (destruct (Z.of_nat (List.length current) =? size)%Z;
     [apply emitParlay_emitted|]).
  - destruct arr; [intros []|simpl in Hn; lia].
  - revert Hn. induction arr as [|leg rest IHarr]; simpl; intros Hn;
      [intros []|].
    rewrite in_app_iff. intros [H|H].
    + apply (IH rest (current ++ [leg]) p); [lia|exact H].
    + apply IHarr; [lia|exact H].
Qed.

(** *** Ranking *)

Lemma parlayOrder_le (a b : Parlay.t * Q) pa pb :
  Parlay.estProbability (fst a) = Some pa ->
  Parlay.estProbability (fst b) = Some pb ->
  (parlayOrder a b <= 0 <-> (pb < pa \/ (pb == pa /\ snd b <= snd a)))%Q.
Proof.
  intros Ha Hb. unfold parlayOrder. rewrite Ha, Hb.
  destruct (Qeq_bool (pb - pa) 0) eqn:E; simpl.
  - apply Qeq_bool_iff in E. split; [intros H; right; split; lra|].
    intros [H|[_ H]]; lra.
  - apply Qeq_bool_neq in E. split; [intros H; left; lra|].
    intros [H|[H _]]; lra.
Qed.

(* scored *)

Lemma parlayOrder_total x y :
  scored x -> scored y -> (parlayOrder x y <= 0 \/ parlayOrder y x <= 0)%Q.
Proof.
  intros [px Hx] [py Hy].
  rewrite (parlayOrder_le x y px py Hx Hy), (parlayOrder_le y x py px Hy Hx).
  destruct (Qlt_le_dec py px); [left; left; assumption|].
  destruct (Qlt_le_dec px py); [right; left; assumption|].
  destruct (Qlt_le_dec (snd x) (snd y)).
  - right. right. split; lra.
  - left. right. split; lra.
Qed.

Lemma parlayOrder_trans x y z :
  scored x -> scored y -> scored z ->
  (parlayOrder x y <= 0 -> parlayOrder y z <= 0 -> parlayOrder x z <= 0)%Q.
Proof.
  intros [px Hx] [py Hy] [pz Hz].
  rewrite (parlayOrder_le x y px py Hx Hy), (parlayOrder_le y z py pz Hy Hz),
    (parlayOrder_le x z px pz Hx Hz).
  intros [H|[H H']] [G|[G G']]; try (left; lra). right. split; lra.
Qed.

Lemma StronglySorted_map_weaken {A B} (R : A -> A -> Prop)
    (R' : B -> B -> Prop) (P : A -> Prop) (f : A -> B) l :
  (forall x y, P x -> P y -> R x y -> R' (f x) (f y)) ->
  Forall P l -> StronglySorted R l -> StronglySorted R' (List.map f l).
Proof.
  intros HR HP Hs. induction Hs as [|x r Hr IH Hx]; simpl; [constructor|].
  inversion HP as [|? ? Px Pr]; subst.
  constructor; [exact (IH Pr)|].
  rewrite Forall_forall in Hx, Pr |- *. intros b Hb.
  apply in_map_iff in Hb. destruct Hb as (y & <- & Hy).
  apply HR; auto.
Qed.

Lemma generateParlays_In candidateLegs options p :
  In p (generateParlays candidateLegs options) ->
  let singleGame := JS.nullish (ParlayOptions.singleGame options) false in
  emitted (clampLegCount (ParlayOptions.legCount options))
    (if singleGame then true
     else JS.nullish (ParlayOptions.allowSameGame options) false)
    (JS.nullish (ParlayOptions.allowSameTeamStack options) false) p.
Proof.
  unfold generateParlays. cbv zeta. intros H.
  apply in_map_iff in H. destruct H as ([p' a] & <- & H).
  apply sort_In in H. apply in_map_iff in H. destruct H as (q & Heq & H).
  injection Heq as <- _. simpl.
  eapply generateCombinations_emitted; [apply Nat.le_refl|exact H].
Qed.

Lemma generateParlays_sorted candidateLegs options :
  StronglySorted ranksBefore (generateParlays candidateLegs options).
Proof.
  unfold generateParlays. cbv zeta.
  set (parlays := generateCombinations _ _ _ _ _ _).
  set (withAvg := List.map _ parlays).
  assert (Hdom : Forall (fun x => builtFromLegs (fst x)
                                  /\ snd x = avgLegProb (fst x)) withAvg).
  { apply Forall_forall. intros x Hx. apply in_map_iff in Hx.
    destruct Hx as (q & <- & Hq). simpl. split; [|reflexivity].
    eapply generateCombinations_emitted in Hq; [|apply Nat.le_refl].
    apply Hq. }
  apply (StronglySorted_map_weaken (keepsBefore parlayOrder) ranksBefore
           (fun x => builtFromLegs (fst x) /\ snd x = avgLegProb (fst x))).
  - intros x y [[_ Bx] Ax] [[_ By] Ay] H. unfold keepsBefore in H.
    rewrite (parlayOrder_le x y _ _ Bx By) in H.
    unfold ranksBefore. rewrite <- Ax, <- Ay. exact H.
  - eapply Permutation_Forall;
      [apply Permutation_sym, sort_Permutation|exact Hdom].
  - apply (sort_StronglySorted parlayOrder scored).
    + apply parlayOrder_total.
    + apply parlayOrder_trans.
    + eapply Forall_impl; [|exact Hdom]. intros x [[_ Bx] _].
      eexists. exact Bx.
Qed.

(** *** Enumeration *)

Lemma combinations_nil {A} k : (0 < k)%nat -> combinations k (@nil A) = [].
Proof. destruct k; [lia|reflexivity]. Qed.

Lemma flat_map_map {A B C} (f : B -> list C) (g : A -> B) l :
  flat_map f (List.map g l) = flat_map (fun x => f (g x)) l.
Proof.
  induction l as [|x r IH]; simpl; [reflexivity|]. rewrite IH. reflexivity.
Qed.

(** From [current], the enumeration visits exactly the completions of
    [current] by the combinations of the remaining array, in order. *)
Lemma generateCombinations_complete legCount allowSameGame allowSameTeamStack
    (k : nat) arr : forall current,
  (List.length current <= k)%nat ->
  generateCombinations legCount allowSameGame allowSameTeamStack arr
    (Z.of_nat k) current
  = flat_map
      (fun c => emitParlay legCount allowSameGame allowSameTeamStack
                  (current ++ c))
      (combinations (k - List.length current) arr)
  /\ ((List.length current < k)%nat ->
      combinationsLoop legCount allowSameGame allowSameTeamStack arr
        (Z.of_nat k) current
      = flat_map
          (fun c => emitParlay legCount allowSameGame allowSameTeamStack
                      (current ++ c))
          (combinations (k - List.length current) arr)).
Proof.
  induction arr as [|leg rest IH]; intros current Hlen.
  - assert (Hloop : (List.length current < k)%nat ->
                    combinationsLoop legCount allowSameGame allowSameTeamStack
                      [] (Z.of_nat k) current
                    = flat_map
                        (fun c => emitParlay legCount allowSameGame
                                    allowSameTeamStack (current ++ c))
                        (combinations (k - List.length current) [])).
    { intros Hlt. rewrite combinations_nil by lia. reflexivity. }
    split; [|exact Hloop].
    rewrite generateCombinations_eq.
    destruct (Z.eqb_spec (Z.of_nat (List.length current)) (Z.of_nat k)) as [E|E].
    + replace (k - List.length current)%nat with O by lia. simpl.
      rewrite !app_nil_r. reflexivity.
    + apply Hloop. lia.
  - assert (Hloop : (List.length current < k)%nat ->
                    combinationsLoop legCount allowSameGame allowSameTeamStack
                      (leg :: rest) (Z.of_nat k) current
                    = flat_map
                        (fun c => emitParlay legCount allowSameGame
                                    allowSameTeamStack (current ++ c))
                        (combinations (k - List.length current) (leg :: rest))).
    { intros Hlt. cbn [combinationsLoop].
      destruct (k - List.length current)%nat as [|j] eqn:Ej; [lia|].
      cbn [combinations]. rewrite flat_map_app. f_equal.
      - destruct (IH (current ++ [leg])) as [Hgen _].
        { rewrite length_app. simpl. lia. }
        rewrite Hgen. rewrite length_app. simpl.
        replace (k - (List.length current + 1))%nat with j by lia.
        rewrite flat_map_map.
        apply flat_map_ext. intros c. rewrite <- app_assoc. reflexivity.
      - destruct (IH current) as [_ Hl]; [lia|].
        rewrite Hl by lia. rewrite Ej. reflexivity. }
    split; [|exact Hloop].
    rewrite generateCombinations_eq.
    destruct (Z.eqb_spec (Z.of_nat (List.length current)) (Z.of_nat k)) as [E|E].
    + replace (k - List.length current)%nat with O by lia. simpl.
      rewrite !app_nil_r. reflexivity.
    + apply Hloop. lia.
Qed.

Lemma emitParlay_legs legCount allowSameGame allowSameTeamStack cs :
  List.map Parlay.legs
    (flat_map (emitParlay legCount allowSameGame allowSameTeamStack) cs)
  = List.filter
      (fun c => isValidParlay c legCount allowSameGame allowSameTeamStack) cs.
Proof.
  induction cs as [|c r IH]; simpl; [reflexivity|].
  rewrite map_app, IH. unfold emitParlay.
  destruct (isValidParlay c legCount allowSameGame allowSameTeamStack);
    reflexivity.
Qed.

(** [generateParlays] returns every valid combination of the filtered legs
    exactly once. *)
Lemma generateParlays_enumerates candidateLegs options :
  let legCount := clampLegCount (ParlayOptions.legCount options) in
  let allowSameGame :=
    if JS.nullish (ParlayOptions.singleGame options) false then true
    else JS.nullish (ParlayOptions.allowSameGame options) false in
  let allowSameTeamStack :=
    JS.nullish (ParlayOptions.allowSameTeamStack options) false in
  Permutation
    (List.map Parlay.legs (generateParlays candidateLegs options))
    (List.filter
       (fun c => isValidParlay c legCount allowSameGame allowSameTeamStack)
       (combinations (Z.to_nat legCount) (filterLegs candidateLegs options))).
Proof.
  intros legCount allowSameGame allowSameTeamStack.
  unfold generateParlays. cbv zeta.
  fold legCount allowSameGame allowSameTeamStack.
  rewrite map_map.
  set (parlays := generateCombinations _ _ _ _ _ _).
  transitivity (List.map Parlay.legs parlays).
  - rewrite <- (map_map fst Parlay.legs).
    apply Permutation_map.
    etransitivity; [apply Permutation_map, sort_Permutation|].
    rewrite map_map. simpl. rewrite map_id. reflexivity.
  - subst parlays.
    assert (legCount = Z.of_nat (Z.to_nat legCount)) as Hk.
    { unfold legCount, clampLegCount. lia. }
    rewrite Hk at 2.
    destruct (generateCombinations_complete legCount allowSameGame
                allowSameTeamStack (Z.to_nat legCount)
                (filterLegs candidateLegs options) []) as [Hgen _];
      [simpl; lia|].
    rewrite Hgen. simpl. rewrite Nat.sub_0_r.
    rewrite emitParlay_legs. reflexivity.
Qed.

(** C4.  Every parlay that [generateParlays] returns has pairwise distinct
    player ids and has exactly as many legs as the requested count clamped
    to the range 2..8 (the count itself when it is in that range, 3 when it
    is missing); no request is rejected. *)
Theorem generateParlays_players_and_size candidateLegs options p :
  In p (generateParlays candidateLegs options) ->
  let requested := ParlayOptions.legCount options in
  NoDup (List.map Leg.playerId (Parlay.legs p))
  /\ Z.of_nat (List.length (Parlay.legs p)) = clampLegCount requested
  /\ (2 <= clampLegCount requested <= 8)%Z
  /\ (forall n, requested = Some n ->
        ((2 <= n <= 8)%Z -> clampLegCount requested = n)
        /\ ((n < 2)%Z -> clampLegCount requested = 2%Z)
        /\ ((8 < n)%Z -> clampLegCount requested = 8%Z))
  /\ (requested = None -> clampLegCount requested = 3%Z).
Proof.
  intros H requested. apply generateParlays_In in H. cbv zeta in H.
  destruct H as [Hv _]. apply isValidParlay_true in Hv.
  destruct Hv as (Hlen & Hnd & _).
  split; [exact Hnd|]. split; [exact Hlen|].
  unfold clampLegCount. split; [lia|]. split.
  - intros n ->. simpl. repeat split; lia.
  - intros ->. reflexivity.
Qed.

(** C5.  When neither [singleGame] nor [allowSameGame] is set, the legs of
    every parlay that [generateParlays] returns have pairwise distinct game
    keys; in particular two legs of a returned parlay never carry the same
    non-empty game id. *)
Theorem generateParlays_one_leg_per_game candidateLegs options p :
  JS.nullish (ParlayOptions.allowSameGame options) false = false ->
  JS.nullish (ParlayOptions.singleGame options) false = false ->
  In p (generateParlays candidateLegs options) ->
  NoDup (List.map gameKey (Parlay.legs p))
  /\ forall i j a b,
       i <> j ->
       nth_error (Parlay.legs p) i = Some a ->
       nth_error (Parlay.legs p) j = Some b ->
       gameKey a <> gameKey b
       /\ (JS.truthy (Leg.gameId a) = true -> Leg.gameId a <> Leg.gameId b).
Proof.
  intros Hsame Hsingle H. apply generateParlays_In in H. cbv zeta in H.
  rewrite Hsingle, Hsame in H. destruct H as [Hv _].
  apply isValidParlay_true in Hv. destruct Hv as (_ & _ & Hg & _).
  specialize (Hg eq_refl). split; [exact Hg|].
  intros i j a b Hij Ha Hb.
  assert (Hne : gameKey a <> gameKey b).
  { intros Heq. apply Hij.
    apply (proj1 (NoDup_nth_error (List.map gameKey (Parlay.legs p))) Hg).
    - rewrite length_map. apply nth_error_Some. congruence.
    - rewrite !nth_error_map, Ha, Hb. simpl. congruence. }
  split; [exact Hne|].
  intros Htr Heq. apply Hne. unfold gameKey, JS.or_opt.
  rewrite <- Heq, Htr. reflexivity.
Qed.

(** C7.  For a count [topN >= 0], [getTopParlays] is the first [topN]
    elements of [generateParlays].  That list holds every valid combination
    of the filtered legs exactly once; it is ordered by adjusted probability
    descending, ties by the mean smoothed probability of the legs
    descending; and every parlay in it carries the adjusted probability that
    [calculateParlayPenalties] gives its legs.  With [topN = 1] and at least
    one valid combination the result is a single parlay whose adjusted
    probability is the highest among all returned parlays. *)
Theorem getTopParlays_prefix candidateLegs topN options :
  (0 <= topN)%Z ->
  let all := generateParlays candidateLegs options in
  let legCount := clampLegCount (ParlayOptions.legCount options) in
  let allowSameGame :=
    if JS.nullish (ParlayOptions.singleGame options) false then true
    else JS.nullish (ParlayOptions.allowSameGame options) false in
  let allowSameTeamStack :=
    JS.nullish (ParlayOptions.allowSameTeamStack options) false in
  getTopParlays candidateLegs topN options = firstn (Z.to_nat topN) all
  /\ Permutation (List.map Parlay.legs all)
       (List.filter
          (fun c => isValidParlay c legCount allowSameGame allowSameTeamStack)
          (combinations (Z.to_nat legCount)
             (filterLegs candidateLegs options)))
  /\ StronglySorted ranksBefore all
  /\ (forall p, In p all -> builtFromLegs p)
  /\ (topN = 1%Z -> all <> [] ->
      exists best,
        getTopParlays candidateLegs topN options = [best]
        /\ In best all
        /\ forall p, In p all ->
             Parlay.estimatedProbability p <= Parlay.estimatedProbability best).
Proof.
  intros Hn all legCount allowSameGame allowSameTeamStack.
  assert (Hprefix : getTopParlays candidateLegs topN options
                    = firstn (Z.to_nat topN) all).
  { unfold getTopParlays. cbv zeta. apply slice0_nonneg, Hn. }
  pose proof (generateParlays_sorted candidateLegs options) as Hsorted.
  fold all in Hsorted.
  split; [exact Hprefix|].
  split; [apply generateParlays_enumerates|].
  split; [exact Hsorted|]. split.
  - intros p Hp. apply generateParlays_In in Hp. apply Hp.
  - intros -> Hne. rewrite Hprefix.
    destruct all as [|best rest]; [congruence|].
    exists best. split; [reflexivity|]. split; [left; reflexivity|].
    intros p [<-|Hp]; [apply Qle_refl|].
    inversion Hsorted as [|? ? _ Hbest]; subst.
    rewrite Forall_forall in Hbest. destruct (Hbest p Hp) as [H|[H _]].
    + apply Qlt_le_weak, H.
    + rewrite H. apply Qle_refl.
Qed.

(** ** Activity filter *)

Lemma truthy_or_str (o : option string) :
  JS.truthy o = true -> o = Some (JS.or_str o "").
Proof. destruct o as [[|c s]|]; simpl; congruence. Qed.

Lemma teams_fold (keep : GameLog.t -> bool) logs : forall (acc : gset string) team,
  team ∈ fold_left
           (fun (acc : gset string) log =>
              if keep log && JS.truthy (GameLog.team log)
              then {[ JS.or_str (GameLog.team log) "" ]} ∪ acc
              else acc)
           logs acc
  <-> team ∈ acc
      \/ exists log, In log logs /\ keep log = true
                     /\ JS.truthy (GameLog.team log) = true
                     /\ GameLog.team log = Some team.
Proof.
  induction logs as [|log r IH]; intros acc team; simpl.
  - split; [auto|]. intros [H|(? & [] & _)]. exact H.
  - rewrite IH. split.
    + intros [H|(l & Hl & Hk & Ht & He)].
      * destruct (keep log && JS.truthy (GameLog.team log)) eqn:E.
        -- apply elem_of_union in H. destruct H as [H|H]; [|left; exact H].
           apply elem_of_singleton in H. apply andb_true_iff in E.
           destruct E as [Ek Et]. right. exists log.
           repeat split; auto. rewrite H. apply truthy_or_str, Et.
        -- left. exact H.
      * right. exists l. auto.
    + intros [H|(l & [<-|Hl] & Hk & Ht & He)].
      * left. destruct (keep log && JS.truthy (GameLog.team log));
          [apply elem_of_union; right|]; exact H.
      * left. rewrite Hk, Ht. simpl. apply elem_of_union. left.
        apply elem_of_singleton. rewrite He in Ht |- *.
        destruct team; [discriminate Ht|reflexivity].
      * right. exists l. auto.
Qed.

(** A team is in [getByeWeekTeams] when it appears in the logs and has no
    log at that week and season. *)
Lemma getByeWeekTeams_spec logs week season team :
  team ∈ getByeWeekTeams logs week season
  <-> (exists log, In log logs /\ JS.truthy (GameLog.team log) = true
                   /\ GameLog.team log = Some team)
      /\ forall log, In log logs -> GameLog.team log = Some team ->
                     ~ (GameLog.week log = Some week
                        /\ GameLog.season log = Some season).
Proof.
  unfold getByeWeekTeams. rewrite elem_of_difference.
  pose proof (teams_fold (fun _ => true) logs ∅ team) as Hall.
  pose proof (teams_fold (fun log => opt_Z_is (GameLog.week log) week
                                     && opt_Z_is (GameLog.season log) season)
                logs ∅ team) as Hweek.
  simpl in Hall. rewrite Hall, Hweek. clear Hall Hweek.
  assert (Hz : forall o z, opt_Z_is o z = true <-> o = Some z).
  { intros [v|] z; simpl; [|split; discriminate].
    rewrite Z.eqb_eq. split; congruence. }
  split.
  - intros [[H|(l & Hl & _ & Ht & He)] Hno]; [set_solver|].
    split; [exists l; auto|].
    intros log Hlog Hteam [Hw Hs]. apply Hno. right. exists log.
    split; [exact Hlog|]. split.
    + apply andb_true_iff. split; apply Hz; assumption.
    + split; [|exact Hteam]. rewrite Hteam, He in *. exact Ht.
  - intros [(l & Hl & Ht & He) Hno]. split.
    + right. exists l. auto.
    + intros [H|(log & Hlog & Hk & _ & Hteam)]; [set_solver|].
      apply andb_true_iff in Hk. destruct Hk as [Hw Hs].
      apply (Hno log Hlog Hteam). split; apply Hz; assumption.
Qed.

Lemma playedSnaps_iff log :
  playedSnaps log = true
  <-> hasPositiveSnaps log.
Proof.
  unfold playedSnaps, hasPositiveSnaps. destruct (GameLog.snaps log) as [s|].
  - rewrite JS_gt_iff. split; [intros H; exists s; auto|].
    intros (s' & [= <-] & H). exact H.
  - split; [discriminate|]. intros (s & H & _). discriminate.
Qed.

Section ActivityFilterProperties.
Variable Date_getTime : string -> option Z.

Lemma byDateDesc_le a b :
  hasDate Date_getTime a -> hasDate Date_getTime b ->
  keepsBefore (byDateDesc Date_getTime) a b <-> (notLater Date_getTime) a b.
Proof.
  intros [ta Ha] [tb Hb]. unfold keepsBefore, byDateDesc, notLater.
  rewrite Ha, Hb. change 0 with (inject_Z 0). rewrite <- Zle_Qle. split.
  - intros H. exists ta, tb. split; [reflexivity|]. split; [reflexivity|lia].
  - intros (ta' & tb' & [= <-] & [= <-] & H). lia.
Qed.

(** With dates that parse, the comparator is a consistent comparison
    function and the sort orders the games by date. *)
Lemma playerLogsByDate_spec logs pid :
  let games := playerLogsByDate Date_getTime logs pid in
  Permutation games
    (List.filter (fun log => String.eqb (GameLog.playerId log) pid) logs)
  /\ (datesParse Date_getTime logs pid ->
      StronglySorted (notLater Date_getTime) games).
Proof.
  unfold playerLogsByDate. split; [apply sort_Permutation|].
  intros Hdates.
  set (l := List.filter _ logs).
  assert (Hl : Forall (hasDate Date_getTime) l).
  { apply Forall_forall. intros log Hlog. apply filter_In in Hlog.
    destruct Hlog as [Hin Hid]. apply String.eqb_eq in Hid.
    exact (Hdates log Hin Hid). }
  rewrite <- (map_id (JS.sort (byDateDesc Date_getTime) l)).
  apply (StronglySorted_map_weaken (keepsBefore (byDateDesc Date_getTime))
           (notLater Date_getTime) (hasDate Date_getTime) (fun x => x)).
  - intros x y Hx Hy H. apply byDateDesc_le; assumption.
  - eapply Permutation_Forall;
      [apply Permutation_sym, sort_Permutation|exact Hl].
  - apply (sort_StronglySorted (byDateDesc Date_getTime)
             (hasDate Date_getTime)).
    + intros x y [tx Hx] [ty Hy]. unfold byDateDesc. rewrite Hx, Hy.
      change 0 with (inject_Z 0). rewrite <- !Zle_Qle. lia.
    + intros x y z [tx Hx] [ty Hy] [tz Hz]. unfold byDateDesc.
      rewrite Hx, Hy, Hz.
      change 0 with (inject_Z 0). rewrite <- !Zle_Qle. lia.
    + exact Hl.
Qed.

Lemma hasSnapsInLastNGames_two logs pid :
  hasSnapsInLastNGames Date_getTime logs pid 2 = true
  <-> exists g1 g2 rest,
        playerLogsByDate Date_getTime logs pid = g1 :: g2 :: rest
        /\ playedSnaps g1 = true /\ playedSnaps g2 = true.
Proof.
  unfold hasSnapsInLastNGames. cbv zeta.
  rewrite slice0_nonneg by lia.
  destruct (playerLogsByDate Date_getTime logs pid) as [|g1 [|g2 rest]];
    simpl.
  - split; [discriminate|]. intros (? & ? & ? & H & _). discriminate.
  - split; [discriminate|]. intros (? & ? & ? & H & _). discriminate.
  - rewrite andb_true_r, andb_true_iff. split.
    + intros [H1 H2]. exists g1, g2, rest. auto.
    + intros (? & ? & ? & [= <- <- <-] & H1 & H2). auto.
Qed.

(** C8.  Amended: for a log set in which the game dates of the player's
    logs all parse, the player's games by date are the player's logs, most
    recent first, and [hasRecentSnaps] holds exactly when there are at least
    two such games and the two most recent ones both have a defined,
    positive snap count.  For every log set: with fewer than two games
    [hasRecentSnaps] is false; [isOnBye] holds exactly when the player has a
    team (that of the player's first log) and no log of the full set has
    that team at the given week and season; and [isActive] is
    (not [isOnBye]) and [hasRecentSnaps]. *)
Theorem isPlayerActive_status logs pid week season :
  let st := isPlayerActive Date_getTime logs pid week season in
  let own :=
    List.filter (fun log => String.eqb (GameLog.playerId log) pid) logs in
  let games := playerLogsByDate Date_getTime logs pid in
  (datesParse Date_getTime logs pid ->
   (Permutation games own /\ StronglySorted (notLater Date_getTime) games)
   /\ (PlayerStatus.hasRecentSnaps st = true
       <-> exists g1 g2 rest,
             games = g1 :: g2 :: rest
             /\ hasPositiveSnaps g1 /\ hasPositiveSnaps g2))
  /\ ((List.length own < 2)%nat -> PlayerStatus.hasRecentSnaps st = false)
  /\ (PlayerStatus.isOnBye st = true
      <-> exists first rest,
            own = first :: rest
            /\ JS.truthy (GameLog.team first) = true
            /\ forall log, In log logs ->
                 GameLog.team log = GameLog.team first ->
                 ~ (GameLog.week log = Some week
                    /\ GameLog.season log = Some season))
  /\ PlayerStatus.isActive st
     = negb (PlayerStatus.isOnBye st) && PlayerStatus.hasRecentSnaps st.
Proof.
  intros st own games.
  pose proof (playerLogsByDate_spec logs pid) as [Hperm Hsorted].
  fold games own in Hperm, Hsorted.
  assert (Hsnaps : hasSnapsInLastNGames Date_getTime logs pid 2 = true
                   <-> exists g1 g2 rest,
                         games = g1 :: g2 :: rest
                         /\ hasPositiveSnaps g1 /\ hasPositiveSnaps g2).
  { rewrite hasSnapsInLastNGames_two. fold games.
    split; intros (g1 & g2 & rest & Hg & H1 & H2); exists g1, g2, rest;
      (split; [exact Hg|]); split; apply playedSnaps_iff; assumption. }
  assert (Hshort : (List.length own < 2)%nat ->
                   hasSnapsInLastNGames Date_getTime logs pid 2 = false).
  { intros Hlen. apply not_true_is_false. intros E.
    apply Hsnaps in E. destruct E as (g1 & g2 & rest & Hg & _).
    apply Permutation_length in Hperm. rewrite Hg in Hperm.
    simpl in Hperm. lia. }
  subst st. unfold isPlayerActive. fold own.
  destruct own as [|first rest] eqn:Hown.
  - cbn [PlayerStatus.hasRecentSnaps PlayerStatus.isOnBye
         PlayerStatus.isActive].
    split.
    { intros Hdates. split; [split; [exact Hperm|exact (Hsorted Hdates)]|].
      split; [discriminate|]. intros (g1 & g2 & r & Hg & _).
      apply Permutation_length in Hperm. rewrite Hg in Hperm.
      simpl in Hperm. lia. }
    split; [reflexivity|]. split; [|reflexivity].
    split; [discriminate|]. intros (? & ? & H & _). discriminate.
  - cbn [PlayerStatus.hasRecentSnaps PlayerStatus.isOnBye
         PlayerStatus.isActive].
    split.
    { intros Hdates. split; [split; [exact Hperm|exact (Hsorted Hdates)]|].
      exact Hsnaps. }
    split; [exact Hshort|]. split; [|reflexivity].
    destruct (JS.truthy (GameLog.team first)) eqn:Ht.
    + rewrite bool_decide_eq_true, getByeWeekTeams_spec.
      pose proof (truthy_or_str _ Ht) as Hteam.
      assert (Hfirst : In first logs).
      { assert (In first (first :: rest)) as H by (left; reflexivity).
        rewrite <- Hown in H. apply filter_In in H. apply H. }
      split.
      * intros [_ Hno]. exists first, rest. split; [reflexivity|].
        split; [exact Ht|]. intros log Hlog Hsame.
        apply (Hno log Hlog). congruence.
      * intros (f & r & [= <- <-] & _ & Hno). split.
        -- exists first. split; [exact Hfirst|]. split; [exact Ht|].
           exact Hteam.
        -- intros log Hlog Hsame. apply (Hno log Hlog). congruence.
    + split; [discriminate|].
      intros (f & r & [= <- <-] & Ht' & _). congruence.
Qed.
End ActivityFilterProperties.

(** ** The properties at concrete inputs *)

Example toUpperCase_qb : JS.toUpperCase "qb" = "QB".
Proof. reflexivity. Qed.

Example slice0_negative : JS.slice0 (-1) [1; 2; 3]%nat = [1; 2]%nat.
Proof. reflexivity. Qed.

Example isoDateTime_epoch : isoDateTime "1970-01-02" = Some 86400000%Z.
Proof. reflexivity. Qed.

Example normalizeGameLog_alternate :
  Raw.get (normalizeGameLog {[ "passing_yards" := Raw.number 250 ]})
    "pass_yards" = Raw.number 250.
Proof. vm_compute. reflexivity. Qed.

Example normalizeGameLog_canonical_kept :
  Raw.get (normalizeGameLog
             (<[ "pass_yards" := Raw.number 7 ]>
                {[ "passing_yards" := Raw.number 250 ]}))
    "pass_yards" = Raw.number 7.
Proof. vm_compute. reflexivity. Qed.

Example normalizeGameLog_null_filled :
  Raw.get (normalizeGameLog {[ "rec_yards" := Raw.null ]}) "rec_yards"
  = Raw.number 0.
Proof. vm_compute. reflexivity. Qed.

(** A record with an alternate only, a null field with its second
    alternate, and a field present beside its alternate. *)
Lemma normalizeGameLog_fields_witness :
  let raw : gmap string Raw.value :=
    <[ "passing_yards" := Raw.number 250 ]>
      (<[ "pass_tds" := Raw.null ]>
         (<[ "pass_td" := Raw.number 2 ]>
            (<[ "rec" := Raw.number 4 ]>
               {[ "receptions" := Raw.number 6 ]}))) in
  let normalized := normalizeGameLog raw in
  Raw.get normalized "pass_yards" = Raw.number 250
  /\ Raw.get normalized "pass_tds" = Raw.number 2
  /\ normalized !! "receptions" = Some (Raw.number 6)
  /\ Raw.get normalized "rush_yards" = Raw.number 0
  /\ normalized !! "rec" = Some (Raw.number 4).
Proof.
  intros raw normalized.
  destruct (normalizeGameLog_fields raw) as (Hkept & Hcopied & _ & Hother).
  fold normalized in Hkept, Hcopied, Hother.
  split; [|split; [|split; [|split]]].
  - rewrite (Hcopied "pass_yards" ["passing_yards"]);
      [vm_compute; reflexivity|simpl; tauto|vm_compute; reflexivity].
  - rewrite (Hcopied "pass_tds" ["passing_tds"; "pass_td"]);
      [vm_compute; reflexivity|simpl; tauto|vm_compute; reflexivity].
  - rewrite (Hkept "receptions" ["rec"]);
      [vm_compute; reflexivity|simpl; tauto|vm_compute; reflexivity].
  - rewrite (Hcopied "rush_yards" ["rushing_yards"]);
      [vm_compute; reflexivity|simpl; tauto|vm_compute; reflexivity].
  - rewrite Hother; [vm_compute; reflexivity|].
    simpl. intuition discriminate.
Defined.

(** Yards 80, 60, 55, 40, 30, 20 against the threshold 40: four hits in six
    games, band "Fair". *)
Example sixGames_fair :
  let r := calculateProbability sqrtMillis sixGames StatType.rec_yards 40
             DEFAULT_BETA_A DEFAULT_BETA_B in
  ProbResult.rawProb r = 4 # 6 /\ ProbResult.smoothedProb r = 8 # 12
  /\ getConfidenceLevel (ProbResult.smoothedProb r) = Fair.
Proof. vm_compute. repeat split. Qed.

(** Without a sample the result is zero, not the prior mean. *)
Example calculateProbability_no_logs :
  ProbResult.smoothedProb
    (calculateProbability sqrtMillis [] StatType.rec_yards 40
       DEFAULT_BETA_A DEFAULT_BETA_B) = 0.
Proof. reflexivity. Qed.

Lemma calculateProbability_formula_witness :
  hasSufficientStatData sixGames StatType.rec_yards 4 = true
  /\ ProbResult.rawProb
       (calculateProbability sqrtMillis sixGames StatType.rec_yards 40
          DEFAULT_BETA_A DEFAULT_BETA_B)
     == natQ (hitCount sixGames StatType.rec_yards 40)
        / natQ (sampleCount sixGames StatType.rec_yards)
  /\ hitCount sixGames StatType.rec_yards 40 = 4%nat
  /\ sampleCount sixGames StatType.rec_yards = 6%nat.
Proof.
  split; [reflexivity|]. split; [|split; reflexivity].
  apply (calculateProbability_formula sqrtMillis sixGames StatType.rec_yards
           40).
  reflexivity.
Defined.


Lemma generateLegs_lowest_threshold_witness :
  let legs :=
    generateLegs isoDateTime sqrtMillis "p1" None nineGames 9
      DEFAULT_MIN_PROBABILITY DEFAULT_MIN_SAMPLE_SIZE
      DEFAULT_MIN_TOUCHES_PER_GAME in
  List.map (fun leg => (Leg.statType leg, Leg.threshold leg)) legs
  = [(StatType.receptions, 2); (StatType.rec_yards, 25)]
  /\ NoDup (List.map (fun leg => (Leg.playerId leg, Leg.statType leg)) legs).
Proof.
  split; [vm_compute; reflexivity|].
  apply (generateLegs_lowest_threshold isoDateTime sqrtMillis "p1" None
           nineGames 9 DEFAULT_MIN_PROBABILITY DEFAULT_MIN_SAMPLE_SIZE
           DEFAULT_MIN_TOUCHES_PER_GAME).
Defined.

Lemma generateParlays_players_and_size_witness :
  exists p,
    hd_error (generateParlays fourLegs twoLegOptions) = Some p
    /\ NoDup (List.map Leg.playerId (Parlay.legs p))
    /\ Z.of_nat (List.length (Parlay.legs p)) = 2%Z.
Proof.
  eexists. split; [vm_compute; reflexivity|].
  match goal with
  | |- NoDup (List.map _ (Parlay.legs ?p)) /\ _ =>
      pose proof (generateParlays_players_and_size fourLegs twoLegOptions p)
        as H
  end.
  destruct H as (H1 & H2 & _).
  - vm_compute. left. reflexivity.
  - split; [exact H1|exact H2].
Defined.

Lemma generateParlays_one_leg_per_game_witness :
  exists p,
    hd_error (generateParlays fourLegs twoLegOptions) = Some p
    /\ NoDup (List.map gameKey (Parlay.legs p)).
Proof.
  eexists. split; [vm_compute; reflexivity|].
  match goal with
  | |- NoDup (List.map _ (Parlay.legs ?p)) =>
      apply (generateParlays_one_leg_per_game fourLegs twoLegOptions p)
  end.
  - reflexivity.
  - reflexivity.
  - vm_compute. left. reflexivity.
Defined.

(** Four candidate legs, two of them in one game: five valid pairs, and the
    top one is the pair with the highest adjusted probability. *)
Example fourLegs_five_parlays :
  List.map (fun p => List.map Leg.playerId (Parlay.legs p))
    (generateParlays fourLegs twoLegOptions)
  = [["a"; "c"]; ["b"; "c"]; ["a"; "d"]; ["c"; "d"]; ["b"; "d"]].
Proof. vm_compute. reflexivity. Qed.

Lemma getTopParlays_prefix_witness :
  (0 <= 1)%Z
  /\ getTopParlays fourLegs 1 twoLegOptions
     = firstn 1 (generateParlays fourLegs twoLegOptions)
  /\ List.map (fun p => List.map Leg.playerId (Parlay.legs p))
       (getTopParlays fourLegs 1 twoLegOptions) = [["a"; "c"]].
Proof.
  split; [lia|]. split; [|vm_compute; reflexivity].
  apply (getTopParlays_prefix fourLegs 1 twoLegOptions). lia.
Defined.

Lemma calculateParlayPenalties_bounds_witness :
  0 <= PenaltyResult.adjustedProbability (calculateParlayPenalties [legA; legB])
  /\ PenaltyResult.adjustedProbability (calculateParlayPenalties [legA; legB])
     <= calculateParlayProbability [legA; legB].
Proof.
  apply (calculateParlayPenalties_bounds [legA; legB]).
  intros leg [<-|[<-|[]]]; simpl; lra.
Defined.



(** A player with two games, snaps in both, whose team plays in week 10. *)
Example isPlayerActive_example :
  let st := isPlayerActive isoDateTime (firstn 2 sixGames) "p1" 10 2024 in
  PlayerStatus.isActive st = true /\ PlayerStatus.isOnBye st = false
  /\ PlayerStatus.hasRecentSnaps st = true.
Proof. vm_compute. repeat split. Qed.

Example isPlayerActive_bye :
  let st := isPlayerActive isoDateTime (firstn 2 sixGames) "p1" 11 2024 in
  PlayerStatus.isActive st = false /\ PlayerStatus.isOnBye st = true.
Proof. vm_compute. repeat split. Qed.

Example isPlayerActive_one_game :
  PlayerStatus.hasRecentSnaps
    (isPlayerActive isoDateTime (firstn 1 sixGames) "p1" 10 2024) = false.
Proof. vm_compute. reflexivity. Qed.

Lemma isPlayerActive_status_witness :
  let st := isPlayerActive isoDateTime sixGames "p1" 10 2024 in
  let games := playerLogsByDate isoDateTime sixGames "p1" in
  PlayerStatus.hasRecentSnaps st = true
  /\ games = sixGames
  /\ StronglySorted (notLater isoDateTime) games.
Proof.
  destruct (isPlayerActive_status isoDateTime sixGames "p1" 10 2024)
    as [H _].
  destruct H as [[_ Hsorted] _].
  - intros log Hin _. vm_compute in Hin.
    repeat (destruct Hin as [<-|Hin]; [eexists; vm_compute; reflexivity|]).
    destruct Hin.
  - split; [vm_compute; reflexivity|].
    split; [vm_compute; reflexivity|exact Hsorted].
Defined.

(** With a date that does not parse the array is left as it is: the two
    first games have snaps, so [hasRecentSnaps] is true, although the game
    of 2024-11-10, more recent than that of 2024-11-03, has none.  However
    two games with snaps are chosen, another game is dated after one of
    them. *)
Lemma isPlayerActive_status_counterexample :
  let st := isPlayerActive isoDateTime undatedGames "p1" 10 2024 in
  playerLogsByDate isoDateTime undatedGames "p1" = undatedGames
  /\ PlayerStatus.hasRecentSnaps st = true
  /\ ~ (exists g1 g2 rest,
          Permutation undatedGames (g1 :: g2 :: rest)
          /\ hasPositiveSnaps g1 /\ hasPositiveSnaps g2
          /\ forall g, In g rest ->
               ~ datedAfter isoDateTime g g1
               /\ ~ datedAfter isoDateTime g g2).
Proof.
  split; [vm_compute; reflexivity|]. split; [vm_compute; reflexivity|].
  intros (g1 & g2 & rest & Hperm & H1 & H2 & Hrest).
  set (A := snapsGame "2024-11-03" 30) in *.
  set (B := snapsGame "TBD" 30) in *.
  set (C := snapsGame "2024-11-10" 0) in *.
  assert (HC : ~ hasPositiveSnaps C).
  { intros (snaps & Hs & Hpos). injection Hs as <-. revert Hpos.
    vm_compute. discriminate. }
  assert (Hafter : datedAfter isoDateTime C A).
  { eexists _, _. split; [vm_compute; reflexivity|].
    split; [vm_compute; reflexivity|]. vm_compute. reflexivity. }
  assert (Hnd : NoDup (g1 :: g2 :: rest)).
  { eapply Permutation_NoDup; [exact Hperm|].
    repeat constructor; simpl; intuition discriminate. }
  assert (Hin : forall g, In g (g1 :: g2 :: rest) -> g = A \/ g = B \/ g = C).
  { intros g Hg. eapply Permutation_in in Hg;
      [|apply Permutation_sym, Hperm].
    simpl in Hg. intuition auto. }
  assert (HinC : In C rest).
  { assert (In C (g1 :: g2 :: rest)) as H
      by (eapply Permutation_in; [exact Hperm|right; right; left; reflexivity]).
    destruct H as [<-|[<-|H]]; [contradiction|contradiction|exact H]. }
  destruct (Hrest C HinC) as [N1 N2].
  assert (E1 : g1 = B).
  { destruct (Hin g1 (or_introl eq_refl)) as [-> | [-> | ->]];
      [contradiction|reflexivity|contradiction]. }
  assert (E2 : g2 = B).
  { destruct (Hin g2 (or_intror (or_introl eq_refl))) as [-> | [-> | ->]];
      [contradiction|reflexivity|contradiction]. }
  inversion Hnd as [|? ? Hnot _]. apply Hnot. left. congruence.
Qed.

(** * Further properties *)

(** ** Probability engine: the estimates *)

Lemma natQ_le a b : (a <= b)%nat -> natQ a <= natQ b.
Proof. intros H. unfold natQ. rewrite <- Zle_Qle. lia. Qed.

Lemma natQ_pos a : (0 < a)%nat -> 0 < natQ a.
Proof.
  intros H. unfold natQ. change 0 with (inject_Z 0). rewrite <- Zlt_Qlt. lia.
Qed.

Lemma natQ_nonneg a : 0 <= natQ a.
Proof.
  unfold natQ. change 0 with (inject_Z 0). rewrite <- Zle_Qle. lia.
Qed.

Lemma Qdiv_le_cross a b c d :
  0 < b -> 0 < d -> a * d <= c * b -> a / b <= c / d.
Proof.
  intros Hb Hd H. apply Qle_shift_div_r; [exact Hb|].
  assert (c / d * b == c * b / d) as -> by (field; lra).
  apply Qle_shift_div_l; assumption.
Qed.

Lemma Qdiv_lt_one a b : 0 < b -> a < b -> a / b < 1.
Proof. intros Hb H. apply Qlt_shift_div_r; [exact Hb|lra]. Qed.

Lemma Qdiv_le_const a b c : 0 < b -> a <= c * b -> a / b <= c.
Proof. intros Hb H. apply Qle_shift_div_r; assumption. Qed.

Lemma Qdiv_ge_const a b c : 0 < b -> c * b <= a -> c <= a / b.
Proof. intros Hb H. apply Qle_shift_div_l; assumption. Qed.

Section Estimates.
Variable Math_sqrt : Q -> Q.

(** X1.  With at least one game that has the statistic, the raw probability
    of [calculateProbability] lies in [0,1].  Under the default prior
    (a = 4, b = 2) the smoothed probability of n such games lies between
    4/(n+6) and (n+4)/(n+6), so it is never 0 or 1, and it lies between the
    raw probability and the prior mean 2/3. *)
Theorem calculateProbability_shrinkage logs st thr :
  (0 < sampleCount logs st)%nat ->
  let r := calculateProbability Math_sqrt logs st thr
             DEFAULT_BETA_A DEFAULT_BETA_B in
  let n := natQ (sampleCount logs st) in
  (0 <= ProbResult.rawProb r /\ ProbResult.rawProb r <= 1)
  /\ (4 / (n + 6) <= ProbResult.smoothedProb r
      /\ ProbResult.smoothedProb r <= (n + 4) / (n + 6)
      /\ ProbResult.smoothedProb r < 1)
  /\ (ProbResult.rawProb r <= 2 # 3 ->
      ProbResult.rawProb r <= ProbResult.smoothedProb r
      /\ ProbResult.smoothedProb r <= 2 # 3)
  /\ (2 # 3 <= ProbResult.rawProb r ->
      2 # 3 <= ProbResult.smoothedProb r
      /\ ProbResult.smoothedProb r <= ProbResult.rawProb r).
Proof.
  intros Hn r n.
  destruct (calculateProbability_sampled Math_sqrt logs st thr DEFAULT_BETA_A
              DEFAULT_BETA_B Hn) as (_ & Hraw & Hsm & _).
  fold r in Hraw, Hsm. rewrite Hraw, Hsm.
  unfold DEFAULT_BETA_A, DEFAULT_BETA_B. fold n.
  pose proof (natQ_pos _ Hn) as Npos. fold n in Npos.
  pose proof (natQ_le _ _ (hitCount_le logs st thr)) as Hkn. fold n in Hkn.
  pose proof (natQ_nonneg (hitCount logs st thr)) as Hk0.
  set (k := natQ (hitCount logs st thr)) in *.
  assert (H6 : 0 < n + 6) by lra.
  assert (H42 : 0 < n + 4 + 2) by lra.
  split; [split|split; [split; [|split]|split]].
  - apply Qdiv_ge_const; lra.
  - apply Qdiv_le_const; lra.
  - apply Qdiv_le_cross; nra.
  - apply Qdiv_le_cross; nra.
  - apply Qdiv_lt_one; lra.
  - intros H. assert (3 * k <= 2 * n) as Hk.
    { apply (Qmult_le_r _ _ (/ n)); [apply Qinv_lt_0_compat, Npos|].
      assert (3 * k * / n == 3 * (k / n)) as -> by (field; lra).
      assert (2 * n * / n == 2) as -> by (field; lra). lra. }
    split; [apply Qdiv_le_cross; nra|apply Qdiv_le_const; lra].
  - intros H. assert (2 * n <= 3 * k) as Hk.
    { apply (Qmult_le_r _ _ (/ n)); [apply Qinv_lt_0_compat, Npos|].
      assert (3 * k * / n == 3 * (k / n)) as -> by (field; lra).
      assert (2 * n * / n == 2) as -> by (field; lra). lra. }
    split; [apply Qdiv_ge_const; lra|apply Qdiv_le_cross; nra].
Qed.

Lemma hitCount_antitone logs st t1 t2 :
  t1 <= t2 -> (hitCount logs st t2 <= hitCount logs st t1)%nat.
Proof.
  intros Ht. unfold hitCount.
  induction logs as [|log r IH]; simpl; [lia|].
  destruct (GameLog.stat log st) as [v|]; [|exact IH].
  destruct (Qle_bool t2 v) eqn:E2.
  - assert (Qle_bool t1 v = true) as ->.
    { apply Qle_bool_iff. apply Qle_bool_iff in E2. lra. }
    simpl. lia.
  - destruct (Qle_bool t1 v); simpl; lia.
Qed.

(** X2.  Raising the threshold never raises the estimate: for thresholds
    [t1 <= t2] and non-negative prior parameters, the raw and the smoothed
    probability at [t2] are at most those at [t1], while the sample size
    and the listed game values do not depend on the threshold. *)
Theorem calculateProbability_threshold_monotone logs st t1 t2 a b :
  t1 <= t2 -> 0 <= a -> 0 <= b ->
  let r1 := calculateProbability Math_sqrt logs st t1 a b in
  let r2 := calculateProbability Math_sqrt logs st t2 a b in
  ProbResult.smoothedProb r2 <= ProbResult.smoothedProb r1
  /\ ProbResult.rawProb r2 <= ProbResult.rawProb r1
  /\ ProbResult.sampleSize r2 = ProbResult.sampleSize r1
  /\ ProbResult.lastNGameValues r2 = ProbResult.lastNGameValues r1.
Proof.
  intros Ht Ha Hb r1 r2.
  destruct (Nat.eq_dec (sampleCount logs st) 0) as [Hz|Hnz].
  - destruct (calculateProbability_empty Math_sqrt logs st t1 a b Hz)
      as (S1 & R1 & P1).
    destruct (calculateProbability_empty Math_sqrt logs st t2 a b Hz)
      as (S2 & R2 & P2).
    fold r1 in S1, R1, P1. fold r2 in S2, R2, P2.
    rewrite R1, R2, P1, P2, S1, S2.
    split; [lra|]. split; [lra|]. split; [reflexivity|].
    subst r1 r2. unfold calculateProbability.
    destruct logs as [|log rest]; [reflexivity|].
    destruct (definedValues _ _); reflexivity.
  - assert (Hn : (0 < sampleCount logs st)%nat) by lia.
    destruct (calculateProbability_sampled Math_sqrt logs st t1 a b Hn)
      as (S1 & R1 & P1 & _).
    destruct (calculateProbability_sampled Math_sqrt logs st t2 a b Hn)
      as (S2 & R2 & P2 & _).
    fold r1 in S1, R1, P1. fold r2 in S2, R2, P2.
    rewrite R1, R2, P1, P2, S1, S2.
    pose proof (natQ_pos _ Hn) as Npos.
    pose proof (natQ_le _ _ (hitCount_antitone logs st t1 t2 Ht)) as Hk.
    set (n := natQ (sampleCount logs st)) in *.
    set (k1 := natQ (hitCount logs st t1)) in *.
    set (k2 := natQ (hitCount logs st t2)) in *.
    split; [apply Qdiv_le_cross; try lra; nra|].
    split; [apply Qdiv_le_cross; try lra; nra|].
    split; [reflexivity|].
    subst r1 r2. unfold calculateProbability.
    destruct logs as [|log rest]; [reflexivity|].
    destruct (definedValues _ _); reflexivity.
Qed.
End Estimates.

(** ** Confidence bands *)

(** X3.  [getConfidenceLevel] is monotone in the smoothed probability, and
    its four bands are: Elite from 0.85, Strong on [0.75, 0.85), Fair on
    [0.65, 0.75), Speculative below 0.65. *)
Theorem getConfidenceLevel_bands p q :
  (p <= q ->
   (confidenceRank (getConfidenceLevel p)
    <= confidenceRank (getConfidenceLevel q))%nat)
  /\ (getConfidenceLevel p = Elite <-> 85 # 100 <= p)
  /\ (getConfidenceLevel p = Strong <-> 75 # 100 <= p /\ p < 85 # 100)
  /\ (getConfidenceLevel p = Fair <-> 65 # 100 <= p /\ p < 75 # 100)
  /\ (getConfidenceLevel p = Speculative <-> p < 65 # 100).
Proof.
  assert (Hge : forall x y, JS.ge x y = true <-> y <= x) by apply JS_ge_iff.
  assert (Hnge : forall x y, JS.ge x y = false <-> x < y).
  { intros x y. split.
    - intros H. apply Qnot_le_lt. intros H'. apply Hge in H'. congruence.
    - intros H. destruct (JS.ge x y) eqn:E; [|reflexivity].
      apply Hge in E. lra. }
  unfold getConfidenceLevel.
  destruct (JS.ge p (85 # 100)) eqn:P1;
    [apply Hge in P1|apply Hnge in P1];
    (destruct (JS.ge p (75 # 100)) eqn:P2;
     [apply Hge in P2|apply Hnge in P2]);
    (destruct (JS.ge p (65 # 100)) eqn:P3;
     [apply Hge in P3|apply Hnge in P3]);
    (split;
     [intros Hpq;
      destruct (JS.ge q (85 # 100)) eqn:Q1;
      [apply Hge in Q1|apply Hnge in Q1];
      (destruct (JS.ge q (75 # 100)) eqn:Q2;
       [apply Hge in Q2|apply Hnge in Q2]);
      (destruct (JS.ge q (65 # 100)) eqn:Q3;
       [apply Hge in Q3|apply Hnge in Q3]);
      simpl; try lia; lra
     |repeat split; intros; try discriminate; try reflexivity; try lra;
      try (exfalso; lra)]).
Qed.

(** ** Probability engine: the legs of a player *)

Lemma legOrder_le a b : keepsBefore legOrder a b <-> legRanksBefore a b.
Proof.
  unfold keepsBefore, legOrder, legRanksBefore.
  destruct (Qeq_bool (Leg.smoothedProb b) (Leg.smoothedProb a)) eqn:E; simpl.
  - apply Qeq_bool_iff in E. split; [intros H; right; split; [exact E|lra]|].
    intros [H|[_ H]]; lra.
  - apply Qeq_bool_neq in E. split; [intros H; left; lra|].
    intros [H|[H _]]; [lra|contradiction].
Qed.

Lemma legOrder_total a b : legOrder a b <= 0 \/ legOrder b a <= 0.
Proof.
  destruct (legOrder_le a b) as [_ Hab]. destruct (legOrder_le b a) as [_ Hba].
  unfold keepsBefore, legRanksBefore in *.
  destruct (Qlt_le_dec (Leg.smoothedProb b) (Leg.smoothedProb a));
    [left; apply Hab; left; assumption|].
  destruct (Qlt_le_dec (Leg.smoothedProb a) (Leg.smoothedProb b));
    [right; apply Hba; left; assumption|].
  destruct (Qlt_le_dec (JS.or_zero (Leg.consistency b))
              (JS.or_zero (Leg.consistency a))).
  - right. apply Hba. right. split; lra.
  - left. apply Hab. right. split; lra.
Qed.

Lemma legOrder_trans a b c :
  legOrder a b <= 0 -> legOrder b c <= 0 -> legOrder a c <= 0.
Proof.
  intros H1 H2. apply legOrder_le in H1. apply legOrder_le in H2.
  apply legOrder_le. unfold legRanksBefore in *.
  destruct H1 as [H1|[H1 H1']], H2 as [H2|[H2 H2']]; try (left; lra).
  right. split; lra.
Qed.

Lemma legOrder_sorted legs :
  StronglySorted legRanksBefore (JS.sort legOrder legs).
Proof.
  rewrite <- (map_id (JS.sort legOrder legs)).
  apply (StronglySorted_map_weaken (keepsBefore legOrder) legRanksBefore
           (fun _ => True) (fun x => x)).
  - intros x y _ _ H. apply legOrder_le, H.
  - apply Forall_forall. auto.
  - apply (sort_StronglySorted legOrder (fun _ => True)).
    + intros x y _ _. apply legOrder_total.
    + intros x y z _ _ _. apply legOrder_trans.
    + apply Forall_forall. auto.
Qed.

Section PlayerLegs.
Variable Date_getTime : string -> option Z.
Variable Math_sqrt : Q -> Q.

(** X4.  The legs that [generateLegs] returns are ordered by smoothed
    probability descending, ties by consistency ascending (a missing
    consistency counting as zero), and there are at most five of them. *)
Theorem generateLegs_ranked pid name logs lastN minP minS minT :
  let legs := generateLegs Date_getTime Math_sqrt pid name logs lastN minP
                minS minT in
  StronglySorted legRanksBefore legs
  /\ (List.length legs <= 5)%nat.
Proof.
  intros legs. subst legs. rewrite generateLegs_unfold. cbv zeta.
  destruct (JS.lt _ _); [split; [constructor|simpl; lia]|].
  split; [apply legOrder_sorted|].
  rewrite (Permutation_length (sort_Permutation _ _)).
  unfold STAT_THRESHOLDS_entries. simpl. rewrite !length_app.
  assert (forall e, (List.length
            (legsOfStat Math_sqrt pid name
               (recentLogs Date_getTime logs lastN) minP minS e) <= 1)%nat)
    as H.
  { intros e. unfold legsOfStat. destruct (negb _); simpl; [lia|].
    destruct (firstQualifyingLeg _ _ _ _ _ _ _ _); simpl; lia. }
  pose proof (H (StatType.pass_yards, STAT_THRESHOLDS StatType.pass_yards)).
  pose proof (H (StatType.rush_yards, STAT_THRESHOLDS StatType.rush_yards)).
  pose proof (H (StatType.rec_yards, STAT_THRESHOLDS StatType.rec_yards)).
  pose proof (H (StatType.receptions, STAT_THRESHOLDS StatType.receptions)).
  pose proof (H (StatType.pass_tds, STAT_THRESHOLDS StatType.pass_tds)).
  simpl in *. lia.
Qed.


Lemma generateLegs_playerId pid name logs lastN minP minS minT leg :
  In leg (generateLegs Date_getTime Math_sqrt pid name logs lastN minP minS
            minT) ->
  Leg.playerId leg = pid.
Proof.
  intros Hin. apply generateLegs_In in Hin. cbv zeta in Hin.
  destruct Hin as (st & Hs & Hq).
  apply hasSufficientStatData_count in Hs. destruct Hs as [Hs _].
  apply firstQualifyingLeg_Some in Hq; [|lia].
  destruct Hq as (_ & _ & _ & _ & _ & _ & H & _). exact H.
Qed.

Lemma generateLegs_pairs_NoDup pid name logs lastN minP minS minT :
  NoDup (List.map (fun leg => (Leg.playerId leg, Leg.statType leg))
           (generateLegs Date_getTime Math_sqrt pid name logs lastN minP minS
              minT)).
Proof.
  apply (NoDup_map_finer Leg.statType); [intros x y H; congruence|].
  rewrite generateLegs_unfold. cbv zeta.
  destruct (JS.lt _ _); [constructor|].
  eapply Permutation_NoDup;
    [apply Permutation_map, Permutation_sym, sort_Permutation|].
  apply (flat_map_NoDup fst).
  - simpl. repeat constructor; simpl; intuition discriminate.
  - intros e. unfold legsOfStat.
    destruct (negb _); simpl; [lia|].
    destruct (firstQualifyingLeg _ _ _ _ _ _ _ _); simpl; lia.
  - intros e b. unfold legsOfStat.
    destruct (hasSufficientStatData _ _ _) eqn:Hs; simpl; [|intros []].
    destruct (firstQualifyingLeg _ _ _ _ _ _ _ _) eqn:Hq; simpl;
      [|intros []].
    intros [<-|[]].
    apply hasSufficientStatData_count in Hs. destruct Hs as [Hs _].
    apply firstQualifyingLeg_Some in Hq; [|lia].
    destruct Hq as (_ & _ & _ & _ & _ & _ & _ & H & _). exact H.
Qed.


Lemma recentLogs_length logs lastN :
  (List.length (recentLogs Date_getTime logs lastN) <= List.length logs)%nat
  /\ ((0 <= lastN)%Z ->
      List.length (recentLogs Date_getTime logs lastN)
      = Nat.min (Z.to_nat lastN) (List.length logs)).
Proof.
  unfold recentLogs.
  pose proof (Permutation_length (sort_Permutation (byDateDesc Date_getTime) logs))
    as Hp.
  split.
  - unfold JS.slice0. destruct (lastN <? 0)%Z; rewrite length_firstn; lia.
  - intros H. rewrite slice0_nonneg by exact H. rewrite length_firstn. lia.
Qed.

(** Fewer than four selected games give no leg. *)
Lemma generateLegs_recent_few pid name logs lastN minP minS minT :
  (List.length (recentLogs Date_getTime logs lastN) < 4)%nat ->
  generateLegs Date_getTime Math_sqrt pid name logs lastN minP minS minT = [].
Proof.
  intros Hlen.
  destruct (generateLegs Date_getTime Math_sqrt pid name logs lastN minP minS
              minT) as [|leg rest] eqn:E; [reflexivity|].
  exfalso.
  assert (In leg (generateLegs Date_getTime Math_sqrt pid name logs lastN
                    minP minS minT)) as Hin by (rewrite E; left; reflexivity).
  apply generateLegs_In in Hin. cbv zeta in Hin.
  destruct Hin as (st & Hs & _).
  apply hasSufficientStatData_count in Hs. destruct Hs as [Hs _].
  assert (sampleCount (recentLogs Date_getTime logs lastN) st
          <= List.length (recentLogs Date_getTime logs lastN))%nat.
  { unfold sampleCount. apply filter_length_le. }
  lia.
Qed.

(** X6.  [generateLegs] returns no leg for a player with fewer than four
    game logs, or when fewer than four games are selected
    ([0 <= lastN < 4]). *)
Theorem generateLegs_few_games pid name logs lastN minP minS minT :
  (List.length logs < 4)%nat \/ (0 <= lastN < 4)%Z ->
  generateLegs Date_getTime Math_sqrt pid name logs lastN minP minS minT = [].
Proof.
  intros Hfew. apply generateLegs_recent_few.
  destruct (recentLogs_length logs lastN) as [Hle Heq].
  destruct Hfew as [H|H]; [lia|]. rewrite Heq by lia. lia.
Qed.

(** The loop throws at the first player id that names an inherited member
    of the record, and otherwise appends every player's legs. *)
Lemma collectLegs_spec gameLogsByPlayerId lastN minP minS minT players :
  forall allLegs,
  let inherited (player : string * option string) :=
    match gameLogsByPlayerId !! fst player with
    | Some _ => false
    | None => existsb (String.eqb (fst player)) Object_prototype_names
    end in
  let legsOf (player : string * option string) :=
    let logs := match gameLogsByPlayerId !! fst player with
                | Some logs => logs
                | None => []
                end in
    generateLegs Date_getTime Math_sqrt (fst player) (snd player) logs
      (JS.nullish lastN (Z.of_nat (List.length logs))) minP minS minT in
  collectLegs Date_getTime Math_sqrt players gameLogsByPlayerId lastN minP
    minS minT allLegs
  = if existsb inherited players then TypeError
    else Normal (allLegs ++ flat_map legsOf players).
Proof.
  induction players as [|[id name] rest IH]; intros allLegs inherited legsOf.
  - simpl. rewrite app_nil_r. reflexivity.
  - cbn [collectLegs existsb flat_map]. unfold inherited at 1.
    subst legsOf. cbn [fst snd]. unfold Record_get.
    destruct (gameLogsByPlayerId !! id) as [logs|].
    + cbn [orb]. rewrite IH. cbv zeta. fold inherited.
      destruct (existsb inherited rest); [reflexivity|].
      rewrite <- app_assoc. reflexivity.
    + destruct (existsb (String.eqb id) Object_prototype_names);
        [reflexivity|].
      cbn [orb]. rewrite IH. cbv zeta. fold inherited.
      destruct (existsb inherited rest); [reflexivity|].
      rewrite <- app_assoc. reflexivity.
Qed.

(** X7.  [generateLegsForPlayers] throws a [TypeError] when some player id
    has no entry of its own in the record and names a member that the
    record inherits from [Object.prototype] (such as [toString]).
    Otherwise it returns the legs of all players, each player's legs
    computed by [generateLegs] from the player's own logs (all of them when
    [lastN] is missing), merged into one list ordered by smoothed
    probability descending, ties by consistency ascending; a player
    without an entry in the record contributes no leg, and with distinct
    player ids no two legs share player and stat type. *)
Theorem generateLegsForPlayers_merge players gameLogsByPlayerId lastN minP
    minS minT :
  let inherited (player : string * option string) :=
    match gameLogsByPlayerId !! fst player with
    | Some _ => false
    | None => existsb (String.eqb (fst player)) Object_prototype_names
    end in
  let legsOf (player : string * option string) :=
    let logs := match gameLogsByPlayerId !! fst player with
                | Some logs => logs
                | None => []
                end in
    generateLegs Date_getTime Math_sqrt (fst player) (snd player) logs
      (JS.nullish lastN (Z.of_nat (List.length logs))) minP minS minT in
  let result := generateLegsForPlayers Date_getTime Math_sqrt players
                  gameLogsByPlayerId lastN minP minS minT in
  (existsb inherited players = true -> result = TypeError)
  /\ (existsb inherited players = false ->
      exists all,
        result = Normal all
        /\ Permutation all (flat_map legsOf players)
        /\ StronglySorted legRanksBefore all
        /\ (forall player, In player players ->
              gameLogsByPlayerId !! fst player = None ->
              legsOf player = [])
        /\ (NoDup (List.map fst players) ->
            NoDup (List.map (fun leg => (Leg.playerId leg, Leg.statType leg))
                     all))).
Proof.
  intros inherited legsOf result.
  assert (Hres : result
                 = if existsb inherited players then TypeError
                   else Normal (JS.sort legOrder (flat_map legsOf players))).
  { subst result. unfold generateLegsForPlayers.
    rewrite collectLegs_spec. cbv zeta. fold inherited.
    destruct (existsb inherited players); reflexivity. }
  split; [intros E; rewrite Hres, E; reflexivity|].
  intros E. rewrite E in Hres.
  exists (JS.sort legOrder (flat_map legsOf players)).
  split; [exact Hres|].
  split; [apply sort_Permutation|].
  split; [apply legOrder_sorted|].
  split.
  - intros player _ Hnone. subst legsOf. cbv beta. rewrite Hnone.
    apply generateLegs_recent_few.
    destruct (recentLogs_length [] (JS.nullish lastN (Z.of_nat 0))) as [Hle _].
    simpl in Hle |- *. lia.
  - intros Hnd.
    eapply Permutation_NoDup;
      [apply Permutation_map, Permutation_sym, sort_Permutation|].
    clear Hres E result. induction players as [|player rest IH]; simpl;
      [constructor|].
    inversion Hnd as [|? ? Hnotin Hnd']; subst.
    rewrite map_app. apply NoDup_app.
    + subst legsOf. cbv beta.
      apply (generateLegs_pairs_NoDup (fst player) (snd player)).
    + apply IH, Hnd'.
    + intros x Hx1 Hx2. apply Hnotin.
      apply in_map_iff in Hx1. destruct Hx1 as (l1 & <- & Hl1).
      apply in_map_iff in Hx2. destruct Hx2 as (l2 & Heq & Hl2).
      apply in_flat_map in Hl2. destruct Hl2 as (p2 & Hp2 & Hl2).
      subst legsOf. cbv beta in Hl1, Hl2.
      apply generateLegs_playerId in Hl1. apply generateLegs_playerId in Hl2.
      injection Heq as Hid _. apply in_map_iff. exists p2.
      split; [congruence|exact Hp2].
Qed.
End PlayerLegs.

(** ** Stat normalizer: fixed points *)

Lemma normalizeGameLog_get (gameLog : gmap string Raw.value) field :
  In field expectedStatFields ->
  Raw.get (normalizeGameLog gameLog) field
  = if Raw.nullish (Raw.get gameLog field)
    then firstDefined gameLog (altKeys statMappings field)
    else Raw.get gameLog field.
Proof.
  intros Hf. unfold normalizeGameLog. rewrite fill_phase.
  replace (existsb (String.eqb field) expectedStatFields) with true.
  2:{ symmetry. apply existsb_exists. exists field.
      split; [done|apply String.eqb_refl]. }
  rewrite (mapping_phase statMappings gameLog gameLog);
    auto using statMappings_disjoint.
  apply orZero_mapValue.
Qed.

Lemma normalizeGameLog_other (gameLog : gmap string Raw.value) key :
  ~ In key expectedStatFields ->
  normalizeGameLog gameLog !! key = gameLog !! key.
Proof.
  intros Hk. unfold normalizeGameLog.
  rewrite fill_phase_other by done. apply mapping_phase_other.
  intros Hin. apply Hk. simpl in *. tauto.
Qed.

Lemma Raw_lookup_of_get (m m' : gmap string Raw.value) k :
  Raw.get m' k = Raw.get m k -> Raw.nullish (Raw.get m k) = false ->
  m' !! k = m !! k.
Proof.
  unfold Raw.get. intros Hg Hn.
  destruct (m !! k) as [v|]; [|discriminate Hn].
  destruct (m' !! k) as [w|]; [congruence|]. subst v. discriminate Hn.
Qed.

(** X8.  [normalizeGameLog] is idempotent, and it returns a log whose five
    expected stat fields are all defined unchanged. *)
Theorem normalizeGameLog_idempotent (gameLog : gmap string Raw.value) :
  normalizeGameLog (normalizeGameLog gameLog) = normalizeGameLog gameLog
  /\ ((forall field, In field expectedStatFields ->
         Raw.nullish (Raw.get gameLog field) = false) ->
      normalizeGameLog gameLog = gameLog).
Proof.
  assert (Hfix : forall m : gmap string Raw.value,
            (forall field, In field expectedStatFields ->
               Raw.nullish (Raw.get m field) = false) ->
            normalizeGameLog m = m).
  { intros m Hdef. apply map_eq. intros k.
    destruct (in_dec string_dec k expectedStatFields) as [Hin|Hout].
    - apply Raw_lookup_of_get; [|apply Hdef, Hin].
      rewrite normalizeGameLog_get by exact Hin.
      rewrite (Hdef k Hin). reflexivity.
    - apply normalizeGameLog_other, Hout. }
  split; [|apply Hfix].
  apply Hfix. intros field Hin. rewrite normalizeGameLog_get by exact Hin.
  destruct (Raw.nullish (Raw.get gameLog field)) eqn:E;
    [apply firstDefined_defined|exact E].
Qed.

(** ** Correlation penalties: teams and stacks *)

Lemma pushTeamLeg_absent (f g : string -> list Leg.t) team leg ks :
  existsb (String.eqb team) ks = false ->
  (forall k, k <> team -> g k = f k) -> g team = [leg] ->
  pushTeamLeg team leg (List.map (fun k => (k, f k)) ks)
  = List.map (fun k => (k, g k)) (ks ++ [team]).
Proof.
  intros Hk Hg Hv. induction ks as [|k r IH]; simpl.
  - rewrite Hv. reflexivity.
  - simpl in Hk. apply orb_false_elim in Hk. destruct Hk as [Hk Hr].
    rewrite String.eqb_sym, Hk. rewrite IH by exact Hr.
    rewrite (Hg k); [reflexivity|]. intros ->.
    rewrite String.eqb_refl in Hk. discriminate.
Qed.

Lemma pushTeamLeg_present (f g : string -> list Leg.t) team leg ks :
  NoDup ks -> In team ks ->
  (forall k, k <> team -> g k = f k) -> g team = f team ++ [leg] ->
  pushTeamLeg team leg (List.map (fun k => (k, f k)) ks)
  = List.map (fun k => (k, g k)) ks.
Proof.
  intros Hnd Hin Hg Hv. induction ks as [|k r IH]; simpl; [destruct Hin|].
  inversion Hnd as [|? ? Hnotin Hnd']; subst.
  destruct (String.eqb_spec k team) as [->|Hne].
  - rewrite Hv. f_equal. apply map_ext_in. intros a Ha. rewrite Hg;
      [reflexivity|]. intros ->. contradiction.
  - rewrite (Hg k Hne). f_equal. apply IH; [exact Hnd'|].
    destruct Hin as [->|Hin]; [contradiction|exact Hin].
Qed.

Lemma teamsOf_snoc legs leg :
  teamsOf (legs ++ [leg])
  = teamsOf legs ++ match Leg.team leg with
                    | Some (String c s) => [String c s]
                    | _ => []
                    end.
Proof.
  unfold teamsOf. rewrite flat_map_app. simpl. rewrite app_nil_r.
  reflexivity.
Qed.

Lemma legsOnTeam_snoc legs leg team :
  legsOnTeam (legs ++ [leg]) team
  = legsOnTeam legs team
    ++ match Leg.team leg with
       | Some (String c s) => if String.eqb (String c s) team then [leg] else []
       | _ => []
       end.
Proof.
  unfold legsOnTeam. rewrite filter_app. simpl.
  destruct (Leg.team leg) as [[|c s]|]; reflexivity.
Qed.

Lemma legsOnTeam_absent legs team :
  ~ In team (teamsOf legs) -> legsOnTeam legs team = [].
Proof.
  induction legs as [|leg r IH]; [reflexivity|].
  change (leg :: r) with ([leg] ++ r).
  unfold teamsOf, legsOnTeam in *. rewrite flat_map_app, filter_app.
  rewrite in_app_iff. intros H.
  rewrite IH by tauto. rewrite app_nil_r. cbn [List.filter].
  cbn [flat_map] in H. rewrite app_nil_r in H.
  destruct (Leg.team leg) as [[|c s]|]; try reflexivity.
  destruct (String.eqb_spec (String c s) team) as [E|E]; [|reflexivity].
  exfalso. apply H. left. left. exact E.
Qed.

(** The team-counting loop yields every team once, in first occurrence
    order, with its leg count and with its legs in leg order. *)
Lemma countTeams_spec legs :
  countTeams legs = (teamCountsOf legs, teamGroupsOf legs).
Proof.
  unfold teamCountsOf, teamGroupsOf.
  induction legs as [|leg legs IH] using rev_ind; [reflexivity|].
  unfold countTeams in *. rewrite fold_left_app. cbn [fold_left]. rewrite IH.
  rewrite teamsOf_snoc.
  destruct (Leg.team leg) as [[|c s]|] eqn:Ht.
  - rewrite app_nil_r. f_equal; apply map_ext; intros t;
      rewrite legsOnTeam_snoc, Ht, app_nil_r; reflexivity.
  - set (teams := teamsOf legs).
    rewrite firstOccurrences_snoc.
    destruct (firstOccurrences_spec teams) as [Hnd Hin].
    assert (Hsame : legsOnTeam (legs ++ [leg]) (String c s)
                    = legsOnTeam legs (String c s) ++ [leg]).
    { rewrite legsOnTeam_snoc, Ht. rewrite String.eqb_refl. reflexivity. }
    assert (Hother : forall k, k <> String c s ->
              legsOnTeam (legs ++ [leg]) k = legsOnTeam legs k).
    { intros k Hne. rewrite legsOnTeam_snoc, Ht.
      destruct (String.eqb_spec (String c s) k) as [E|E];
        [exfalso; apply Hne; symmetry; exact E|apply app_nil_r]. }
    assert (Hbump : JS.Map_bump (String c s)
              (List.map (fun t => (t, List.length (legsOnTeam legs t)))
                 (firstOccurrences teams))
            = List.length (legsOnTeam (legs ++ [leg]) (String c s))).
    { unfold JS.Map_bump. rewrite Map_get_keys, Hsame, length_app.
      cbn [List.length].
      destruct (existsb (String.eqb (String c s)) (firstOccurrences teams))
        eqn:E; cbn [JS.nullish]; [reflexivity|].
      rewrite legsOnTeam_absent; [reflexivity|].
      fold teams. rewrite <- Hin. intros H. apply existsb_eqb_In in H.
      congruence. }
    rewrite Hbump.
    destruct (existsb (String.eqb (String c s)) (firstOccurrences teams))
      eqn:E.
    + f_equal.
      * apply Map_set_present; auto; [apply existsb_eqb_In, E|].
        intros k Hne. rewrite Hother by exact Hne. reflexivity.
      * apply pushTeamLeg_present; auto. apply existsb_eqb_In, E.
    + f_equal.
      * apply Map_set_absent; auto.
        intros k Hne. rewrite Hother by exact Hne. reflexivity.
      * apply pushTeamLeg_absent; auto.
        rewrite Hsame, legsOnTeam_absent; [reflexivity|].
        fold teams. rewrite <- Hin. intros H. apply existsb_eqb_In in H.
        congruence.
  - rewrite app_nil_r. f_equal; apply map_ext; intros t;
      rewrite legsOnTeam_snoc, Ht, app_nil_r; reflexivity.
Qed.

Lemma product_const {E} (c : Q) (es : list E) :
  ~ c == 0 ->
  fold_left (fun m (_ : E) => m * c) es 1 == JS.Math_pow c (List.length es).
Proof.
  intros Hnz. induction es as [|e r IH]; simpl; [reflexivity|].
  rewrite product_from, IH.
  change (JS.Math_pow c (S (List.length r)))
    with (JS.Math_pow c (S (List.length r))).
  rewrite (Math_pow_succ c (List.length r) Hnz). ring.
Qed.

Lemma teamPenalties_explicit legs :
  PenaltyState.penalties (teamPenalties legs)
  = List.map sameTeamEntry (sharedTeams legs)
    ++ List.map stackEntry (stackedTeams legs)
  /\ PenaltyState.multiplier (teamPenalties legs)
     == fold_left (fun m team => m * sameTeamFactor (snd team))
          (sharedTeams legs) 1
        * JS.Math_pow (85 # 100) (List.length (stackedTeams legs)).
Proof.
  unfold teamPenalties. rewrite countTeams_spec.
  rewrite stackPenalties_loop, sameTeamPenalties_loop. simpl.
  fold (sharedTeams legs) (stackedTeams legs). split; [reflexivity|].
  rewrite product_from, product_const by discriminate. reflexivity.
Qed.

Lemma calculateParlayPenalties_entries legs :
  PenaltyResult.penalties (calculateParlayPenalties legs)
  = List.map sameGameEntry (sharedGames legs)
    ++ List.map sameTeamEntry (sharedTeams legs)
    ++ List.map stackEntry (stackedTeams legs).
Proof.
  destruct (calculateParlayPenalties_parts legs) as [Hp _].
  destruct (teamPenalties_explicit legs) as [Tp _].
  cbv zeta in Hp. rewrite Hp, Tp. reflexivity.
Qed.

(** X9.  The penalties of [calculateParlayPenalties] are, in this order:
    one "same_game" entry per game key shared by several legs, one
    "same_team" entry per team with several legs, and one "qb_wr_stack"
    entry per team that has both a quarterback's passing-yards leg and a
    receiving-yards leg of a wide receiver or tight end; games and teams in
    the order of their first leg.  The adjusted probability is the base
    probability times the product of all their factors (0.90 and 0.95
    raised to the number of extra legs, 0.85 per stack), floored at zero. *)
Theorem calculateParlayPenalties_explicit legs :
  let r := calculateParlayPenalties legs in
  PenaltyResult.penalties r
  = List.map sameGameEntry (sharedGames legs)
    ++ List.map sameTeamEntry (sharedTeams legs)
    ++ List.map stackEntry (stackedTeams legs)
  /\ PenaltyResult.adjustedProbability r
     == JS.Math_max (calculateParlayProbability legs * penaltyMultiplier legs) 0
  /\ (NoDup (List.map fst (sharedTeams legs))
      /\ forall team count,
           In (team, count) (sharedTeams legs)
           <-> (count = List.length (legsOnTeam legs team)
                /\ (1 < count)%nat))
  /\ (NoDup (List.map fst (stackedTeams legs))
      /\ forall team group,
           In (team, group) (stackedTeams legs)
           <-> (group = legsOnTeam legs team /\ group <> []
                /\ existsb isQBPassingYards group = true
                /\ existsb isWRTEReceivingYards group = true)).
Proof.
  intros r.
  destruct (calculateParlayPenalties_parts legs) as [Hp Ha].
  destruct (teamPenalties_explicit legs) as [Tp Tm].
  fold r in Hp, Ha.
  destruct (firstOccurrences_spec (teamsOf legs)) as [Hnd Hin].
  assert (Hfst : forall {V} (f : string -> V) (P : string * V -> bool) ks,
             NoDup ks ->
             NoDup (List.map fst
                      (List.filter P (List.map (fun k => (k, f k)) ks)))).
  { intros V f P ks. induction 1 as [|k ks Hk Hks IH]; simpl; [constructor|].
    destruct (P (k, f k)); simpl; [|exact IH].
    constructor; [|exact IH]. intros H.
    apply in_map_iff in H. destruct H as ([k' v] & Heq & H). simpl in Heq.
    subst k'. apply filter_In in H. destruct H as [H _].
    apply in_map_iff in H. destruct H as (k2 & Heq & H).
    injection Heq as <- _. contradiction. }
  split; [rewrite Hp, Tp; reflexivity|].
  split.
  { rewrite Ha. apply Math_max_compat. unfold penaltyMultiplier.
    rewrite Tm. ring. }
  split; split.
  - apply Hfst, Hnd.
  - intros team count. unfold sharedTeams, teamCountsOf.
    rewrite filter_In, in_map_iff. split.
    + intros [(k & Heq & _) Hc]. injection Heq as <- <-.
      apply Nat.ltb_lt in Hc. split; [reflexivity|exact Hc].
    + intros [-> Hc]. split; [|apply Nat.ltb_lt, Hc].
      exists team. split; [reflexivity|]. apply Hin.
      destruct (in_dec string_dec team (teamsOf legs)) as [H|H]; [exact H|].
      apply legsOnTeam_absent in H. rewrite H in Hc. simpl in Hc. lia.
  - apply Hfst, Hnd.
  - intros team group. unfold stackedTeams, teamGroupsOf.
    rewrite filter_In, in_map_iff. unfold stacked. simpl. split.
    + intros [(k & Heq & _) Hs]. injection Heq as <- <-.
      apply andb_true_iff in Hs. destruct Hs as [H1 H2].
      split; [reflexivity|]. split; [|split; assumption].
      intros E. rewrite E in H1. discriminate.
    + intros (-> & Hne & H1 & H2). split; [|rewrite H1, H2; reflexivity].
      exists team. split; [reflexivity|]. apply Hin.
      destruct (in_dec string_dec team (teamsOf legs)) as [H|H]; [exact H|].
      apply legsOnTeam_absent in H. contradiction.
Qed.

Lemma legsInGame_count legs key :
  legsInGame legs key = count_occ string_dec (List.map gameKey legs) key.
Proof.
  unfold legsInGame.
  induction legs as [|leg r IH]; [reflexivity|].
  cbn [List.map count_occ List.filter].
  destruct (string_dec (gameKey leg) key) as [E|E];
    destruct (String.eqb_spec (gameKey leg) key); try contradiction;
    cbn [List.length]; congruence.
Qed.

Lemma legsOnTeam_count legs team :
  List.length (legsOnTeam legs team) = count_occ string_dec (teamsOf legs) team.
Proof.
  induction legs as [|leg r IH]; [reflexivity|].
  change (leg :: r) with ([leg] ++ r).
  unfold teamsOf, legsOnTeam in *.
  rewrite flat_map_app, filter_app, length_app, count_occ_app, IH.
  f_equal. cbn [List.filter flat_map]. rewrite app_nil_r.
  destruct (Leg.team leg) as [[|c s]|]; try reflexivity.
  cbn [count_occ List.length].
  destruct (string_dec (String c s) team) as [E|E];
    destruct (String.eqb_spec (String c s) team); try contradiction;
    reflexivity.
Qed.

Lemma filter_keys_nil {V} (f : string -> V) (P : string * V -> bool) ks :
  List.filter P (List.map (fun k => (k, f k)) ks) = []
  <-> forall k, In k ks -> P (k, f k) = false.
Proof.
  induction ks as [|k r IH]; simpl.
  - split; [intros _ ? []|reflexivity].
  - destruct (P (k, f k)) eqn:E.
    + split; [discriminate|]. intros H. specialize (H k (or_introl eq_refl)).
      congruence.
    + rewrite IH. split.
      * intros H k' [<-|Hk']; [exact E|apply H, Hk'].
      * intros H k' Hk'. apply H. right. exact Hk'.
Qed.

Lemma sharedGames_nil legs :
  sharedGames legs = [] <-> NoDup (List.map gameKey legs).
Proof.
  unfold sharedGames, gamesOf. rewrite filter_keys_nil, NoDup_count_occ.
  destruct (firstOccurrences_spec (List.map gameKey legs)) as [_ Hin].
  split.
  - intros H k. rewrite <- legsInGame_count.
    destruct (in_dec string_dec k (List.map gameKey legs)) as [Hk|Hk].
    + apply Hin in Hk. specialize (H k Hk). apply Nat.ltb_ge in H. exact H.
    + rewrite legsInGame_absent by exact Hk. lia.
  - intros H k _. apply Nat.ltb_ge. rewrite legsInGame_count. apply H.
Qed.

Lemma sharedTeams_nil legs :
  sharedTeams legs = [] <-> NoDup (teamsOf legs).
Proof.
  unfold sharedTeams, teamCountsOf.
  rewrite (filter_keys_nil (fun team => List.length (legsOnTeam legs team))).
  rewrite NoDup_count_occ.
  destruct (firstOccurrences_spec (teamsOf legs)) as [_ Hin].
  split.
  - intros H k. rewrite <- legsOnTeam_count.
    destruct (in_dec string_dec k (teamsOf legs)) as [Hk|Hk].
    + apply Hin in Hk. specialize (H k Hk). apply Nat.ltb_ge in H. exact H.
    + rewrite legsOnTeam_absent by exact Hk. simpl. lia.
  - intros H k _. apply Nat.ltb_ge. rewrite legsOnTeam_count. apply H.
Qed.

Lemma not_both_roles leg :
  isQBPassingYards leg && isWRTEReceivingYards leg = false.
Proof.
  unfold isQBPassingYards, isWRTEReceivingYards.
  destruct (Leg.statType leg); simpl;
    rewrite ?andb_false_r, ?andb_false_l; reflexivity.
Qed.

(** A group with a stack has at least two legs. *)
Lemma stacked_two_legs team group :
  stacked (team, group) = true -> (1 < List.length group)%nat.
Proof.
  unfold stacked. simpl. intros H. apply andb_true_iff in H.
  destruct H as [H1 H2].
  destruct group as [|a [|b r]]; simpl in *; [discriminate| |lia].
  rewrite !orb_false_r in *. pose proof (not_both_roles a) as H.
  rewrite H1, H2 in H. discriminate.
Qed.

Lemma stackedTeams_shared legs :
  sharedTeams legs = [] -> stackedTeams legs = [].
Proof.
  unfold sharedTeams, teamCountsOf, stackedTeams, teamGroupsOf.
  rewrite (filter_keys_nil (fun team => List.length (legsOnTeam legs team))),
    (filter_keys_nil (fun team => legsOnTeam legs team)).
  intros H k Hk. specialize (H k Hk). apply Nat.ltb_ge in H.
  destruct (stacked (k, legsOnTeam legs k)) eqn:E; [|reflexivity].
  apply stacked_two_legs in E. lia.
Qed.

(** X10.  [calculateParlayPenalties] applies no penalty exactly when the
    legs have pairwise distinct game keys and, legs without a team aside,
    pairwise distinct teams; the adjusted probability is then the base
    probability, floored at zero. *)
Theorem calculateParlayPenalties_independent legs :
  let r := calculateParlayPenalties legs in
  (PenaltyResult.penalties r = []
   <-> NoDup (List.map gameKey legs) /\ NoDup (teamsOf legs))
  /\ (PenaltyResult.penalties r = [] ->
      PenaltyResult.adjustedProbability r
      == JS.Math_max (calculateParlayProbability legs) 0).
Proof.
  intros r.
  destruct (calculateParlayPenalties_parts legs) as [Hp Ha].
  destruct (teamPenalties_explicit legs) as [Tp Tm].
  fold r in Hp, Ha. rewrite Tp in Hp.
  assert (Hiff : PenaltyResult.penalties r = []
                 <-> sharedGames legs = [] /\ sharedTeams legs = []).
  { rewrite Hp. split.
    - intros H. apply app_eq_nil in H. destruct H as [H1 H2].
      apply app_eq_nil in H2. destruct H2 as [H2 _].
      apply map_eq_nil in H1, H2. split; assumption.
    - intros [H1 H2]. rewrite H1, H2, (stackedTeams_shared legs H2).
      reflexivity. }
  split.
  - rewrite Hiff, sharedGames_nil, sharedTeams_nil. reflexivity.
  - intros H. apply Hiff in H. destruct H as [H1 H2].
    rewrite Ha. apply Math_max_compat. rewrite Tm, H1, H2.
    rewrite (stackedTeams_shared legs H2). unfold factorProduct, JS.Math_pow.
    simpl. ring.
Qed.

(** *** The stacking rule and the stack penalty *)

Lemma violatesSameTeamStack_iff a b :
  violatesSameTeamStack a b false = true
  <-> exists c s,
        Leg.team a = Some (String c s) /\ Leg.team b = Some (String c s)
        /\ ((isQBPassingYards a = true /\ isWRTEReceivingYards b = true)
            \/ (isQBPassingYards b = true /\ isWRTEReceivingYards a = true)).
Proof.
  unfold violatesSameTeamStack, opt_str_neq, JS.truthy.
  destruct (Leg.team a) as [[|c s]|], (Leg.team b) as [[|c' s']|];
    cbn [negb orb];
    try (split; [discriminate|intros (? & ? & ? & ? & _); discriminate]).
  destruct (String.eqb_spec (String c s) (String c' s')) as [E|E]; cbn [negb].
  - rewrite orb_true_iff, !andb_true_iff. split.
    + intros H. exists c, s. rewrite <- E. auto.
    + intros (? & ? & _ & _ & H). exact H.
  - split; [discriminate|]. intros (? & ? & H1 & H2 & _). congruence.
Qed.

Lemma violatesSameTeamStack_sym a b :
  violatesSameTeamStack a b false = violatesSameTeamStack b a false.
Proof.
  apply eq_true_iff_eq. rewrite !violatesSameTeamStack_iff.
  split; intros (c & s & H1 & H2 & H); exists c, s; tauto.
Qed.

Lemma violatesSameTeamStack_self a : violatesSameTeamStack a a false = false.
Proof.
  apply not_true_is_false. rewrite violatesSameTeamStack_iff.
  intros (c & s & _ & _ & [[H1 H2]|[H1 H2]]);
    pose proof (not_both_roles a) as H; rewrite H1, H2 in H; discriminate.
Qed.

(** The [i < j] loops find a violation exactly when some two legs, in
    either order, violate the rule. *)
Lemma noStackViolation_pairs legs :
  noStackViolation legs false = true
  <-> forall a b, In a legs -> In b legs ->
        violatesSameTeamStack a b false = false.
Proof.
  induction legs as [|x r IH]; cbn [noStackViolation].
  - split; [intros _ ? ? []|reflexivity].
  - rewrite andb_true_iff, forallb_forall, IH. split.
    + intros [Hx Hr] a b [<-|Ha] [<-|Hb].
      * apply violatesSameTeamStack_self.
      * apply negb_true_iff, Hx, Hb.
      * rewrite violatesSameTeamStack_sym. apply negb_true_iff, Hx, Ha.
      * apply Hr; assumption.
    + intros H. split.
      * intros b Hb.
        apply negb_true_iff, H; [left; reflexivity|right; exact Hb].
      * intros a b Ha Hb. apply H; right; assumption.
Qed.

Lemma legsOnTeam_In legs team leg :
  In leg (legsOnTeam legs team)
  <-> In leg legs /\ team <> "" /\ Leg.team leg = Some team.
Proof.
  unfold legsOnTeam. rewrite filter_In.
  destruct (Leg.team leg) as [[|c s]|].
  - split; [intros [_ H]; discriminate|].
    intros (_ & H1 & H2). congruence.
  - destruct (String.eqb_spec (String c s) team) as [E|E].
    + subst team. split; [|tauto]. intros [H _]. split; [exact H|].
      split; [discriminate|reflexivity].
    + split; [intros [_ H]; discriminate|]. intros (_ & _ & H). congruence.
  - split; [intros [_ H]; discriminate|]. intros (_ & _ & H). discriminate.
Qed.

Lemma teamsOf_In legs team :
  In team (teamsOf legs)
  <-> exists leg, In leg legs /\ team <> "" /\ Leg.team leg = Some team.
Proof.
  unfold teamsOf. rewrite in_flat_map. split.
  - intros (leg & Hl & H). exists leg. split; [exact Hl|].
    destruct (Leg.team leg) as [[|c s]|]; [destruct H| |destruct H].
    destruct H as [<-|[]]. split; [discriminate|reflexivity].
  - intros (leg & Hl & Hne & Ht). exists leg. split; [exact Hl|].
    rewrite Ht. destruct team; [congruence|left; reflexivity].
Qed.

Lemma stackedTeams_nil legs :
  stackedTeams legs = []
  <-> forall a b, In a legs -> In b legs ->
        violatesSameTeamStack a b false = false.
Proof.
  unfold stackedTeams, teamGroupsOf.
  rewrite (filter_keys_nil (fun team => legsOnTeam legs team)).
  destruct (firstOccurrences_spec (teamsOf legs)) as [_ Hin].
  split.
  - intros H a b Ha Hb. apply not_true_is_false. intros Hv.
    apply violatesSameTeamStack_iff in Hv.
    destruct Hv as (c & s & Ta & Tb & Hroles).
    assert (Hk : In (String c s) (firstOccurrences (teamsOf legs))).
    { apply Hin, teamsOf_In. exists a. split; [exact Ha|].
      split; [discriminate|exact Ta]. }
    specialize (H _ Hk). unfold stacked in H. cbn [snd] in H.
    assert (Ia : In a (legsOnTeam legs (String c s))).
    { apply legsOnTeam_In. split; [exact Ha|]. split; [discriminate|exact Ta]. }
    assert (Ib : In b (legsOnTeam legs (String c s))).
    { apply legsOnTeam_In. split; [exact Hb|]. split; [discriminate|exact Tb]. }
    assert (Hq : existsb isQBPassingYards (legsOnTeam legs (String c s)) = true)
      by (apply existsb_exists; destruct Hroles as [[? ?]|[? ?]]; eauto).
    assert (Hw : existsb isWRTEReceivingYards (legsOnTeam legs (String c s))
                 = true)
      by (apply existsb_exists; destruct Hroles as [[? ?]|[? ?]]; eauto).
    rewrite Hq, Hw in H. discriminate.
  - intros H k _. apply not_true_is_false. intros Hs.
    unfold stacked in Hs. cbn [snd] in Hs. apply andb_true_iff in Hs.
    destruct Hs as [Hq Hw]. apply existsb_exists in Hq, Hw.
    destruct Hq as (a & Ia & Qa), Hw as (b & Ib & Wb).
    apply legsOnTeam_In in Ia, Ib.
    destruct Ia as (Ha & Hne & Ta), Ib as (Hb & _ & Tb).
    specialize (H a b Ha Hb).
    assert (Hv : violatesSameTeamStack a b false = true).
    { apply violatesSameTeamStack_iff. destruct k as [|c s]; [congruence|].
      exists c, s. auto. }
    congruence.
Qed.

(** X11.  Unless [allowSameTeamStack] is set, no parlay that
    [generateParlays] returns combines a quarterback's passing-yards leg
    with a receiving-yards leg of a wide receiver or tight end of the same
    team, so none of them carries a "qb_wr_stack" penalty. *)
Theorem generateParlays_no_stack candidateLegs options p :
  JS.nullish (ParlayOptions.allowSameTeamStack options) false = false ->
  In p (generateParlays candidateLegs options) ->
  (forall a b team,
     In a (Parlay.legs p) -> In b (Parlay.legs p) ->
     Leg.team a = Some team -> Leg.team b = Some team -> team <> "" ->
     isQBPassingYards a = true -> isWRTEReceivingYards b = true -> False)
  /\ stackedTeams (Parlay.legs p) = []
  /\ Forall (fun e => PenaltyBreakdown.type e <> "qb_wr_stack")
       (PenaltyResult.penalties (calculateParlayPenalties (Parlay.legs p))).
Proof.
  intros Hstack H. apply generateParlays_In in H. cbv zeta in H.
  rewrite Hstack in H. destruct H as [Hv _].
  apply isValidParlay_true in Hv. destruct Hv as (_ & _ & _ & Hs).
  specialize (Hs eq_refl).
  pose proof (proj1 (noStackViolation_pairs _) Hs) as Hpairs. clear Hs.
  rename Hpairs into Hs.
  assert (Hnil : stackedTeams (Parlay.legs p) = [])
    by (apply stackedTeams_nil, Hs).
  split; [|split; [exact Hnil|]].
  - intros a b team Ha Hb Ta Tb Hne Qa Wb.
    specialize (Hs a b Ha Hb).
    assert (Hv : violatesSameTeamStack a b false = true).
    { apply violatesSameTeamStack_iff. destruct team as [|c s]; [congruence|].
      exists c, s. auto. }
    congruence.
  - rewrite calculateParlayPenalties_entries, Hnil, app_nil_r.
    apply Forall_app. split.
    + apply Forall_forall. intros e He. apply in_map_iff in He.
      destruct He as (g & <- & _). discriminate.
    + apply Forall_forall. intros e He. apply in_map_iff in He.
      destruct He as (g & <- & _). discriminate.
Qed.

(** *** Where the legs of a returned parlay come from *)

Lemma filter_sublist {A} (f : A -> bool) l : sublist (List.filter f l) l.
Proof.
  induction l as [|x r IH]; simpl; [constructor|].
  destruct (f x); [apply sublist_skip|apply sublist_cons]; exact IH.
Qed.

Lemma combinations_sublist {A} k : forall (l c : list A),
  In c (combinations k l) -> sublist c l /\ List.length c = k.
Proof.
  induction k as [|k IHk]; intros l c.
  - destruct l; simpl; intros [<-|[]];
      (split; [apply sublist_nil_l|reflexivity]).
  - induction l as [|x r IHl]; simpl; [intros []|].
    rewrite in_app_iff, in_map_iff. intros [(c' & <- & Hc')|Hc].
    + apply IHk in Hc'. destruct Hc' as [Hs Hl].
      split; [apply sublist_skip, Hs|simpl; lia].
    + apply IHl in Hc. destruct Hc as [Hs Hl].
      split; [apply sublist_cons, Hs|exact Hl].
Qed.

Lemma combinations_short {A} k (l : list A) :
  (List.length l < k)%nat -> combinations k l = [].
Proof.
  revert k. induction l as [|x r IH]; intros k Hlt.
  - apply combinations_nil. simpl in Hlt. lia.
  - destruct k as [|k]; [simpl in Hlt; lia|]. simpl in *.
    rewrite (IH k), (IH (S k)) by lia. reflexivity.
Qed.

(** Every returned parlay was emitted for one combination of the filtered
    legs. *)
Lemma generateParlays_emit candidateLegs options p :
  In p (generateParlays candidateLegs options) ->
  let legCount := clampLegCount (ParlayOptions.legCount options) in
  let allowSameGame :=
    if JS.nullish (ParlayOptions.singleGame options) false then true
    else JS.nullish (ParlayOptions.allowSameGame options) false in
  let allowSameTeamStack :=
    JS.nullish (ParlayOptions.allowSameTeamStack options) false in
  exists c,
    In c (combinations (Z.to_nat legCount) (filterLegs candidateLegs options))
    /\ In p (emitParlay legCount allowSameGame allowSameTeamStack c).
Proof.
  intros H legCount allowSameGame allowSameTeamStack.
  unfold generateParlays in H. cbv zeta in H.
  fold legCount allowSameGame allowSameTeamStack in H.
  apply in_map_iff in H. destruct H as ([p' a] & <- & H).
  apply sort_In in H. apply in_map_iff in H. destruct H as (q & Heq & H).
  injection Heq as <- _. cbn [fst].
  assert (legCount = Z.of_nat (Z.to_nat legCount)) as Hk.
  { unfold legCount, clampLegCount. lia. }
  rewrite Hk in H at 2.
  destruct (generateCombinations_complete legCount allowSameGame
              allowSameTeamStack (Z.to_nat legCount)
              (filterLegs candidateLegs options) []) as [Hgen _];
    [simpl; lia|].
  rewrite Hgen in H. simpl in H. rewrite Nat.sub_0_r in H.
  apply in_flat_map in H. exact H.
Qed.

Lemma filterLegs_In candidateLegs options leg :
  In leg (filterLegs candidateLegs options) ->
  In leg candidateLegs
  /\ (JS.nullish (ParlayOptions.minLegProb options) (80 # 100)
      <= Leg.smoothedProb leg)%Q
  /\ (JS.nullish (ParlayOptions.singleGame options) false = true ->
      JS.truthy (ParlayOptions.gameId options) = true ->
      Leg.gameId leg = ParlayOptions.gameId options).
Proof.
  unfold filterLegs. cbv zeta.
  assert (Hbase : forall l,
            In leg (List.filter
                      (fun leg => JS.ge (Leg.smoothedProb leg)
                         (JS.nullish (ParlayOptions.minLegProb options)
                            (80 # 100))) l) ->
            In leg l
            /\ (JS.nullish (ParlayOptions.minLegProb options) (80 # 100)
                <= Leg.smoothedProb leg)%Q).
  { intros l Hl. apply filter_In in Hl. destruct Hl as [H1 H2].
    apply JS_ge_iff in H2. split; assumption. }
  destruct (JS.nullish (ParlayOptions.singleGame options) false) eqn:Es;
    destruct (JS.truthy (ParlayOptions.gameId options)) eqn:Eg;
    cbn [andb]; intros H.
  - apply filter_In in H. destruct H as [H H3].
    apply Hbase in H. destruct H as [H1 H2].
    split; [exact H1|]. split; [exact H2|]. intros _ _.
    apply negb_true_iff in H3. unfold opt_str_neq in H3.
    destruct (Leg.gameId leg) as [x|], (ParlayOptions.gameId options) as [y|];
      try discriminate; try reflexivity.
    apply negb_false_iff, String.eqb_eq in H3. congruence.
  - apply Hbase in H. destruct H as [H1 H2].
    split; [exact H1|]. split; [exact H2|]. intros _ ?. discriminate.
  - apply Hbase in H. destruct H as [H1 H2].
    split; [exact H1|]. split; [exact H2|]. intros ?. discriminate.
  - apply Hbase in H. destruct H as [H1 H2].
    split; [exact H1|]. split; [exact H2|]. intros ?. discriminate.
Qed.

Lemma filterLegs_sublist candidateLegs options :
  sublist (filterLegs candidateLegs options) candidateLegs.
Proof.
  unfold filterLegs. cbv zeta.
  destruct (_ && _).
  - etransitivity; apply filter_sublist.
  - apply filter_sublist.
Qed.

(** X12.  The legs of every parlay that [generateParlays] returns are
    candidate legs, in their candidate order, each with a smoothed
    probability of at least [minLegProb] (0.80 when missing); in single-game
    mode with a game id they all carry that game id.  The parlay's penalty
    breakdown is the list of penalties of its legs, and is absent when that
    list is empty. *)
Theorem generateParlays_legs_provenance candidateLegs options p :
  In p (generateParlays candidateLegs options) ->
  let penalties :=
    PenaltyResult.penalties (calculateParlayPenalties (Parlay.legs p)) in
  sublist (Parlay.legs p) candidateLegs
  /\ (forall leg, In leg (Parlay.legs p) ->
        (JS.nullish (ParlayOptions.minLegProb options) (80 # 100)
         <= Leg.smoothedProb leg)%Q)
  /\ (JS.nullish (ParlayOptions.singleGame options) false = true ->
      JS.truthy (ParlayOptions.gameId options) = true ->
      forall leg, In leg (Parlay.legs p) ->
        Leg.gameId leg = ParlayOptions.gameId options)
  /\ Parlay.penaltyBreakdown p
     = match penalties with [] => None | _ :: _ => Some penalties end.
Proof.
  intros H penalties. apply generateParlays_emit in H. cbv zeta in H.
  destruct H as (c & Hc & Hp).
  apply combinations_sublist in Hc. destruct Hc as [Hsub _].
  unfold emitParlay in Hp.
  destruct (isValidParlay c _ _ _); [|destruct Hp].
  destruct Hp as [<-|[]]. cbn [Parlay.legs Parlay.penaltyBreakdown] in *.
  assert (Hin : forall leg, In leg c ->
                  In leg (filterLegs candidateLegs options)).
  { intros leg Hl. apply list_elem_of_In.
    eapply elem_of_sublist; [|exact Hsub]. apply list_elem_of_In, Hl. }
  split; [|split; [|split]].
  - etransitivity; [exact Hsub|apply filterLegs_sublist].
  - intros leg Hl. apply (filterLegs_In candidateLegs options leg (Hin leg Hl)).
  - intros Hs Hg leg Hl.
    apply (filterLegs_In candidateLegs options leg (Hin leg Hl)); assumption.
  - subst penalties. destruct (PenaltyResult.penalties _); reflexivity.
Qed.

(** X13.  When fewer legs pass the filters than the clamped leg count
    asks for, [generateParlays] and [getTopParlays] return no parlay. *)
Theorem generateParlays_too_few_legs candidateLegs options :
  (Z.of_nat (List.length (filterLegs candidateLegs options))
   < clampLegCount (ParlayOptions.legCount options))%Z ->
  generateParlays candidateLegs options = []
  /\ forall topN, getTopParlays candidateLegs topN options = [].
Proof.
  intros Hlt.
  assert (H : generateParlays candidateLegs options = []).
  { pose proof (generateParlays_enumerates candidateLegs options) as HP.
    cbv zeta in HP. rewrite combinations_short in HP by lia. simpl in HP.
    apply Permutation_sym, Permutation_nil in HP.
    apply map_eq_nil in HP. exact HP. }
  split; [exact H|]. intros topN. unfold getTopParlays. cbv zeta.
  rewrite H. unfold JS.slice0. destruct (topN <? 0)%Z; apply firstn_nil.
Qed.

(** X14.  For every [topN], negative ones included, [getTopParlays] is a
    prefix of [generateParlays]: the first [topN] parlays (all of them when
    there are fewer) for [topN >= 0], and all but the last [-topN] for a
    negative [topN]. *)
Theorem getTopParlays_any_count candidateLegs topN options :
  let all := generateParlays candidateLegs options in
  let top := getTopParlays candidateLegs topN options in
  let n := Z.of_nat (List.length all) in
  (exists rest, all = top ++ rest)
  /\ Z.of_nat (List.length top)
     = (if (topN <? 0)%Z then Z.max (n + topN) 0 else Z.min topN n).
Proof.
  intros all top n. subst top. unfold getTopParlays. cbv zeta. fold all.
  unfold JS.slice0. fold n. split.
  - destruct (topN <? 0)%Z; eexists; symmetry; apply firstn_skipn.
  - destruct (Z.ltb_spec topN 0); rewrite length_firstn; subst n; lia.
Qed.

(** *** Filtering the logs of active players *)

Section ActivityFilterBulkProperties.
Variable Date_getTime : string -> option Z.

Lemma playerIds_fold logs : forall (acc : gset string) id,
  id ∈ fold_left
         (fun (acc : gset string) log =>
            if JS.truthy (Some (GameLog.playerId log))
            then {[ GameLog.playerId log ]} ∪ acc
            else acc)
         logs acc
  <-> id ∈ acc
      \/ (id <> "" /\ exists log, In log logs /\ GameLog.playerId log = id).
Proof.
  induction logs as [|log r IH]; intros acc id; cbn [fold_left].
  - split; [auto|]. intros [H|(_ & ? & [] & _)]. exact H.
  - rewrite IH. split.
    + intros [H|(Hne & l & Hl & He)].
      * destruct (GameLog.playerId log) as [|c s] eqn:E; cbn [JS.truthy] in H.
        -- left. exact H.
        -- apply elem_of_union in H. destruct H as [H|H]; [|left; exact H].
           apply elem_of_singleton in H. right. subst id.
           split; [discriminate|]. exists log.
           split; [left; reflexivity|exact E].
      * right. split; [exact Hne|]. exists l. split; [right; exact Hl|exact He].
    + intros [H|(Hne & l & [<-|Hl] & He)].
      * left. destruct (JS.truthy (Some (GameLog.playerId log)));
          [apply elem_of_union; right|]; exact H.
      * left. rewrite He. destruct id as [|c s]; [congruence|].
        cbn [JS.truthy]. apply elem_of_union. left.
        apply elem_of_singleton. reflexivity.
      * right. split; [exact Hne|]. exists l. split; assumption.
Qed.

(** X15.  [filterActivePlayers] keeps, in order, exactly the logs whose
    player id is not empty and whose player [isPlayerActive] reports
    active; the logs of one player are kept or dropped together. *)
Theorem filterActivePlayers_single_pass logs week season :
  let active log :=
    JS.truthy (Some (GameLog.playerId log))
    && PlayerStatus.isActive
         (isPlayerActive Date_getTime logs (GameLog.playerId log) week season)
  in
  filterActivePlayers Date_getTime logs week season = List.filter active logs
  /\ sublist (filterActivePlayers Date_getTime logs week season) logs
  /\ forall a b,
       In a logs -> In b logs -> GameLog.playerId a = GameLog.playerId b ->
       (In a (filterActivePlayers Date_getTime logs week season)
        <-> In b (filterActivePlayers Date_getTime logs week season)).
Proof.
  intros active.
  assert (Heq : filterActivePlayers Date_getTime logs week season
                = List.filter active logs).
  { unfold filterActivePlayers. cbv zeta. apply filter_ext_in.
    intros log Hlog. apply eq_true_iff_eq.
    rewrite bool_decide_eq_true, elem_of_filter, playerIds_fold.
    unfold active. rewrite andb_true_iff. split.
    - intros [Ha [H|[Hne _]]]; [apply elem_of_empty in H; destruct H|].
      split; [|exact Ha].
      destruct (GameLog.playerId log); [congruence|reflexivity].
    - intros [Ht Ha]. split; [exact Ha|]. right. split.
      + intros E. rewrite E in Ht. discriminate.
      + exists log. split; [exact Hlog|reflexivity]. }
  split; [exact Heq|]. rewrite Heq. split; [apply filter_sublist|].
  intros a b Ha Hb Hid. rewrite !filter_In. unfold active. rewrite Hid.
  tauto.
Qed.

(** X16.  [getPlayerStatuses] returns one status per requested id, in
    request order and for that id.  Each status carries the week asked for,
    is active exactly when the player is not on bye and has recent snaps,
    and is on bye only with a team; a player without logs has no team and
    is inactive. *)
Theorem getPlayerStatuses_in_order logs playerIds week season :
  let statuses := getPlayerStatuses Date_getTime logs playerIds week season in
  List.map PlayerStatus.playerId statuses = playerIds
  /\ Forall (fun st =>
       PlayerStatus.currentWeek st = Some week
       /\ PlayerStatus.isActive st
          = negb (PlayerStatus.isOnBye st) && PlayerStatus.hasRecentSnaps st
       /\ (PlayerStatus.isOnBye st = true ->
           JS.truthy (PlayerStatus.team st) = true)
       /\ ((forall log, In log logs ->
              GameLog.playerId log <> PlayerStatus.playerId st) ->
           PlayerStatus.team st = None /\ PlayerStatus.isActive st = false))
     statuses.
Proof.
  intros statuses. subst statuses. unfold getPlayerStatuses. split.
  - rewrite map_map. rewrite <- (map_id playerIds) at 2.
    apply map_ext. intros id. unfold isPlayerActive.
    destruct (List.filter _ logs); reflexivity.
  - apply Forall_forall. intros st Hst. apply in_map_iff in Hst.
    destruct Hst as (id & <- & _). unfold isPlayerActive.
    destruct (List.filter (fun log => String.eqb (GameLog.playerId log) id) logs)
      as [|first rest] eqn:E; cbn.
    + repeat split; try discriminate; reflexivity.
    + split; [reflexivity|]. split; [reflexivity|]. split.
      * destruct (JS.truthy (GameLog.team first)); [reflexivity|discriminate].
      * intros Hnone. exfalso.
        assert (Hin : In first (first :: rest)) by (left; reflexivity).
        rewrite <- E in Hin. apply filter_In in Hin. destruct Hin as [Hin He].
        apply String.eqb_eq in He. exact (Hnone first Hin He).
Qed.

End ActivityFilterBulkProperties.

(** ** File cache *)

Lemma list_ascii_of_append (a b : string) :
  list_ascii_of_string (a ++ b)%string
  = list_ascii_of_string a ++ list_ascii_of_string b.
Proof.
  induction a as [|c a IH]; simpl; [reflexivity|]. rewrite IH. reflexivity.
Qed.

Lemma string_append_inv_tail (a b suffix : string) :
  (a ++ suffix)%string = (b ++ suffix)%string -> a = b.
Proof.
  intros H. apply (f_equal list_ascii_of_string) in H.
  rewrite !list_ascii_of_append in H. apply app_inv_tail in H.
  rewrite <- (string_of_list_ascii_of_string a),
    <- (string_of_list_ascii_of_string b), H. reflexivity.
Qed.

Lemma string_length_append (a b : string) :
  String.length (a ++ b)%string = (String.length a + String.length b)%nat.
Proof.
  induction a as [|c a IH]; simpl; [reflexivity|]. rewrite IH. reflexivity.
Qed.

Lemma substring_all (s : string) : substring 0 (String.length s) s = s.
Proof.
  induction s as [|c s IH]; simpl; [reflexivity|]. rewrite IH. reflexivity.
Qed.

Lemma substring_append (a b : string) :
  substring (String.length a) (String.length b) (a ++ b)%string = b.
Proof. induction a as [|c a IH]; simpl; [apply substring_all|exact IH]. Qed.

Lemma endsWith_append (a suffix : string) :
  Cache.endsWith (a ++ suffix)%string suffix = true.
Proof.
  unfold Cache.endsWith. cbv zeta. rewrite string_length_append.
  apply andb_true_iff. split; [apply Nat.leb_le; lia|].
  replace (String.length a + String.length suffix - String.length suffix)%nat
    with (String.length a) by lia.
  rewrite substring_append. apply String.eqb_refl.
Qed.

Lemma safeChar_underscore : Cache.safeChar "_"%char = true.
Proof. reflexivity. Qed.

Lemma sanitize_chars key :
  forallb Cache.safeChar (list_ascii_of_string (Cache.sanitize key)) = true.
Proof.
  induction key as [|c key IH]; [reflexivity|].
  cbn [Cache.sanitize list_ascii_of_string forallb]. rewrite IH, andb_true_r.
  destruct (Cache.safeChar c) eqn:E; [exact E|apply safeChar_underscore].
Qed.

Lemma sanitize_fixed key :
  Cache.sanitize key = key
  <-> forallb Cache.safeChar (list_ascii_of_string key) = true.
Proof.
  induction key as [|c key IH]; [split; reflexivity|].
  cbn [Cache.sanitize list_ascii_of_string forallb].
  rewrite andb_true_iff, <- IH. split.
  - intros H. injection H as Hc Hk. split; [|exact Hk].
    destruct (Cache.safeChar c) eqn:E; [reflexivity|].
    rewrite <- Hc in E. rewrite safeChar_underscore in E. discriminate.
  - intros [Hc Hk]. rewrite Hc, Hk. reflexivity.
Qed.

Lemma sanitize_length key :
  String.length (Cache.sanitize key) = String.length key.
Proof.
  induction key as [|c key IH]; simpl; [reflexivity|]. rewrite IH.
  reflexivity.
Qed.

(** X17.  The file name of a cache key consists of letters, digits, '-'
    and '_' only, followed by ".json".  Sanitising keeps the length of the
    key, is idempotent, and leaves exactly the keys made of such characters
    unchanged.  Two keys share a cache file exactly when their sanitised
    forms are equal; in particular a key and its sanitised form always
    do. *)
Theorem getCacheFilePath_sanitized key :
  let name := Cache.sanitize key in
  forallb Cache.safeChar (list_ascii_of_string name) = true
  /\ String.length name = String.length key
  /\ Cache.sanitize name = name
  /\ (name = key
      <-> forallb Cache.safeChar (list_ascii_of_string key) = true)
  /\ Cache.getCacheFilePath name = Cache.getCacheFilePath key
  /\ Cache.endsWith (Cache.getCacheFilePath key) ".json" = true
  /\ (forall other,
        Cache.getCacheFilePath other = Cache.getCacheFilePath key
        <-> Cache.sanitize other = name).
Proof.
  intros name. subst name.
  assert (Hidem : Cache.sanitize (Cache.sanitize key) = Cache.sanitize key)
    by apply sanitize_fixed, sanitize_chars.
  split; [apply sanitize_chars|]. split; [apply sanitize_length|].
  split; [exact Hidem|]. split; [apply sanitize_fixed|].
  unfold Cache.getCacheFilePath. cbv zeta. rewrite Hidem.
  split; [reflexivity|]. split; [apply endsWith_append|].
  intros other. split; [apply string_append_inv_tail|].
  intros ->. reflexivity.
Qed.

Section CacheStore.
Variable T : Type.
Variable JSON_stringify : Cache.CacheEntry T -> string.
Variable JSON_parse : string -> option (Cache.CacheEntry T).

Lemma getCache_miss key now files :
  files !! Cache.getCacheFilePath key = None ->
  Cache.getCache T JSON_parse key now (Some files) = (None, Some files).
Proof. intros H. unfold Cache.getCache. cbn. rewrite H. reflexivity. Qed.

(** X18.  After [setCache key value ttlMs] at time [now], [getCache] for
    that key, or for any key with the same sanitised form, returns the value
    up to and including time [now + ttlMs] and leaves the directory
    unchanged; later than that it returns null and deletes the file, after
    which every further read misses.  This is for an entry that
    [JSON.parse] reads back as [JSON.stringify] wrote it. *)
Theorem getCache_after_setCache key key' value ttlMs now later dir :
  JSON_parse (JSON_stringify (Cache.mkEntry value (now + ttlMs)%Z))
  = Some (Cache.mkEntry value (now + ttlMs)%Z) ->
  Cache.sanitize key' = Cache.sanitize key ->
  let written := Cache.setCache T JSON_stringify key value ttlMs now dir in
  ((later <= now + ttlMs)%Z ->
   Cache.getCache T JSON_parse key' later written = (Some value, written))
  /\ ((now + ttlMs < later)%Z ->
      Cache.getCache T JSON_parse key' later written
      = (None, Cache.deleteCache key written)
      /\ forall again,
           Cache.getCache T JSON_parse key' again
             (Cache.deleteCache key written)
           = (None, Cache.deleteCache key written)).
Proof.
  intros Hjson Hkey written.
  assert (Hpath : Cache.getCacheFilePath key' = Cache.getCacheFilePath key).
  { unfold Cache.getCacheFilePath. cbv zeta. rewrite Hkey. reflexivity. }
  subst written. unfold Cache.setCache. cbv zeta.
  set (files := Cache.ensureCacheDir dir).
  set (path := Cache.getCacheFilePath key) in *.
  assert (Hdel : Cache.deleteCache key
                   (Some (<[path := JSON_stringify
                                      (Cache.mkEntry value (now + ttlMs)%Z)]>
                            files))
                 = Some (delete path
                           (<[path := JSON_stringify
                                        (Cache.mkEntry value (now + ttlMs)%Z)]>
                              files))).
  { unfold Cache.deleteCache. cbv zeta. fold path.
    rewrite lookup_insert_eq. reflexivity. }
  split.
  - intros Hle. unfold Cache.getCache. cbv zeta. rewrite Hpath.
    cbn [Cache.ensureCacheDir]. rewrite lookup_insert_eq, Hjson.
    cbn [Cache.expiresAt Cache.data].
    destruct (Z.gtb_spec later (now + ttlMs)); [lia|reflexivity].
  - intros Hlt. rewrite Hdel. split.
    + unfold Cache.getCache. cbv zeta. rewrite Hpath.
      cbn [Cache.ensureCacheDir]. rewrite lookup_insert_eq, Hjson.
      cbn [Cache.expiresAt Cache.data].
      destruct (Z.gtb_spec later (now + ttlMs)); [reflexivity|lia].
    + intros again. apply getCache_miss. rewrite Hpath.
      apply lookup_delete_eq.
Qed.

(** X19.  Writing or deleting the entry of one key does not change what
    [getCache] returns for a key with a different sanitised form. *)
Theorem getCache_other_key key key' value ttlMs now later dir :
  Cache.sanitize key' <> Cache.sanitize key ->
  fst (Cache.getCache T JSON_parse key' later
         (Cache.setCache T JSON_stringify key value ttlMs now dir))
  = fst (Cache.getCache T JSON_parse key' later dir)
  /\ fst (Cache.getCache T JSON_parse key' later (Cache.deleteCache key dir))
     = fst (Cache.getCache T JSON_parse key' later dir).
Proof.
  intros Hkey.
  assert (Hpath : Cache.getCacheFilePath key <> Cache.getCacheFilePath key').
  { unfold Cache.getCacheFilePath. cbv zeta. intros H.
    apply string_append_inv_tail in H. congruence. }
  split.
  - unfold Cache.getCache, Cache.setCache. cbv zeta.
    cbn [Cache.ensureCacheDir]. rewrite lookup_insert_ne by exact Hpath.
    destruct (Cache.ensureCacheDir dir !! Cache.getCacheFilePath key')
      as [content|]; [|reflexivity].
    destruct (JSON_parse content) as [entry|]; [|reflexivity].
    destruct (later >? Cache.expiresAt entry)%Z; reflexivity.
  - unfold Cache.getCache, Cache.deleteCache. cbv zeta.
    destruct dir as [files|]; [|reflexivity].
    destruct (files !! Cache.getCacheFilePath key) as [c|];
      cbn [Cache.ensureCacheDir]; [|reflexivity].
    rewrite lookup_delete_ne by exact Hpath.
    destruct (files !! Cache.getCacheFilePath key') as [content|];
      [|reflexivity].
    destruct (JSON_parse content) as [entry|]; [|reflexivity].
    destruct (later >? Cache.expiresAt entry)%Z; reflexivity.
Qed.

(** X20.  After [deleteCache key] or [clearCache], [getCache key] returns
    null; [clearCache] keeps the files whose names do not end in ".json";
    and once [getCache] has returned null for a key it keeps doing so at
    any time, as long as nothing is written. *)
Theorem getCache_after_removal key now dir :
  fst (Cache.getCache T JSON_parse key now (Cache.deleteCache key dir)) = None
  /\ fst (Cache.getCache T JSON_parse key now (Cache.clearCache dir)) = None
  /\ (forall file content,
        Cache.endsWith file ".json" = false ->
        Cache.ensureCacheDir dir !! file = Some content ->
        Cache.ensureCacheDir (Cache.clearCache dir) !! file = Some content)
  /\ (fst (Cache.getCache T JSON_parse key now dir) = None ->
      forall again,
        Cache.getCache T JSON_parse key again
          (snd (Cache.getCache T JSON_parse key now dir))
        = (None, snd (Cache.getCache T JSON_parse key now dir))).
Proof.
  split; [|split; [|split]].
  - unfold Cache.deleteCache. cbv zeta. destruct dir as [files|].
    + destruct (files !! Cache.getCacheFilePath key) eqn:E.
      * rewrite getCache_miss by apply lookup_delete_eq. reflexivity.
      * rewrite getCache_miss by exact E. reflexivity.
    + unfold Cache.getCache. cbn. rewrite lookup_empty. reflexivity.
  - unfold Cache.clearCache. destruct dir as [files|].
    + rewrite getCache_miss; [reflexivity|].
      apply map_lookup_filter_None. right. intros content _. cbn [fst].
      unfold Cache.getCacheFilePath. cbv zeta. rewrite endsWith_append.
      discriminate.
    + unfold Cache.getCache. cbn. rewrite lookup_empty. reflexivity.
  - intros file content Hend Hfile. unfold Cache.clearCache.
    destruct dir as [files|]; cbn [Cache.ensureCacheDir] in *.
    + apply map_lookup_filter_Some. split; [exact Hfile|exact Hend].
    + rewrite lookup_empty in Hfile. discriminate.
  - intros Hnone again. unfold Cache.getCache in *. cbv zeta in *.
    set (files := Cache.ensureCacheDir dir) in *.
    set (path := Cache.getCacheFilePath key) in *.
    destruct (files !! path) as [content|] eqn:E.
    + destruct (JSON_parse content) as [entry|] eqn:Ep.
      * destruct (now >? Cache.expiresAt entry)%Z; [|discriminate].
        cbn [snd Cache.ensureCacheDir]. rewrite lookup_delete_eq.
        reflexivity.
      * cbn [snd Cache.ensureCacheDir]. rewrite E, Ep. reflexivity.
    + cbn [snd Cache.ensureCacheDir]. rewrite E. reflexivity.
Qed.

End CacheStore.

(** ** Current week and season *)

Section WeekProperties.
Variable getFullYear : Z -> Z.
Variable getMonth : Z -> Z.
Variable Date_local : Z -> Z -> Z -> Z.

Lemma calculateCurrentWeek_eq now :
  Week.calculateCurrentWeek getFullYear Date_local now
  = (let seasonStart := Date_local (getFullYear now) 8 1 in
     if (now <? seasonStart)%Z then 1
     else Z.min 18 ((now - seasonStart) / 604800000 + 1))%Z.
Proof.
  unfold Week.calculateCurrentWeek. cbv zeta.
  set (seasonStart := Date_local (getFullYear now) 8 1).
  destruct (Z.ltb_spec now seasonStart) as [Hlt|Hge]; [reflexivity|].
  change (1000 * 60 * 60 * 24)%Z with 86400000%Z.
  rewrite Z.div_div by lia.
  change (86400000 * 7)%Z with 604800000%Z.
  assert (0 <= (now - seasonStart) / 604800000)%Z
    by (apply Z.div_pos; lia).
  lia.
Qed.

(** X21.  [calculateCurrentWeek] is always between 1 and 18.  Before
    September 1st of the current year it is 1; from then on it is one plus
    the number of whole 7-day periods since September 1st, capped at 18:
    [n + 1] during the period of index [n], and 18 from the period of index
    17 to the end of the year.  Within one calendar year it never
    decreases. *)
Theorem calculateCurrentWeek_weeks now :
  let week := Week.calculateCurrentWeek getFullYear Date_local now in
  let seasonStart := Date_local (getFullYear now) 8 1 in
  (1 <= week <= 18)%Z
  /\ week = (if (now <? seasonStart)%Z then 1
             else Z.min 18 ((now - seasonStart) / 604800000 + 1))%Z
  /\ (forall n, (0 <= n < 17)%Z ->
        (seasonStart + n * 604800000 <= now
         < seasonStart + (n + 1) * 604800000)%Z ->
        week = (n + 1)%Z)
  /\ ((seasonStart + 17 * 604800000 <= now)%Z -> week = 18%Z)
  /\ (forall later,
        getFullYear later = getFullYear now -> (now <= later)%Z ->
        (week <= Week.calculateCurrentWeek getFullYear Date_local later)%Z).
Proof.
  intros week seasonStart. subst week.
  rewrite calculateCurrentWeek_eq. cbv zeta. fold seasonStart.
  split; [|split; [reflexivity|split; [|split]]].
  - destruct (Z.ltb_spec now seasonStart) as [Hlt|Hge]; [lia|].
    assert (0 <= (now - seasonStart) / 604800000)%Z
      by (apply Z.div_pos; lia).
    lia.
  - intros n Hn [Hlo Hhi].
    destruct (Z.ltb_spec now seasonStart) as [Hlt|Hge]; [lia|].
    assert ((now - seasonStart) / 604800000 = n)%Z as ->.
    { symmetry. apply (Z.div_unique _ _ n (now - seasonStart - n * 604800000));
        lia. }
    lia.
  - intros Hlo.
    destruct (Z.ltb_spec now seasonStart) as [Hlt|Hge]; [lia|].
    assert (17 <= (now - seasonStart) / 604800000)%Z.
    { apply Z.div_le_lower_bound; lia. }
    lia.
  - intros later Hyear Hle. rewrite calculateCurrentWeek_eq. cbv zeta.
    rewrite Hyear. fold seasonStart.
    destruct (Z.ltb_spec now seasonStart) as [Hlt|Hge];
      destruct (Z.ltb_spec later seasonStart) as [Hlt'|Hge']; try lia.
    + assert (0 <= (later - seasonStart) / 604800000)%Z
        by (apply Z.div_pos; lia).
      lia.
    + assert ((now - seasonStart) / 604800000
              <= (later - seasonStart) / 604800000)%Z
        by (apply Z.div_le_mono; lia).
      lia.
Qed.

(** X22.  [getCurrentSeason] never exceeds 2024: from calendar year 2025
    on it is 2024 whatever the month; up to 2024 it is the calendar year
    from September on and the year before until August.  Before September
    1st [getCurrentWeekData] pairs the season with week 1. *)
Theorem getCurrentSeason_capped now :
  let season := Week.getCurrentSeason getFullYear getMonth now in
  let year := getFullYear now in
  (season <= 2024)%Z
  /\ ((2025 <= year)%Z -> season = 2024%Z)
  /\ ((year <= 2024)%Z ->
      season = (if (getMonth now <? 8)%Z then year - 1 else year)%Z)
  /\ (forall nowWeek,
        (nowWeek < Date_local (getFullYear nowWeek) 8 1)%Z ->
        Week.getCurrentWeekData getFullYear getMonth Date_local nowWeek now
        = (1%Z, season)).
Proof.
  intros season year. subst season year. unfold Week.getCurrentSeason.
  cbv zeta. split; [|split; [|split]].
  - destruct (getMonth now <? 8)%Z; lia.
  - destruct (getMonth now <? 8)%Z; lia.
  - destruct (getMonth now <? 8)%Z; lia.
  - intros nowWeek Hlt. unfold Week.getCurrentWeekData.
    rewrite calculateCurrentWeek_eq. cbv zeta.
    destruct (Z.ltb_spec nowWeek (Date_local (getFullYear nowWeek) 8 1));
      [reflexivity|lia].
Qed.

End WeekProperties.

(** ** Odds import *)

Lemma Math_abs_cases x :
  (0 <= x /\ OddsImport.Math_abs x = x)
  \/ (x < 0 /\ OddsImport.Math_abs x = - x).
Proof.
  unfold OddsImport.Math_abs. destruct (Qle_bool 0 x) eqn:E.
  - left. split; [apply Qle_bool_iff, E|reflexivity].
  - right. split; [|reflexivity]. apply Qnot_le_lt. intros H.
    apply Qle_bool_iff in H. congruence.
Qed.

Lemma Math_abs_nonneg x : 0 <= OddsImport.Math_abs x.
Proof. destruct (Math_abs_cases x) as [[H ->]|[H ->]]; lra. Qed.

Lemma JS_gt_false a b : JS.gt a b = false <-> a <= b.
Proof.
  split.
  - intros H. apply Qnot_lt_le. intros Hlt. apply JS_gt_iff in Hlt. congruence.
  - intros H. apply not_true_is_false. intros Hgt. apply JS_gt_iff in Hgt. lra.
Qed.

Lemma JS_lt_false a b : JS.lt a b = false <-> b <= a.
Proof.
  split.
  - intros H. apply Qnot_lt_le. intros Hlt. apply JS_lt_iff in Hlt. congruence.
  - intros H. apply not_true_is_false. intros Hgt. apply JS_lt_iff in Hgt. lra.
Qed.

Lemma oddsToImpliedProb_cases odds :
  (0 < odds /\ OddsImport.oddsToImpliedProb odds = 100 / (odds + 100))
  \/ (odds <= 0
      /\ OddsImport.oddsToImpliedProb odds == (- odds) / (- odds + 100)).
Proof.
  unfold OddsImport.oddsToImpliedProb. destruct (JS.gt odds 0) eqn:E.
  - left. split; [apply JS_gt_iff, E|reflexivity].
  - right. apply JS_gt_false in E. split; [exact E|].
    assert (OddsImport.Math_abs odds == - odds) as ->; [|reflexivity].
    destruct (Math_abs_cases odds) as [[H ->]|[H ->]]; lra.
Qed.

Lemma oddsToImpliedProb_unit odds :
  0 <= OddsImport.oddsToImpliedProb odds
  /\ OddsImport.oddsToImpliedProb odds < 1
  /\ (OddsImport.oddsToImpliedProb odds == 0 -> odds == 0).
Proof.
  destruct (oddsToImpliedProb_cases odds) as [[Hpos Hp]|[Hneg Hp]];
    rewrite Hp.
  - split; [apply Qdiv_ge_const; lra|]. split; [apply Qdiv_lt_one; lra|].
    intros H0.
    assert (0 < 100 / (odds + 100)) by (apply Qlt_shift_div_l; lra). lra.
  - split; [apply Qdiv_ge_const; lra|]. split; [apply Qdiv_lt_one; lra|].
    intros H0.
    assert (- odds == (- odds / (- odds + 100)) * (- odds + 100)) as Hm
      by (field; lra).
    rewrite H0 in Hm. lra.
Qed.

(** X23.  The implied probability of American odds lies in [0,1) and is
    zero only for odds of zero; it is at most 1/2 for odds of +100 or more
    and at least 1/2 for odds of -100 or less; and the implied
    probabilities of opposite odds [+x] and [-x] add up to one. *)
Theorem oddsToImpliedProb_range odds :
  let p := OddsImport.oddsToImpliedProb odds in
  (0 <= p /\ p < 1)
  /\ (p == 0 <-> odds == 0)
  /\ (100 <= odds -> p <= 1 # 2)
  /\ (odds <= -100 -> 1 # 2 <= p)
  /\ (~ odds == 0 -> p + OddsImport.oddsToImpliedProb (- odds) == 1).
Proof.
  intros p. subst p.
  destruct (oddsToImpliedProb_cases odds) as [[Hpos Hp]|[Hneg Hp]];
    rewrite Hp.
  - split; [split|split; [|split; [|split]]].
    + apply Qdiv_ge_const; lra.
    + apply Qdiv_lt_one; lra.
    + split; [|lra]. intros H0.
      assert (0 < 100 / (odds + 100)) by (apply Qlt_shift_div_l; lra). lra.
    + intros H. apply Qdiv_le_const; lra.
    + lra.
    + intros _.
      destruct (oddsToImpliedProb_cases (- odds)) as [[H _]|[_ ->]]; [lra|].
      field. lra.
  - split; [split|split; [|split; [|split]]].
    + apply Qdiv_ge_const; lra.
    + apply Qdiv_lt_one; lra.
    + split.
      * intros H0.
        assert (- odds == (- odds / (- odds + 100)) * (- odds + 100)) as Hm
          by (field; lra).
        rewrite H0 in Hm. lra.
      * intros H0. rewrite H0. reflexivity.
    + lra.
    + intros H. apply Qdiv_ge_const; lra.
    + intros Hnz.
      destruct (oddsToImpliedProb_cases (- odds)) as [[_ ->]|[H _]]; [|lra].
      field. lra.
Qed.

Lemma devig_cases overProb underProb :
  (0 < overProb + underProb
   /\ OddsImport.devig overProb underProb
      = overProb / (overProb + underProb))
  \/ (overProb + underProb <= 0
      /\ OddsImport.devig overProb underProb = overProb).
Proof.
  unfold OddsImport.devig. cbv zeta.
  destruct (JS.gt (overProb + underProb) 0) eqn:E.
  - left. split; [apply JS_gt_iff, E|reflexivity].
  - right. split; [apply JS_gt_false, E|reflexivity].
Qed.

(** X24.  When the two implied probabilities have a positive sum, [devig]
    divides the over side by that sum, so the fair over and under
    probabilities add up to one; for non-negative inputs the result lies in
    [0,1]; and probabilities that already add up to one are unchanged.
    Applied to the implied probabilities of two odds, the over odds not
    zero, the fair probability lies in (0,1]. *)
Theorem devig_fair overProb underProb :
  let fair := OddsImport.devig overProb underProb in
  (0 < overProb + underProb ->
   fair + OddsImport.devig underProb overProb == 1
   /\ fair * (overProb + underProb) == overProb)
  /\ (0 <= overProb -> 0 <= underProb -> 0 <= fair /\ fair <= 1)
  /\ (overProb + underProb == 1 -> fair == overProb)
  /\ (forall over under,
        ~ over == 0 ->
        overProb = OddsImport.oddsToImpliedProb over ->
        underProb = OddsImport.oddsToImpliedProb under ->
        0 < fair /\ fair <= 1
        /\ fair + OddsImport.devig underProb overProb == 1).
Proof.
  intros fair. subst fair.
  assert (Hsum : 0 < overProb + underProb ->
                 OddsImport.devig overProb underProb
                 + OddsImport.devig underProb overProb == 1
                 /\ OddsImport.devig overProb underProb
                    * (overProb + underProb) == overProb).
  { intros Ht.
    destruct (devig_cases overProb underProb) as [[_ ->]|[H _]]; [|lra].
    destruct (devig_cases underProb overProb) as [[_ ->]|[H _]]; [|lra].
    split; field; lra. }
  assert (Hrange : 0 <= overProb -> 0 <= underProb ->
                   0 <= OddsImport.devig overProb underProb
                   /\ OddsImport.devig overProb underProb <= 1).
  { intros Ho Hu.
    destruct (devig_cases overProb underProb) as [[Ht ->]|[Ht ->]].
    - split; [apply Qdiv_ge_const; lra|apply Qdiv_le_const; lra].
    - lra. }
  split; [exact Hsum|]. split; [exact Hrange|]. split.
  - intros H1.
    destruct (devig_cases overProb underProb) as [[_ ->]|[H _]]; [|lra].
    rewrite H1. field.
  - intros over under Hnz -> ->.
    destruct (oddsToImpliedProb_unit over) as (O0 & O1 & Oz).
    destruct (oddsToImpliedProb_unit under) as (U0 & U1 & _).
    assert (0 < OddsImport.oddsToImpliedProb over).
    { destruct (Qlt_le_dec 0 (OddsImport.oddsToImpliedProb over)) as [H|H];
        [exact H|].
      exfalso. apply Hnz, Oz. lra. }
    set (o := OddsImport.oddsToImpliedProb over) in *.
    set (u := OddsImport.oddsToImpliedProb under) in *.
    destruct (Hsum ltac:(lra)) as [S1 S2].
    destruct (Hrange O0 U0) as [R0 R1].
    split; [|split; [exact R1|exact S1]].
    destruct (devig_cases o u) as [[Ht ->]|[Ht _]]; [|lra].
    apply Qlt_shift_div_l; lra.
Qed.

(** The loop of [findClosestLine] keeps the first candidate among those
    closest to the target. *)
Lemma findClosestLine_loop target rest : forall before closest between,
  (forall c, In c before ->
     OddsImport.Math_abs (closest - target)
     < OddsImport.Math_abs (c - target)) ->
  (forall c, In c between ->
     OddsImport.Math_abs (closest - target)
     <= OddsImport.Math_abs (c - target)) ->
  exists before' closest' between',
    fold_left
      (fun '(closest, minDiff) candidate =>
         let diff := OddsImport.Math_abs (candidate - target) in
         if JS.lt diff minDiff then (candidate, diff)
         else (closest, minDiff))
      rest (closest, OddsImport.Math_abs (closest - target))
    = (closest', OddsImport.Math_abs (closest' - target))
    /\ before ++ closest :: between ++ rest
       = before' ++ closest' :: between'
    /\ (forall c, In c before' ->
          OddsImport.Math_abs (closest' - target)
          < OddsImport.Math_abs (c - target))
    /\ (forall c, In c between' ->
          OddsImport.Math_abs (closest' - target)
          <= OddsImport.Math_abs (c - target)).
Proof.
  induction rest as [|x rest IH]; intros before closest between Hb Hm.
  - exists before, closest, between. rewrite app_nil_r. auto.
  - cbn [fold_left].
    destruct (JS.lt (OddsImport.Math_abs (x - target))
                (OddsImport.Math_abs (closest - target))) eqn:E.
    + apply JS_lt_iff in E.
      destruct (IH (before ++ closest :: between) x []) as
        (b' & c' & m' & Hf & Hl & Hb' & Hm').
      * intros c Hc. apply in_app_iff in Hc. destruct Hc as [Hc|[<-|Hc]].
        -- specialize (Hb c Hc). lra.
        -- exact E.
        -- specialize (Hm c Hc). lra.
      * intros c [].
      * exists b', c', m'. split; [exact Hf|]. split; [|auto].
        rewrite <- Hl. rewrite <- !app_assoc. reflexivity.
    + apply JS_lt_false in E.
      destruct (IH before closest (between ++ [x])) as
        (b' & c' & m' & Hf & Hl & Hb' & Hm').
      * exact Hb.
      * intros c Hc. apply in_app_iff in Hc. destruct Hc as [Hc|[<-|[]]].
        -- apply Hm, Hc.
        -- exact E.
      * exists b', c', m'. split; [exact Hf|]. split; [|auto].
        rewrite <- Hl. rewrite <- app_assoc. reflexivity.
Qed.

(** X25.  Without candidates, [findClosestLine] returns the target with
    an infinite difference.  Otherwise it returns a candidate at the least
    distance from the target, together with that distance, and among
    several such candidates the first one. *)
Theorem findClosestLine_closest target candidates :
  let r := OddsImport.findClosestLine target candidates in
  let distance c := OddsImport.Math_abs (c - target) in
  (candidates = [] -> r = OddsImport.mkMatch target None)
  /\ (candidates <> [] ->
      OddsImport.diff r = Some (distance (OddsImport.line r))
      /\ exists before after,
           candidates = before ++ OddsImport.line r :: after
           /\ (forall c, In c before ->
                 distance (OddsImport.line r) < distance c)
           /\ (forall c, In c after ->
                 distance (OddsImport.line r) <= distance c)).
Proof.
  intros r distance. subst r distance. split.
  - intros ->. reflexivity.
  - intros Hne. destruct candidates as [|first rest]; [congruence|].
    unfold OddsImport.findClosestLine.
    set (step := fun '(closest, minDiff) candidate =>
                   let diff := OddsImport.Math_abs (candidate - target) in
                   if JS.lt diff minDiff then (candidate, diff)
                   else (closest, minDiff)).
    assert (Hfirst : fold_left step (first :: rest)
                       (first, OddsImport.Math_abs (first - target))
                     = fold_left step rest
                         (first, OddsImport.Math_abs (first - target))).
    { cbn [fold_left]. unfold step at 2. cbv zeta.
      assert (JS.lt (OddsImport.Math_abs (first - target))
                (OddsImport.Math_abs (first - target)) = false) as ->
        by (apply JS_lt_false; lra).
      reflexivity. }
    rewrite Hfirst.
    destruct (findClosestLine_loop target rest [] first []) as
      (b' & c' & m' & Hf & Hl & Hb' & Hm'); [intros ? []|intros ? []|].
    fold step in Hf. rewrite Hf. cbn [OddsImport.diff OddsImport.line].
    split; [reflexivity|]. exists b', m'. simpl in Hl. auto.
Qed.

(** ** Round-robin combinations *)

Lemma generateCombos_eq arr size current :
  generateCombos arr size current
  = if (List.length current =? size)%nat then [current]
    else combosLoop arr size current.
Proof.
  destruct arr as [|leg rest]; simpl.
  - reflexivity.
  - destruct (List.length current =? size)%nat; [reflexivity|].
    f_equal. induction rest as [|leg' rest' IH]; simpl; [reflexivity|].
    f_equal. exact IH.
Qed.

Lemma generateCombos_complete (k : nat) arr : forall current,
  (List.length current <= k)%nat ->
  generateCombos arr k current
  = List.map (app current) (combinations (k - List.length current) arr)
  /\ ((List.length current < k)%nat ->
      combosLoop arr k current
      = List.map (app current) (combinations (k - List.length current) arr)).
Proof.
  induction arr as [|leg rest IH]; intros current Hlen.
  - assert (Hloop : (List.length current < k)%nat ->
                    combosLoop [] k current
                    = List.map (app current)
                        (combinations (k - List.length current) [])).
    { intros Hlt. rewrite combinations_nil by lia. reflexivity. }
    split; [|exact Hloop].
    rewrite generateCombos_eq.
    destruct (Nat.eqb_spec (List.length current) k) as [E|E].
    + replace (k - List.length current)%nat with O by lia. simpl.
      rewrite app_nil_r. reflexivity.
    + apply Hloop. lia.
  - assert (Hloop : (List.length current < k)%nat ->
                    combosLoop (leg :: rest) k current
                    = List.map (app current)
                        (combinations (k - List.length current)
                           (leg :: rest))).
    { intros Hlt. cbn [combosLoop].
      destruct (k - List.length current)%nat as [|j] eqn:Ej; [lia|].
      cbn [combinations]. rewrite map_app. f_equal.
      - destruct (IH (current ++ [leg])) as [Hgen _].
        { rewrite length_app. simpl. lia. }
        rewrite Hgen. rewrite length_app. simpl.
        replace (k - (List.length current + 1))%nat with j by lia.
        rewrite map_map. apply map_ext. intros c.
        rewrite <- app_assoc. reflexivity.
      - destruct (IH current) as [_ Hl]; [lia|].
        rewrite Hl by lia. rewrite Ej. reflexivity. }
    split; [|exact Hloop].
    rewrite generateCombos_eq.
    destruct (Nat.eqb_spec (List.length current) k) as [E|E].
    + replace (k - List.length current)%nat with O by lia. simpl.
      rewrite app_nil_r. reflexivity.
    + apply Hloop. lia.
Qed.

Lemma combinations_one {A} (l : list A) :
  List.length (combinations 1 l) = List.length l.
Proof.
  induction l as [|x r IH]; [reflexivity|].
  cbn [combinations]. rewrite length_app, length_map, IH.
  destruct r; reflexivity.
Qed.

Lemma combinations_two {A} (l : list A) :
  (2 * List.length (combinations 2 l)
   = List.length l * (List.length l - 1))%nat.
Proof.
  induction l as [|x r IH]; [reflexivity|].
  cbn [combinations]. rewrite length_app, length_map, combinations_one.
  cbn [List.length]. nia.
Qed.

Lemma combinations_three {A} (l : list A) :
  (6 * List.length (combinations 3 l)
   = List.length l * (List.length l - 1) * (List.length l - 2))%nat.
Proof.
  induction l as [|x r IH]; [reflexivity|].
  cbn [combinations]. rewrite length_app, length_map.
  pose proof (combinations_two r) as H2.
  cbn [List.length]. destruct (List.length r) as [|[|n]]; nia.
Qed.

(** X26.  [generateRoundRobin] lists the combinations of [size] legs,
    earlier positions first: each is a sub-sequence of the legs of length
    [size], and of n legs there are n(n-1)/2 pairs and n(n-1)(n-2)/6
    triples.  The legs of the parlays of [generateParlays] are those
    round-robin combinations of the filtered legs that pass
    [isValidParlay]. *)
Theorem generateRoundRobin_combinations legs size :
  let combos := generateRoundRobin legs size in
  combos = combinations size legs
  /\ (forall combo, In combo combos ->
        sublist combo legs /\ List.length combo = size)
  /\ (size = 2%nat ->
      (2 * List.length combos
       = List.length legs * (List.length legs - 1))%nat)
  /\ (size = 3%nat ->
      (6 * List.length combos
       = List.length legs * (List.length legs - 1)
         * (List.length legs - 2))%nat)
  /\ (forall options,
        clampLegCount (ParlayOptions.legCount options) = Z.of_nat size ->
        let allowSameGame :=
          if JS.nullish (ParlayOptions.singleGame options) false then true
          else JS.nullish (ParlayOptions.allowSameGame options) false in
        let allowSameTeamStack :=
          JS.nullish (ParlayOptions.allowSameTeamStack options) false in
        Permutation
          (List.map Parlay.legs (generateParlays legs options))
          (List.filter
             (fun c => isValidParlay c (Z.of_nat size) allowSameGame
                         allowSameTeamStack)
             (generateRoundRobin (filterLegs legs options) size))).
Proof.
  intros combos.
  assert (Heq : forall l, generateRoundRobin l size = combinations size l).
  { intros l. unfold generateRoundRobin.
    destruct (generateCombos_complete size l []) as [H _]; [simpl; lia|].
    rewrite H. simpl. rewrite Nat.sub_0_r. apply map_id. }
  subst combos. rewrite Heq.
  split; [reflexivity|]. split; [apply combinations_sublist|].
  split; [intros ->; apply combinations_two|].
  split; [intros ->; apply combinations_three|].
  intros options Hsize allowSameGame allowSameTeamStack.
  rewrite Heq.
  pose proof (generateParlays_enumerates legs options) as HP.
  cbv zeta in HP. rewrite Hsize, Nat2Z.id in HP. exact HP.
Qed.

(** ** Completeness of the enumeration *)

Lemma Set_of_size_of_NoDup (l : list string) :
  NoDup l -> size (JS.Set_of l) = List.length l.
Proof.
  unfold JS.Set_of. induction 1 as [|x r Hx Hr IH].
  - rewrite list_to_set_nil, size_empty. reflexivity.
  - rewrite list_to_set_cons. cbn [List.length].
    rewrite size_union, size_singleton, IH; [reflexivity|].
    apply disjoint_singleton_l. intros Hin. apply Hx.
    apply elem_of_list_to_set in Hin. apply list_elem_of_In. exact Hin.
Qed.

Lemma oneLegPerGame_of_NoDup legs : forall gameCounts,
  NoDup (List.map gameKey legs) ->
  (forall leg, In leg legs ->
     JS.nullish (JS.Map_get (gameKey leg) gameCounts) O = O) ->
  oneLegPerGame legs gameCounts = true.
Proof.
  induction legs as [|leg rest IH]; intros m Hnd Hfresh; [reflexivity|].
  cbn [oneLegPerGame]. cbv zeta. unfold JS.Map_bump.
  rewrite (Hfresh leg (or_introl eq_refl)). cbn [Nat.add Nat.ltb Nat.leb].
  inversion Hnd as [|? ? Hx Hr]; subst.
  apply IH; [exact Hr|]. intros l' Hl'. rewrite Map_get_set.
  destruct (String.eqb_spec (gameKey leg) (gameKey l')) as [E|E].
  - exfalso. apply Hx. rewrite E. apply in_map, Hl'.
  - apply Hfresh. right. exact Hl'.
Qed.

(** [isValidParlay] accepts exactly the leg lists of the requested length
    with distinct players, with distinct games unless several legs of a game
    are allowed, and without a stack unless stacks are allowed. *)
Lemma isValidParlay_iff legs legCount allowSameGame allowSameTeamStack :
  isValidParlay legs legCount allowSameGame allowSameTeamStack = true
  <-> Z.of_nat (List.length legs) = legCount
      /\ NoDup (List.map Leg.playerId legs)
      /\ (allowSameGame = false -> NoDup (List.map gameKey legs))
      /\ (allowSameTeamStack = false ->
          forall a b, In a legs -> In b legs ->
            violatesSameTeamStack a b false = false).
Proof.
  split.
  - intros H. apply isValidParlay_true in H.
    destruct H as (H1 & H2 & H3 & H4).
    split; [exact H1|]. split; [exact H2|]. split; [exact H3|].
    intros ->. apply noStackViolation_pairs, H4. reflexivity.
  - intros (H1 & H2 & H3 & H4). unfold isValidParlay.
    rewrite (proj2 (Z.eqb_eq _ _) H1). cbn [negb]. cbv zeta.
    rewrite (Set_of_size_of_NoDup _ H2), Nat.eqb_refl. cbn [negb].
    assert (negb allowSameGame && negb (oneLegPerGame legs []) = false) as ->.
    { destruct allowSameGame; [reflexivity|]. cbn [negb andb].
      rewrite oneLegPerGame_of_NoDup; [reflexivity|apply H3; reflexivity|].
      intros leg _. reflexivity. }
    destruct allowSameTeamStack; [reflexivity|]. cbn [negb andb].
    rewrite (proj2 (noStackViolation_pairs legs) (H4 eq_refl)). reflexivity.
Qed.

Lemma combinations_of_sublist {A} (c l : list A) :
  sublist c l -> In c (combinations (List.length c) l).
Proof.
  induction 1 as [|x c l Hs IH|x c l Hs IH].
  - left. reflexivity.
  - cbn [List.length combinations]. apply in_app_iff. left.
    apply in_map, IH.
  - destruct c as [|y c]; [destruct l; left; reflexivity|].
    cbn [List.length combinations] in *. apply in_app_iff. right. exact IH.
Qed.

(** X27.  [generateParlays] misses no valid parlay: every sub-sequence of the
    filtered legs that has the clamped leg count, distinct players, distinct
    games (unless several legs of a game are allowed) and no stack (unless
    stacks are allowed) is the leg list of a returned parlay, which carries
    the adjusted probability of those legs. *)
Theorem generateParlays_complete candidateLegs options legs :
  let allowSameGame :=
    if JS.nullish (ParlayOptions.singleGame options) false then true
    else JS.nullish (ParlayOptions.allowSameGame options) false in
  let allowSameTeamStack :=
    JS.nullish (ParlayOptions.allowSameTeamStack options) false in
  sublist legs (filterLegs candidateLegs options) ->
  Z.of_nat (List.length legs) = clampLegCount (ParlayOptions.legCount options) ->
  NoDup (List.map Leg.playerId legs) ->
  (allowSameGame = false -> NoDup (List.map gameKey legs)) ->
  (allowSameTeamStack = false ->
   forall a b, In a legs -> In b legs ->
     violatesSameTeamStack a b false = false) ->
  exists p,
    In p (generateParlays candidateLegs options)
    /\ Parlay.legs p = legs
    /\ Parlay.estimatedProbability p
       = PenaltyResult.adjustedProbability (calculateParlayPenalties legs).
Proof.
  intros allowSameGame allowSameTeamStack Hsub Hlen Hids Hgames Hstack.
  assert (Hvalid : isValidParlay legs
                     (clampLegCount (ParlayOptions.legCount options))
                     allowSameGame allowSameTeamStack = true).
  { apply isValidParlay_iff. auto. }
  pose proof (generateParlays_enumerates candidateLegs options) as HP.
  cbv zeta in HP. fold allowSameGame allowSameTeamStack in HP.
  assert (Hin : In legs (List.map Parlay.legs
                           (generateParlays candidateLegs options))).
  { eapply Permutation_in; [apply Permutation_sym, HP|].
    apply filter_In. split; [|exact Hvalid].
    rewrite <- Hlen, Nat2Z.id. apply combinations_of_sublist, Hsub. }
  apply in_map_iff in Hin. destruct Hin as (p & Hp & Hin).
  exists p. split; [exact Hin|]. split; [exact Hp|].
  apply generateParlays_In in Hin. cbv zeta in Hin.
  destruct Hin as [_ [Hb _]]. rewrite Hb, Hp. reflexivity.
Qed.

(** ** The further properties at concrete inputs *)

Lemma calculateProbability_shrinkage_witness :
  let r := calculateProbability sqrtMillis sixGames StatType.rec_yards 50
             DEFAULT_BETA_A DEFAULT_BETA_B in
  (4 # 12 <= ProbResult.smoothedProb r)%Q
  /\ (ProbResult.smoothedProb r < 1)%Q.
Proof.
  destruct (calculateProbability_shrinkage sqrtMillis sixGames
              StatType.rec_yards 50) as (_ & (H1 & _ & H3) & _).
  - vm_compute. lia.
  - split; [|exact H3]. cbv zeta in H1.
    eapply Qle_trans; [|exact H1]. vm_compute. discriminate.
Defined.

Lemma calculateProbability_threshold_monotone_witness :
  (ProbResult.smoothedProb
     (calculateProbability sqrtMillis sixGames StatType.rec_yards 50 4 2)
   <= ProbResult.smoothedProb
        (calculateProbability sqrtMillis sixGames StatType.rec_yards 25 4 2))%Q.
Proof.
  apply (calculateProbability_threshold_monotone sqrtMillis sixGames
           StatType.rec_yards 25 50 4 2); vm_compute; discriminate.
Defined.


Lemma generateLegs_few_games_witness :
  generateLegs isoDateTime sqrtMillis "p1" None (firstn 3 sixGames) 3
    DEFAULT_MIN_PROBABILITY DEFAULT_MIN_SAMPLE_SIZE
    DEFAULT_MIN_TOUCHES_PER_GAME = [].
Proof.
  apply (generateLegs_few_games isoDateTime sqrtMillis "p1" None
           (firstn 3 sixGames) 3). left. simpl. lia.
Defined.

Lemma generateParlays_no_stack_witness :
  exists p,
    hd_error (generateParlays fourLegs twoLegOptions) = Some p
    /\ stackedTeams (Parlay.legs p) = [].
Proof.
  eexists. split; [vm_compute; reflexivity|].
  match goal with
  | |- stackedTeams (Parlay.legs ?p) = [] =>
      pose proof (generateParlays_no_stack fourLegs twoLegOptions p) as H
  end.
  destruct H as (_ & H & _).
  - reflexivity.
  - vm_compute. left. reflexivity.
  - exact H.
Defined.

Lemma generateParlays_legs_provenance_witness :
  exists p,
    hd_error (generateParlays fourLegs twoLegOptions) = Some p
    /\ sublist (Parlay.legs p) fourLegs
    /\ Parlay.penaltyBreakdown p = None.
Proof.
  eexists. split; [vm_compute; reflexivity|].
  match goal with
  | |- sublist (Parlay.legs ?p) _ /\ _ =>
      pose proof (generateParlays_legs_provenance fourLegs twoLegOptions p)
        as H
  end.
  destruct H as (H1 & _ & _ & _).
  - vm_compute. left. reflexivity.
  - split; [exact H1|reflexivity].
Defined.

Lemma generateParlays_too_few_legs_witness :
  generateParlays [legA] ParlayOptions.empty = []
  /\ getTopParlays [legA] 20 ParlayOptions.empty = [].
Proof.
  destruct (generateParlays_too_few_legs [legA] ParlayOptions.empty)
    as [H1 H2].
  - vm_compute. reflexivity.
  - split; [exact H1|apply H2].
Defined.

Lemma generateParlays_complete_witness :
  exists p,
    In p (generateParlays fourLegs twoLegOptions)
    /\ List.map Leg.playerId (Parlay.legs p) = ["b"; "d"].
Proof.
  destruct (generateParlays_complete fourLegs twoLegOptions
              [nth 1 fourLegs legA; nth 3 fourLegs legA])
    as (p & Hin & Hlegs & _).
  - vm_compute. apply sublist_cons, sublist_skip, sublist_cons, sublist_skip.
    constructor.
  - reflexivity.
  - vm_compute. repeat constructor; simpl; intuition discriminate.
  - intros _. vm_compute. repeat constructor; simpl; intuition discriminate.
  - intros _ a b Ha Hb.
    destruct Ha as [<-|[<-|[]]], Hb as [<-|[<-|[]]]; reflexivity.
  - exists p. split; [exact Hin|]. rewrite Hlegs. reflexivity.
Defined.

Example generateLegsForPlayers_example :
  match generateLegsForPlayers isoDateTime sqrtMillis
          [("p1", Some "Pat Example"); ("p2", None)] {[ "p1" := nineGames ]}
          None DEFAULT_MIN_PROBABILITY DEFAULT_MIN_SAMPLE_SIZE
          DEFAULT_MIN_TOUCHES_PER_GAME with
  | Normal legs =>
      List.map (fun leg => (Leg.playerId leg, Leg.statType leg)) legs
      = [("p1", StatType.receptions); ("p1", StatType.rec_yards)]
  | TypeError => False
  end.
Proof. vm_compute. reflexivity. Qed.

Example generateLegsForPlayers_inherited :
  generateLegsForPlayers isoDateTime sqrtMillis
    [("p1", Some "Pat Example"); ("toString", None)] {[ "p1" := nineGames ]}
    None DEFAULT_MIN_PROBABILITY DEFAULT_MIN_SAMPLE_SIZE
    DEFAULT_MIN_TOUCHES_PER_GAME
  = TypeError.
Proof. vm_compute. reflexivity. Qed.

Example getCacheFilePath_example :
  Cache.getCacheFilePath "gamelogs:2024/week 5" = "gamelogs_2024_week_5.json".
Proof. reflexivity. Qed.

Lemma getCache_after_setCache_witness :
  let written :=
    Cache.setCache string entryToText "week/5" "payload" 60000 1000 None in
  Cache.getCache string entryOfText "week_5" 61000 written
  = (Some "payload", written)
  /\ fst (Cache.getCache string entryOfText "week_5" 61001 written) = None.
Proof.
  destruct (getCache_after_setCache string entryToText entryOfText "week/5"
              "week_5" "payload" 60000 1000 61000 None) as [H1 _];
    [vm_compute; reflexivity|reflexivity|].
  destruct (getCache_after_setCache string entryToText entryOfText "week/5"
              "week_5" "payload" 60000 1000 61001 None) as [_ H2];
    [vm_compute; reflexivity|reflexivity|].
  split.
  - apply H1. vm_compute. discriminate.
  - destruct H2 as [H2 _]; [vm_compute; reflexivity|].
    cbv zeta. rewrite H2. reflexivity.
Defined.

Lemma getCache_other_key_witness :
  fst (Cache.getCache string entryOfText "week-6" 2000
         (Cache.setCache string entryToText "week-5" "payload" 60000 1000
            None))
  = None.
Proof.
  destruct (getCache_other_key string entryToText entryOfText "week-5"
              "week-6" "payload" 60000 1000 2000 None) as [H _].
  - vm_compute. discriminate.
  - rewrite H. reflexivity.
Defined.

Example calculateCurrentWeek_example :
  Week.calculateCurrentWeek (fun _ => 2024%Z)
    (fun y m d => (daysFromCivil y (m + 1) d * 86400000)%Z)
    (daysFromCivil 2024 9 20 * 86400000)%Z = 3%Z.
Proof. vm_compute. reflexivity. Qed.

Example oddsToImpliedProb_favourite :
  (OddsImport.oddsToImpliedProb (-150) == 60 # 100)%Q.
Proof. vm_compute. reflexivity. Qed.

Example findClosestLine_tie :
  OddsImport.findClosestLine 50 [(55 # 1)%Q; (45 # 1)%Q; (60 # 1)%Q]
  = OddsImport.mkMatch 55 (Some (5 # 1)%Q).
Proof. vm_compute. reflexivity. Qed.

Example generateRoundRobin_pairs :
  List.map (List.map Leg.playerId) (generateRoundRobin fourLegs 2)
  = [["a"; "b"]; ["a"; "c"]; ["a"; "d"]; ["b"; "c"]; ["b"; "d"]; ["c"; "d"]].
Proof. vm_compute. reflexivity. Qed.
